(** * Lepton: commitment tree, wallet scanner and spending-solution planner

    A shallow embedding of the parts of the Lepton wallet library that decide
    the properties checked below:

    - [Planner]: [src/solutions/complex-solutions.ts]
      ([nextNullifierTarget], [shouldAddMoreUTXOsForSolutionBatch],
      [findNextSolutionBatch]);
    - [Merkle]: [src/merkletree/index.ts]
      (constructor, [getNode], [getRoot], [getTreeLength], [insertLeaves],
      [writeTreeCache]);
    - [Scanner]: the wallet ([scanLeaves], [balances]) and [src/note/note.ts]
      ([Note.getNullifier], [Note.serialize]).

    JavaScript [number]s that count or index are [nat]; [bigint]s are [Z];
    hex strings and transaction ids are [string]; [undefined] is [None]. *)

From Stdlib Require Import ZArith Lia HexString.
From stdpp Require Import gmap strings list fin_maps sorting.

Set Default Proof Using "Type".

(** ** Outcomes of a JavaScript call

    A call returns a value, throws, or (in a model with fuel) has not finished
    when the fuel is spent. *)

Inductive outcome (A : Type) : Type :=
| Returned (a : A)
| Thrown (message : string)
| OutOfFuel.

Arguments Returned {A} a.
Arguments Thrown {A} message.
Arguments OutOfFuel {A}.

(** ** Shared data model (wallet types) *)

(** [Note] of [src/note/note.ts]: the fields set by its constructor. *)
Record Note : Type := mkNote {
  viewingPublicKey : list Z;      (* Uint8Array *)
  masterPublicKey : Z;            (* bigint *)
  token : string;                 (* hex, 20 bytes *)
  random : string;                (* hex, 16 bytes *)
  value : Z                       (* bigint *)
}.

(** [spendtxid: string | false]. *)
Inductive spend_status : Type :=
| NotSpent                        (* false *)
| SpentIn (spendingTxid : string).

(** [TXO] of the wallet. *)
Record TXO : Type := mkTXO {
  tree : nat;
  position : nat;
  index : nat;
  txid : string;
  spendtxid : spend_status;
  note : Note
}.

(** [TreeBalance = { balance: bigint; utxos: TXO[] }]. *)
Record TreeBalance : Type := mkTreeBalance {
  balance : Z;
  utxos : list TXO
}.

(** * The spending-solution planner *)

Module Planner.

Local Open Scope Z_scope.

(** Modelled from the spec: [VALID_NULLIFIER_COUNTS] of [./nullifiers], which
    is not among the sources; the spec gives V = {1, 2, 8}. *)
Definition VALID_NULLIFIER_COUNTS : list nat := [1%nat; 2%nat; 8%nat].

(** Modelled from the spec: [isValidNullifierCount] of [./nullifiers],
    membership in V. *)
Definition isValidNullifierCount (n : nat) : bool :=
  existsb (Nat.eqb n) VALID_NULLIFIER_COUNTS.

(** Modelled from the spec: [calculateTotalSpend] of [./utxos], the sum of the
    note values ([s = sum(spending.value)]). *)
Definition calculateTotalSpend (l : list TXO) : Z :=
  fold_left (fun acc utxo => acc + value (note utxo)) l 0.

(** Modelled from the spec: [sortUTXOsBySize] of [./utxos]: descending by
    value, equal values keep their order. *)
Fixpoint insertBySize (x : TXO) (l : list TXO) : list TXO :=
  match l with
  | [] => [x]
  | y :: ys =>
      if value (note y) <=? value (note x) then x :: y :: ys
      else y :: insertBySize x ys
  end.

Fixpoint sortUTXOsBySize (l : list TXO) : list TXO :=
  match l with
  | [] => []
  | x :: xs => insertBySize x (sortUTXOsBySize xs)
  end.

(** [VALID_NULLIFIER_COUNTS.find((n) => n > utxoCount)]. *)
Definition nextNullifierTarget (utxoCount : nat) : option nat :=
  find (fun n => (utxoCount <? n)%nat) VALID_NULLIFIER_COUNTS.

(** [shouldAddMoreUTXOsForSolutionBatch]: the three early returns and the
    final [return true], in the order of the source. [!nullifierTarget] holds
    for [undefined] and for [0]. *)
Definition shouldAddMoreUTXOsForSolutionBatch
    (spendingUTXOs allUTXOs : list TXO) (totalRequired : Z) : bool :=
  let nullifierCount := length spendingUTXOs in
  let totalSpend := calculateTotalSpend spendingUTXOs in
  if totalRequired <=? totalSpend then
    negb (isValidNullifierCount nullifierCount)
  else
    match nextNullifierTarget nullifierCount with
    | None | Some O => negb (isValidNullifierCount nullifierCount)
    | Some nullifierTarget =>
        let totalNullifierCount := length allUTXOs in
        if (totalNullifierCount <? nullifierTarget)%nat then
          negb (isValidNullifierCount nullifierCount)
        else true
    end.

(** [excludedUTXOIDs.includes(utxo.txid)]. *)
Definition includes (ids : list string) (id : string) : bool :=
  existsb (String.eqb id) ids.

(** The accumulation loop
    [while (shouldAdd...(utxos, filteredUTXOs, totalRequired))
       utxos.push(filteredUTXOs[utxos.length]);]
    One unit of fuel pays for one evaluation of the loop condition. Reading
    [filteredUTXOs] past its end yields [undefined]; the next evaluation of
    the condition then reads [.note] of [undefined] in [calculateTotalSpend],
    a TypeError. *)
Fixpoint accumulate (fuel : nat) (filteredUTXOs : list TXO) (totalRequired : Z)
    (utxos : list TXO) : outcome (list TXO) :=
  match fuel with
  | O => OutOfFuel
  | S fuel' =>
      if shouldAddMoreUTXOsForSolutionBatch utxos filteredUTXOs totalRequired
      then
        match filteredUTXOs !! length utxos with
        | Some next =>
            accumulate fuel' filteredUTXOs totalRequired (utxos ++ [next])
        | None => Thrown "TypeError: Cannot read properties of undefined"
        end
      else Returned utxos
  end.

(** [findNextSolutionBatch]; [Returned None] is [undefined]. *)
Definition findNextSolutionBatch (fuel : nat) (treeBalance : TreeBalance)
    (totalRequired : Z) (excludedUTXOIDs : list string)
    : outcome (option (list TXO)) :=
  let filteredUTXOs :=
    filter (fun utxo => negb (includes excludedUTXOIDs (txid utxo)))
           (utxos treeBalance) in
  if (length filteredUTXOs =? 0)%nat then Returned None
  else
    let filteredUTXOs := sortUTXOsBySize filteredUTXOs in
    match accumulate fuel filteredUTXOs totalRequired [] with
    | Returned utxos =>
        if negb (isValidNullifierCount (length utxos))
        then Thrown "Invalid nullifier count"
        else Returned (Some utxos)
    | Thrown e => Thrown e
    | OutOfFuel => OutOfFuel
    end.

(** The UTXOs a call considers: the non-excluded ones. *)
Definition nonExcluded (treeBalance : TreeBalance)
    (excludedUTXOIDs : list string) : list TXO :=
  filter (fun utxo => negb (includes excludedUTXOIDs (txid utxo)))
         (utxos treeBalance).

(** A test TXO as the test-suite's [createMockTXO] builds it: only [txid] and
    the note's value matter to the planner. *)
Definition mockTXO (id : string) (v : Z) : TXO :=
  mkTXO 0 0 0 id NotSpent (mkNote [] 0 "abc" "" v).

Definition treeBalance6 : TreeBalance :=
  mkTreeBalance 150
    [mockTXO "a" 30; mockTXO "b" 40; mockTXO "c" 50;
     mockTXO "d" 10; mockTXO "e" 20; mockTXO "f" 0].

Definition treeBalance9 : TreeBalance :=
  mkTreeBalance 450
    [mockTXO "a" 30; mockTXO "b" 40; mockTXO "c" 50; mockTXO "d" 10;
     mockTXO "e" 20; mockTXO "f" 60; mockTXO "g" 70; mockTXO "h" 80;
     mockTXO "i" 90].

Definition txids (r : outcome (option (list TXO))) : outcome (option (list string)) :=
  match r with
  | Returned o => Returned (fmap (M:=option) (map txid) o)
  | Thrown e => Thrown e
  | OutOfFuel => OutOfFuel
  end.

Example nextNullifierTarget_values :
  map nextNullifierTarget [0; 1; 2; 3; 4; 5; 6; 7; 8; 9]%nat
  = [Some 1; Some 2; Some 8; Some 8; Some 8; Some 8; Some 8; Some 8; None; None]%nat.
Proof. reflexivity. Qed.

Example sort6 :
  map txid (sortUTXOsBySize (utxos treeBalance6)) = ["c"; "b"; "a"; "e"; "d"; "f"].
Proof. reflexivity. Qed.

Example batch_180 :
  txids (findNextSolutionBatch 9 treeBalance6 180 []) = Returned (Some ["c"; "b"]).
Proof. reflexivity. Qed.

Example batch_180_excl :
  txids (findNextSolutionBatch 9 treeBalance6 180 ["a"; "b"]) = Returned (Some ["c"; "e"]).
Proof. reflexivity. Qed.

Example batch_10_excl :
  txids (findNextSolutionBatch 9 treeBalance6 10 ["a"; "b"]) = Returned (Some ["c"]).
Proof. reflexivity. Qed.

Example batch_120 :
  txids (findNextSolutionBatch 9 treeBalance6 120 []) = Returned (Some ["c"; "b"]).
Proof. reflexivity. Qed.

Example batch_all_excluded :
  txids (findNextSolutionBatch 9 treeBalance6 120 ["a"; "b"; "c"; "d"; "e"; "f"])
  = Returned None.
Proof. reflexivity. Qed.

Example batch9_500 :
  txids (findNextSolutionBatch 9 treeBalance9 500 [])
  = Returned (Some ["i"; "h"; "g"; "f"; "c"; "b"; "a"; "e"]).
Proof. reflexivity. Qed.

Example batch9_48_excl :
  txids (findNextSolutionBatch 9 treeBalance9 48 ["i"]) = Returned (Some ["h"]).
Proof. reflexivity. Qed.

(** *** The decision depends only on two lengths and a sum *)

Definition shouldAddByCount (k N : nat) (spend totalRequired : Z) : bool :=
  if totalRequired <=? spend then negb (isValidNullifierCount k)
  else
    match nextNullifierTarget k with
    | None | Some O => negb (isValidNullifierCount k)
    | Some t => if (N <? t)%nat then negb (isValidNullifierCount k) else true
    end.

Lemma shouldAdd_by_count spending all required :
  shouldAddMoreUTXOsForSolutionBatch spending all required
  = shouldAddByCount (length spending) (length all)
      (calculateTotalSpend spending) required.
Proof. reflexivity. Qed.

Lemma isValidNullifierCount_true n :
  isValidNullifierCount n = true ↔ n = 1%nat ∨ n = 2%nat ∨ n = 8%nat.
Proof.
  unfold isValidNullifierCount, VALID_NULLIFIER_COUNTS. simpl.
  rewrite !orb_true_iff, !Nat.eqb_eq. intuition discriminate.
Qed.

Lemma shouldAddByCount_false_valid k N spend required :
  shouldAddByCount k N spend required = false →
  isValidNullifierCount k = true.
Proof.
  unfold shouldAddByCount. intros H.
  repeat match type of H with
         | (if ?c then _ else _) = _ => destruct c
         | match ?o with _ => _ end = _ => destruct o
         end;
    try discriminate; by apply negb_false_iff.
Qed.

(** Below eight, the small targets: the loop goes on from [k] only when the
    next valid count is still available in the list. *)
Lemma shouldAddByCount_true_room k N spend required :
  (k <= 8)%nat → (1 <= N)%nat → (3 <= k → 8 <= N)%nat →
  shouldAddByCount k N spend required = true →
  (k < 8 ∧ k < N ∧ (2 <= k → 8 <= N))%nat.
Proof.
  intros Hk HN Hmid.
  assert (Hcases : (k = 0 ∨ k = 1 ∨ k = 2 ∨ k = 3 ∨ k = 4 ∨ k = 5 ∨ k = 6
                    ∨ k = 7 ∨ k = 8)%nat) by lia.
  clear Hk.
  repeat (destruct Hcases as [->|Hcases]); try subst k;
    unfold shouldAddByCount; simpl;
    destruct (required <=? spend); simpl; try discriminate;
    repeat case_match; try discriminate;
    repeat match goal with
           | H : (_ <? _)%nat = false |- _ => apply Nat.ltb_ge in H
           | H : (_ <? _)%nat = true |- _ => apply Nat.ltb_lt in H
           end; intros _; lia.
Qed.

Lemma calculateTotalSpend_app l x :
  calculateTotalSpend (l ++ [x]) = calculateTotalSpend l + value (note x).
Proof. unfold calculateTotalSpend. by rewrite fold_left_app. Qed.

Lemma insertBySize_length x l : length (insertBySize x l) = S (length l).
Proof.
  induction l as [|y ys IH]; simpl; [done|].
  destruct (value (note y) <=? value (note x)); simpl; by rewrite ?IH.
Qed.

Lemma sortUTXOsBySize_length l : length (sortUTXOsBySize l) = length l.
Proof.
  induction l as [|x xs IH]; simpl; [done|].
  by rewrite insertBySize_length, IH.
Qed.

(** The loop, started on the first [k] sorted UTXOs, stops on a longer prefix
    of valid length after at most [min 8 N - k] further pushes. *)
Lemma accumulate_prefix (F : list TXO) required :
  (1 <= length F)%nat →
  ∀ fuel k,
    (k <= 8)%nat → (k <= length F)%nat → (3 <= k → 8 <= length F)%nat →
    (Nat.min 8 (length F) < fuel + k)%nat →
    ∃ m, (k <= m <= Nat.min 8 (length F))%nat
         ∧ isValidNullifierCount m = true
         ∧ accumulate fuel F required (take k F) = Returned (take m F).
Proof.
  intros HN fuel. induction fuel as [|fuel IH]; intros k Hk8 HkN Hmid Hfuel.
  - lia.
  - cbn [accumulate]. rewrite shouldAdd_by_count, length_take_le by lia.
    destruct (shouldAddByCount k (length F) (calculateTotalSpend (take k F)) required)
      eqn:Hgo.
    + apply shouldAddByCount_true_room in Hgo as (Hlt8 & HltN & Htwo); try done.
      destruct (lookup_lt_is_Some_2 F k HltN) as [next Hnext].
      rewrite Hnext, <- (take_S_r F k next Hnext).
      destruct (IH (S k)) as (m & Hm & Hvalid & Hrun); try lia.
      exists m. split; [lia|]. by split.
    + exists k. split; [lia|]. split; [|done].
      by eapply shouldAddByCount_false_valid.
Qed.

Lemma accumulate_S fuel F required spending :
  accumulate (S fuel) F required spending =
  if shouldAddMoreUTXOsForSolutionBatch spending F required then
    match F !! length spending with
    | Some next => accumulate fuel F required (spending ++ [next])
    | None => Thrown "TypeError: Cannot read properties of undefined"
    end
  else Returned spending.
Proof. reflexivity. Qed.

Lemma findNextSolutionBatch_unfold fuel treeBalance required excluded :
  findNextSolutionBatch fuel treeBalance required excluded =
  if (length (nonExcluded treeBalance excluded) =? 0)%nat then Returned None
  else
    match accumulate fuel (sortUTXOsBySize (nonExcluded treeBalance excluded))
            required [] with
    | Returned utxos =>
        if negb (isValidNullifierCount (length utxos))
        then Thrown "Invalid nullifier count"
        else Returned (Some utxos)
    | Thrown e => Thrown e
    | OutOfFuel => OutOfFuel
    end.
Proof. reflexivity. Qed.

(** C2. If [findNextSolutionBatch] returns a batch, the batch has 1, 2 or 8
    entries, whatever the tree balance, the required amount and the excluded
    transaction ids. *)
Theorem findNextSolutionBatch_valid_count
    fuel treeBalance required excluded (batch : list TXO) :
  findNextSolutionBatch fuel treeBalance required excluded
    = Returned (Some batch) →
  length batch = 1%nat ∨ length batch = 2%nat ∨ length batch = 8%nat.
Proof.
  rewrite findNextSolutionBatch_unfold. intros H.
  destruct (length (nonExcluded treeBalance excluded) =? 0)%nat; [discriminate|].
  destruct (accumulate _ _ _ _) as [u| |]; try discriminate.
  destruct (isValidNullifierCount (length u)) eqn:Hvalid; simpl in H;
    [|discriminate].
  injection H as <-. by apply isValidNullifierCount_true.
Qed.

Lemma findNextSolutionBatch_valid_count_witness :
  findNextSolutionBatch 9 treeBalance6 180 []
    = Returned (Some [mockTXO "c" 50; mockTXO "b" 40])
  ∧ (length [mockTXO "c" 50; mockTXO "b" 40] = 1%nat
     ∨ length [mockTXO "c" 50; mockTXO "b" 40] = 2%nat
     ∨ length [mockTXO "c" 50; mockTXO "b" 40] = 8%nat).
Proof.
  split; [reflexivity|].
  apply (findNextSolutionBatch_valid_count 9 treeBalance6 180 []).
  reflexivity.
Defined.

(** Whatever the fuel, the loop never reads past the end of the list. *)
Lemma accumulate_never_throws (F : list TXO) required :
  (1 <= length F)%nat →
  ∀ fuel k message,
    (k <= 8)%nat → (k <= length F)%nat → (3 <= k → 8 <= length F)%nat →
    accumulate fuel F required (take k F) ≠ Thrown message.
Proof.
  intros HN fuel.
  induction fuel as [|fuel IH]; intros k message Hk8 HkN Hmid; [discriminate|].
  cbn [accumulate]. rewrite shouldAdd_by_count, length_take_le by lia.
  destruct (shouldAddByCount k (length F) (calculateTotalSpend (take k F)) required)
    eqn:Hgo; [|discriminate].
  apply shouldAddByCount_true_room in Hgo as (Hlt8 & HltN & Htwo); try done.
  destruct (lookup_lt_is_Some_2 F k HltN) as [next Hnext].
  rewrite Hnext, <- (take_S_r F k next Hnext).
  apply IH; lia.
Qed.

(** C10. Let [N] be the number of non-excluded UTXOs. For no fuel does
    [findNextSolutionBatch] throw: it never reads past the end of the
    filtered list and never reaches "Invalid nullifier count". With fuel for
    [min 8 N + 1] evaluations of the loop condition it returns: [undefined]
    when no UTXO is left, and otherwise the first [m] sorted UTXOs with
    [1 <= m <= min 8 N], the loop having pushed [m] times. *)
Theorem findNextSolutionBatch_total treeBalance required excluded :
  (∀ fuel message,
      findNextSolutionBatch fuel treeBalance required excluded ≠ Thrown message)
  ∧ (∀ fuel,
        (Nat.min 8 (length (nonExcluded treeBalance excluded)) < fuel)%nat →
        (nonExcluded treeBalance excluded = []
         ∧ findNextSolutionBatch fuel treeBalance required excluded
           = Returned None)
        ∨ (∃ m,
              (1 <= m <= Nat.min 8 (length (nonExcluded treeBalance excluded)))%nat
              ∧ findNextSolutionBatch fuel treeBalance required excluded
                = Returned
                    (Some (take m (sortUTXOsBySize
                                     (nonExcluded treeBalance excluded)))))).
Proof.
  split.
  - intros fuel message. rewrite findNextSolutionBatch_unfold.
    destruct (length (nonExcluded treeBalance excluded) =? 0)%nat eqn:Hlen;
      [discriminate|].
    apply Nat.eqb_neq in Hlen.
    set (F := sortUTXOsBySize (nonExcluded treeBalance excluded)).
    assert (HF : (1 <= length F)%nat)
      by (unfold F; rewrite sortUTXOsBySize_length; lia).
    pose proof (accumulate_never_throws F required HF fuel 0%nat) as Hsafe.
    rewrite take_0 in Hsafe.
    destruct (accumulate fuel F required []) as [u|e|] eqn:Hrun;
      [|exfalso; apply (Hsafe e); [lia..|reflexivity]|discriminate].
    destruct (accumulate_prefix F required HF (S (Nat.min 8 (length F))) 0%nat)
      as (m & Hm & Hvalid & Hbig); try lia.
    rewrite take_0 in Hbig.
    destruct (isValidNullifierCount (length u)) eqn:Hu; [discriminate|].
    exfalso.
    assert (Hmono : ∀ fuel1 fuel2 spending result,
               accumulate fuel1 F required spending = Returned result →
               (fuel1 <= fuel2)%nat →
               accumulate fuel2 F required spending = Returned result).
    { clear. intros fuel1. induction fuel1 as [|fuel1 IH];
        intros fuel2 spending result Hret Hle; [discriminate|].
      destruct fuel2 as [|fuel2]; [lia|].
      rewrite accumulate_S in Hret |- *.
      destruct (shouldAddMoreUTXOsForSolutionBatch spending F required);
        [|done].
      destruct (F !! length spending); [|done].
      apply IH; [done|lia]. }
    destruct (Nat.le_ge_cases fuel (S (Nat.min 8 (length F)))) as [Hle|Hge].
    + rewrite (Hmono _ _ _ _ Hrun Hle) in Hbig. injection Hbig as ->.
      rewrite length_take_le in Hu by lia. congruence.
    + rewrite (Hmono _ _ _ _ Hbig Hge) in Hrun. injection Hrun as <-.
      rewrite length_take_le in Hu by lia. congruence.
  - intros fuel Hfuel. rewrite findNextSolutionBatch_unfold.
    destruct (nonExcluded treeBalance excluded) as [|u0 rest] eqn:HF.
    + left. by split.
    + right. rewrite <- HF in *.
      assert (HN : (1 <= length (nonExcluded treeBalance excluded))%nat)
        by (rewrite HF; simpl; lia).
      destruct (length (nonExcluded treeBalance excluded) =? 0)%nat eqn:Hlen;
        [apply Nat.eqb_eq in Hlen; lia|].
      destruct (accumulate_prefix
                  (sortUTXOsBySize (nonExcluded treeBalance excluded)) required)
        with (fuel := fuel) (k := 0%nat) as (m & Hm & Hvalid & Hrun);
        rewrite ?sortUTXOsBySize_length; try lia.
      rewrite sortUTXOsBySize_length in Hm.
      rewrite take_0 in Hrun. rewrite Hrun.
      rewrite length_take_le by (rewrite sortUTXOsBySize_length; lia).
      rewrite Hvalid. cbn [negb].
      exists m. split; [|done].
      apply isValidNullifierCount_true in Hvalid. lia.
Qed.

Lemma findNextSolutionBatch_total_witness :
  (nonExcluded treeBalance6 ["a"; "b"] = []
   ∧ findNextSolutionBatch 9 treeBalance6 180 ["a"; "b"] = Returned None)
  ∨ (∃ m, (1 <= m <= Nat.min 8 (length (nonExcluded treeBalance6 ["a"; "b"])))%nat
          ∧ findNextSolutionBatch 9 treeBalance6 180 ["a"; "b"]
            = Returned
                (Some (take m (sortUTXOsBySize (nonExcluded treeBalance6 ["a"; "b"]))))).
Proof.
  pose proof (proj2 (findNextSolutionBatch_total treeBalance6 180 ["a"; "b"])
                9%nat) as Hrun.
  apply Hrun. vm_compute. lia.
Defined.

(** C4. With [totalRequired = 1000], on lists with the listed lengths and
    spending sum, [shouldAddMoreUTXOsForSolutionBatch] returns false for
    (k=1, N=5, sum=1000), true for (3, 5, 1001), true for (3, 8, 999) and
    false for (8, 10, 999); for (3, 5, 999), where the next target 8 is out
    of reach, it returns [!isValidNullifierCount(3)], which is true. *)
Theorem shouldAdd_scenarios (spending all : list TXO) :
  (length spending = 1%nat → length all = 5%nat →
   calculateTotalSpend spending = 1000 →
   shouldAddMoreUTXOsForSolutionBatch spending all 1000 = false)
  ∧ (length spending = 3%nat → length all = 5%nat →
     calculateTotalSpend spending = 1001 →
     shouldAddMoreUTXOsForSolutionBatch spending all 1000 = true)
  ∧ (length spending = 3%nat → length all = 8%nat →
     calculateTotalSpend spending = 999 →
     shouldAddMoreUTXOsForSolutionBatch spending all 1000 = true)
  ∧ (length spending = 3%nat → length all = 5%nat →
     calculateTotalSpend spending = 999 →
     shouldAddMoreUTXOsForSolutionBatch spending all 1000 = true)
  ∧ (length spending = 8%nat → length all = 10%nat →
     calculateTotalSpend spending = 999 →
     shouldAddMoreUTXOsForSolutionBatch spending all 1000 = false).
Proof.
  rewrite shouldAdd_by_count.
  repeat split; intros -> -> ->; reflexivity.
Qed.

Lemma shouldAdd_scenarios_witness :
  shouldAddMoreUTXOsForSolutionBatch
    [mockTXO "a" 333; mockTXO "b" 333; mockTXO "c" 333]
    [mockTXO "a" 333; mockTXO "b" 333; mockTXO "c" 333;
     mockTXO "d" 0; mockTXO "e" 0] 1000 = true.
Proof.
  apply (proj1 (proj2 (proj2 (proj2
    (shouldAdd_scenarios
       [mockTXO "a" 333; mockTXO "b" 333; mockTXO "c" 333]
       [mockTXO "a" 333; mockTXO "b" 333; mockTXO "c" 333;
        mockTXO "d" 0; mockTXO "e" 0])))));
    reflexivity.
Defined.

(** The case listed as (k = 3, N = 5, sum = 999) -> false, at three UTXOs of
    333 among five: the next target 8 is above 5, the branch "Not reachable"
    returns [!isValidNullifierCount(3)], and the call answers true. *)
Lemma shouldAdd_scenarios_counterexample :
  length [mockTXO "a" 333; mockTXO "b" 333; mockTXO "c" 333] = 3%nat
  ∧ length [mockTXO "a" 333; mockTXO "b" 333; mockTXO "c" 333;
            mockTXO "d" 0; mockTXO "e" 0] = 5%nat
  ∧ calculateTotalSpend [mockTXO "a" 333; mockTXO "b" 333; mockTXO "c" 333]
    = 999
  ∧ shouldAddMoreUTXOsForSolutionBatch
      [mockTXO "a" 333; mockTXO "b" 333; mockTXO "c" 333]
      [mockTXO "a" 333; mockTXO "b" 333; mockTXO "c" 333;
       mockTXO "d" 0; mockTXO "e" 0] 1000 = true.
Proof. repeat split; vm_compute; reflexivity. Qed.

(** C5. On the six-UTXO balance (a..f = 30, 40, 50, 10, 20, 0) with a..e
    excluded, [findNextSolutionBatch] returns the batch made of the zero-value
    UTXO f alone, for every required amount; it does not return [undefined]. *)
Theorem findNextSolutionBatch_sole_zero (required : Z) :
  findNextSolutionBatch 9 treeBalance6 required ["a"; "b"; "c"; "d"; "e"]
  = Returned (Some [mockTXO "f" 0]).
Proof.
  rewrite findNextSolutionBatch_unfold.
  change (nonExcluded treeBalance6 ["a"; "b"; "c"; "d"; "e"])
    with [mockTXO "f" 0].
  change (sortUTXOsBySize [mockTXO "f" 0]) with [mockTXO "f" 0].
  set (f := mockTXO "f" 0).
  assert (Hfirst : shouldAddMoreUTXOsForSolutionBatch [] [f] required = true).
  { rewrite shouldAdd_by_count. unfold shouldAddByCount.
    change (calculateTotalSpend []) with 0.
    destruct (required <=? 0); reflexivity. }
  assert (Hsecond : shouldAddMoreUTXOsForSolutionBatch [f] [f] required = false).
  { rewrite shouldAdd_by_count. unfold shouldAddByCount.
    change (calculateTotalSpend [f]) with 0.
    destruct (required <=? 0); reflexivity. }
  rewrite (accumulate_S 8), Hfirst.
  cbn [length lookup list_lookup app].
  rewrite (accumulate_S 7), Hsecond.
  reflexivity.
Qed.

(** ** Further properties of the batch search *)

Lemma nextNullifierTarget_above (n t : nat) :
  nextNullifierTarget n = Some t → (n < t)%nat.
Proof.
  unfold nextNullifierTarget, VALID_NULLIFIER_COUNTS. cbn [find].
  destruct (n <? 1)%nat eqn:H1; [intros [= <-]; by apply Nat.ltb_lt|].
  destruct (n <? 2)%nat eqn:H2; [intros [= <-]; by apply Nat.ltb_lt|].
  destruct (n <? 8)%nat eqn:H8; [intros [= <-]; by apply Nat.ltb_lt|].
  discriminate.
Qed.

(** [nextNullifierTarget] gives the least valid count above its argument,
    and nothing exactly when no valid count is above it. *)
Theorem nextNullifierTarget_least (n : nat) :
  match nextNullifierTarget n with
  | Some t =>
      (n < t)%nat ∧ isValidNullifierCount t = true
      ∧ ∀ v, isValidNullifierCount v = true → (n < v)%nat → (t <= v)%nat
  | None => ∀ v, isValidNullifierCount v = true → (v <= n)%nat
  end.
Proof.
  unfold nextNullifierTarget, VALID_NULLIFIER_COUNTS. cbn [find].
  destruct (n <? 1)%nat eqn:H1; [|destruct (n <? 2)%nat eqn:H2;
    [|destruct (n <? 8)%nat eqn:H8]];
    repeat match goal with
           | H : (_ <? _)%nat = true |- _ => apply Nat.ltb_lt in H
           | H : (_ <? _)%nat = false |- _ => apply Nat.ltb_ge in H
           end.
  - split; [lia|]. split; [reflexivity|].
    intros v Hv _. apply isValidNullifierCount_true in Hv. lia.
  - split; [lia|]. split; [reflexivity|].
    intros v Hv Hlt. apply isValidNullifierCount_true in Hv. lia.
  - split; [lia|]. split; [reflexivity|].
    intros v Hv Hlt. apply isValidNullifierCount_true in Hv. lia.
  - intros v Hv. apply isValidNullifierCount_true in Hv. lia.
Qed.

(** The order [sortUTXOsBySize] establishes. *)
Definition notSmaller (x y : TXO) : Prop := value (note y) <= value (note x).

Lemma insertBySize_perm x l : insertBySize x l ≡ₚ x :: l.
Proof.
  induction l as [|y ys IH]; cbn [insertBySize]; [done|].
  destruct (value (note y) <=? value (note x)); [done|].
  rewrite IH. apply Permutation_swap.
Qed.

Lemma sortUTXOsBySize_perm l : sortUTXOsBySize l ≡ₚ l.
Proof.
  induction l as [|x xs IH]; cbn [sortUTXOsBySize]; [done|].
  by rewrite insertBySize_perm, IH.
Qed.

Lemma insertBySize_sorted x l :
  StronglySorted notSmaller l → StronglySorted notSmaller (insertBySize x l).
Proof.
  induction l as [|y ys IH]; intros Hs; cbn [insertBySize].
  - repeat constructor.
  - apply StronglySorted_cons in Hs as [Hall Hs].
    destruct (value (note y) <=? value (note x)) eqn:Hle.
    + apply Z.leb_le in Hle. apply StronglySorted_cons. split.
      * constructor; [exact Hle|].
        eapply Forall_impl; [exact Hall|]. unfold notSmaller. intros z ?. lia.
      * apply StronglySorted_cons. by split.
    + apply Z.leb_gt in Hle. apply StronglySorted_cons. split.
      * rewrite insertBySize_perm. constructor; [|done].
        unfold notSmaller. lia.
      * by apply IH.
Qed.

Lemma sortUTXOsBySize_sorted l : StronglySorted notSmaller (sortUTXOsBySize l).
Proof.
  induction l as [|x xs IH]; cbn [sortUTXOsBySize]; [constructor|].
  by apply insertBySize_sorted.
Qed.

(** What a returned loop looks like: it stopped on a prefix of the list, on
    which the condition is false, after the condition held on every shorter
    prefix it went through. *)
Lemma accumulate_returned (F : list TXO) required :
  ∀ fuel k result,
    (k <= length F)%nat →
    accumulate fuel F required (take k F) = Returned result →
    ∃ m, (k <= m <= length F)%nat
         ∧ result = take m F
         ∧ shouldAddMoreUTXOsForSolutionBatch (take m F) F required = false
         ∧ ∀ j, (k <= j < m)%nat →
             shouldAddMoreUTXOsForSolutionBatch (take j F) F required = true.
Proof.
  intros fuel. induction fuel as [|fuel IH]; intros k result Hk Hrun;
    [discriminate|].
  rewrite accumulate_S in Hrun.
  destruct (shouldAddMoreUTXOsForSolutionBatch (take k F) F required) eqn:Hgo.
  - rewrite length_take_le in Hrun by lia.
    destruct (F !! k) as [next|] eqn:Hnext; [|discriminate].
    apply lookup_lt_Some in Hnext as Hlt.
    rewrite <- (take_S_r F k next Hnext) in Hrun.
    apply IH in Hrun as (m & Hm & -> & Hstop & Hbefore); [|lia].
    exists m. split; [lia|]. split; [done|]. split; [done|].
    intros j Hj. destruct (decide (j = k)) as [->|]; [done|].
    apply Hbefore. lia.
  - injection Hrun as <-. exists k. split; [lia|]. split; [done|].
    split; [done|]. intros j Hj. lia.
Qed.

(** A returned batch together with its stop condition. *)
Lemma findNextSolutionBatch_returned fuel treeBalance required excluded batch :
  findNextSolutionBatch fuel treeBalance required excluded
    = Returned (Some batch) →
  let sorted := sortUTXOsBySize (nonExcluded treeBalance excluded) in
  ∃ m, (m <= length sorted)%nat
       ∧ batch = take m sorted
       ∧ isValidNullifierCount m = true
       ∧ shouldAddMoreUTXOsForSolutionBatch (take m sorted) sorted required = false
       ∧ ∀ j, (j < m)%nat →
           shouldAddMoreUTXOsForSolutionBatch (take j sorted) sorted required = true.
Proof.
  rewrite findNextSolutionBatch_unfold. intros Hrun sorted.
  destruct (length (nonExcluded treeBalance excluded) =? 0)%nat; [discriminate|].
  fold sorted in Hrun.
  destruct (accumulate fuel sorted required []) as [u| |] eqn:Hacc;
    try discriminate.
  destruct (isValidNullifierCount (length u)) eqn:Hvalid; [|discriminate].
  injection Hrun as <-.
  rewrite <- (take_0 sorted) in Hacc.
  apply accumulate_returned in Hacc as (m & Hm & -> & Hstop & Hbefore); [|lia].
  rewrite length_take_le in Hvalid by lia.
  exists m. split; [lia|]. split; [done|]. split; [done|]. split; [done|].
  intros j Hj. apply Hbefore. lia.
Qed.

(** A returned batch and the UTXOs it leaves out make up the non-excluded
    UTXOs of the tree balance: every UTXO of the batch is one of the
    balance's, none has an excluded txid, and none left out has a larger
    value than one taken. *)
Theorem findNextSolutionBatch_takes_largest
    fuel treeBalance required excluded batch :
  findNextSolutionBatch fuel treeBalance required excluded
    = Returned (Some batch) →
  ∃ rest,
    batch ++ rest ≡ₚ nonExcluded treeBalance excluded
    ∧ (∀ x, x ∈ batch →
         x ∈ utxos treeBalance ∧ includes excluded (txid x) = false)
    ∧ (∀ x y, x ∈ batch → y ∈ rest → value (note y) <= value (note x)).
Proof.
  intros Hrun.
  apply findNextSolutionBatch_returned in Hrun as (m & Hm & -> & _).
  set (sorted := sortUTXOsBySize (nonExcluded treeBalance excluded)).
  assert (Hperm : take m sorted ++ drop m sorted
                  ≡ₚ nonExcluded treeBalance excluded)
    by (rewrite take_drop; apply sortUTXOsBySize_perm).
  exists (drop m sorted). split; [exact Hperm|]. split.
  - intros x Hx.
    assert (Hin : x ∈ nonExcluded treeBalance excluded)
      by (rewrite <- Hperm; apply elem_of_app; by left).
    unfold nonExcluded in Hin. apply list_elem_of_filter in Hin as [Hnot Hin].
    split; [done|]. by apply negb_prop_elim, Is_true_false in Hnot.
  - intros x y Hx Hy.
    pose proof (sortUTXOsBySize_sorted (nonExcluded treeBalance excluded)) as Hs.
    fold sorted in Hs. rewrite <- (take_drop m sorted) in Hs.
    exact (StronglySorted_app_1_elem_of _ _ _ _ _ Hs Hx Hy).
Qed.

Lemma findNextSolutionBatch_takes_largest_witness :
  ∃ rest,
    [mockTXO "c" 50; mockTXO "b" 40] ++ rest ≡ₚ nonExcluded treeBalance6 []
    ∧ (∀ x, x ∈ [mockTXO "c" 50; mockTXO "b" 40] →
         x ∈ utxos treeBalance6 ∧ includes [] (txid x) = false)
    ∧ (∀ x y, x ∈ [mockTXO "c" 50; mockTXO "b" 40] → y ∈ rest →
         value (note y) <= value (note x)).
Proof.
  apply (findNextSolutionBatch_takes_largest 9 treeBalance6 180 []).
  reflexivity.
Defined.

(** A batch of two is returned only when the largest UTXO alone is below the
    required amount, a batch of eight only when the two largest together are;
    and a batch below the required amount is returned only when the next
    valid count is not available among the non-excluded UTXOs. *)
Theorem findNextSolutionBatch_no_smaller_cover
    fuel treeBalance required excluded batch :
  findNextSolutionBatch fuel treeBalance required excluded
    = Returned (Some batch) →
  ((2 <= length batch)%nat → calculateTotalSpend (take 1 batch) < required)
  ∧ (length batch = 8%nat → calculateTotalSpend (take 2 batch) < required)
  ∧ (calculateTotalSpend batch < required →
     match nextNullifierTarget (length batch) with
     | Some t => (length (nonExcluded treeBalance excluded) < t)%nat
     | None => True
     end).
Proof.
  intros Hrun.
  apply findNextSolutionBatch_returned in Hrun
    as (m & Hm & -> & Hvalid & Hstop & Hbefore).
  set (sorted := sortUTXOsBySize (nonExcluded treeBalance excluded)) in *.
  rewrite length_take_le by lia.
  assert (Hbelow : ∀ j, (j = 1 ∨ j = 2)%nat → (j < m)%nat →
            calculateTotalSpend (take j (take m sorted)) < required).
  { intros j Hj Hlt. rewrite take_take, Nat.min_l by lia.
    specialize (Hbefore j Hlt). rewrite shouldAdd_by_count in Hbefore.
    rewrite length_take_le in Hbefore by lia.
    unfold shouldAddByCount in Hbefore.
    destruct (required <=? calculateTotalSpend (take j sorted)) eqn:Hle.
    - destruct Hj as [-> | ->]; discriminate.
    - by apply Z.leb_gt in Hle. }
  split; [intros; apply Hbelow; [by left|lia]|].
  split; [intros; apply Hbelow; [by right|lia]|].
  intros Hshort. rewrite shouldAdd_by_count in Hstop.
  rewrite length_take_le in Hstop by lia. unfold shouldAddByCount in Hstop.
  apply Z.leb_gt in Hshort. rewrite Hshort in Hstop.
  destruct (nextNullifierTarget m) as [[|t]|] eqn:Htarget;
    [apply nextNullifierTarget_above in Htarget; lia| |done].
  unfold sorted in Hstop. rewrite sortUTXOsBySize_length in Hstop.
  destruct (length (nonExcluded treeBalance excluded) <? S t)%nat eqn:Hfit;
    [by apply Nat.ltb_lt in Hfit|discriminate].
Qed.

Lemma findNextSolutionBatch_no_smaller_cover_witness :
  ((2 <= length [mockTXO "c" 50; mockTXO "b" 40])%nat →
   calculateTotalSpend (take 1 [mockTXO "c" 50; mockTXO "b" 40]) < 120)
  ∧ (length [mockTXO "c" 50; mockTXO "b" 40] = 8%nat →
     calculateTotalSpend (take 2 [mockTXO "c" 50; mockTXO "b" 40]) < 120)
  ∧ (calculateTotalSpend [mockTXO "c" 50; mockTXO "b" 40] < 120 →
     match nextNullifierTarget (length [mockTXO "c" 50; mockTXO "b" 40]) with
     | Some t => (length (nonExcluded treeBalance6 []) < t)%nat
     | None => True
     end).
Proof.
  apply (findNextSolutionBatch_no_smaller_cover 9 treeBalance6 120 []).
  reflexivity.
Defined.

(** ** [createSpendingSolutionGroupsForOutput] *)

(** [SpendingSolutionGroup]; its [utxos] field is [spendingUtxos] here. *)
Record SpendingSolutionGroup : Type := mkSpendingSolutionGroup {
  spendingTree : nat;
  spendingUtxos : list TXO;
  outputs : list Note;
  withdrawValue : Z
}.

(** What the call works on: [amountLeft], the caller's [excludedUTXOIDs] and
    [remainingOutputs] arrays, which it mutates, and the groups pushed so
    far. *)
Record planning : Type := mkPlanning {
  amountLeft : Z;
  excludedUTXOIDs : list string;
  remainingOutputs : list Note;
  spendingSolutionGroups : list SpendingSolutionGroup
}.

Definition consolidateBalanceError : string :=
  "Please consolidate balances before multi-sending. Send tokens to one destination address at a time to resolve.".

(** Modelled from the spec: [minBigInt] of [utils/bigint], the smaller of two
    bigints. *)
Definition minBigInt (a b : Z) : Z := Z.min a b.

Section Groups.

(** [Note.newNoteWithValue] is not among the sources: a parameter. *)
Variable newNoteWithValue : Note → Z → Note.

(** One turn of the [while] body after a batch was found. *)
Definition useBatch (output : Note) (treeNumber : nat) (batch : list TXO)
    (st : planning) : planning :=
  let totalSpend := calculateTotalSpend batch in
  let left := amountLeft st - totalSpend in
  let solutionValue := minBigInt totalSpend (value output) in
  let solutionOutput := newNoteWithValue output solutionValue in
  let spliced := drop 1 (remainingOutputs st) in
  {| amountLeft := left;
     excludedUTXOIDs := excludedUTXOIDs st ++ map txid batch;
     remainingOutputs :=
       if 0 <? left then newNoteWithValue output left :: spliced else spliced;
     spendingSolutionGroups :=
       spendingSolutionGroups st
       ++ [ {| spendingTree := treeNumber; spendingUtxos := batch;
               outputs := [solutionOutput]; withdrawValue := 0 |} ] |}.

(** The [forEach] callback for one tree: [while (amountLeft > 0)], left by
    [break] when the tree has no batch and by [return] when the output is
    covered. One unit of [fuel] pays for one evaluation of the loop
    condition; [batchFuel] is the fuel of each batch search. *)
Fixpoint forTree (fuel batchFuel : nat) (output : Note)
    (treeBalance : TreeBalance) (treeNumber : nat) (st : planning)
    : outcome planning :=
  match fuel with
  | O => OutOfFuel
  | S fuel' =>
      if 0 <? amountLeft st then
        match findNextSolutionBatch batchFuel treeBalance (amountLeft st)
                (excludedUTXOIDs st) with
        | Returned None => Returned st
        | Returned (Some batch) =>
            let st' := useBatch output treeNumber batch st in
            if 0 <? amountLeft st'
            then forTree fuel' batchFuel output treeBalance treeNumber st'
            else Returned st'
        | Thrown e => Thrown e
        | OutOfFuel => OutOfFuel
        end
      else Returned st
  end.

(** [treeSortedBalances.forEach((treeBalance, tree) => ...)]. *)
Fixpoint forEachTree (fuel batchFuel : nat) (output : Note)
    (treeSortedBalances : list TreeBalance) (treeNumber : nat) (st : planning)
    : outcome planning :=
  match treeSortedBalances with
  | [] => Returned st
  | treeBalance :: rest =>
      match forTree fuel batchFuel output treeBalance treeNumber st with
      | Returned st' => forEachTree fuel batchFuel output rest (S treeNumber) st'
      | Thrown e => Thrown e
      | OutOfFuel => OutOfFuel
      end
  end.

(** [createSpendingSolutionGroupsForOutput]; the returned state carries the
    groups and the arrays as the call leaves them. *)
Definition createSpendingSolutionGroupsForOutput (fuel batchFuel : nat)
    (treeSortedBalances : list TreeBalance) (output : Note)
    (remaining : list Note) (excluded : list string) : outcome planning :=
  match forEachTree fuel batchFuel output treeSortedBalances 0
          {| amountLeft := value output; excludedUTXOIDs := excluded;
             remainingOutputs := remaining; spendingSolutionGroups := [] |} with
  | Returned st =>
      if 0 <? amountLeft st then Thrown consolidateBalanceError else Returned st
  | Thrown e => Thrown e
  | OutOfFuel => OutOfFuel
  end.

(** The total the groups spend, and the txids they reserve. *)
Definition groupsSpend (groups : list SpendingSolutionGroup) : Z :=
  foldr (fun g acc => calculateTotalSpend (spendingUtxos g) + acc) 0 groups.

Definition groupsTxids (groups : list SpendingSolutionGroup) : list string :=
  flat_map (fun g => map txid (spendingUtxos g)) groups.

(** No group holds a UTXO whose txid was excluded when the call began or was
    taken by an earlier group. *)
Fixpoint freshGroups (excluded : list string)
    (groups : list SpendingSolutionGroup) : Prop :=
  match groups with
  | [] => True
  | g :: rest =>
      (∀ u, u ∈ spendingUtxos g → txid u ∉ excluded)
      ∧ freshGroups (excluded ++ map txid (spendingUtxos g)) rest
  end.

Lemma groupsSpend_snoc groups g :
  groupsSpend (groups ++ [g])
  = groupsSpend groups + calculateTotalSpend (spendingUtxos g).
Proof.
  induction groups as [|g0 gs IH]; cbn [groupsSpend foldr app] in *; [lia|].
  fold (groupsSpend (gs ++ [g])). fold (groupsSpend gs). rewrite IH. lia.
Qed.

Lemma groupsTxids_snoc groups g :
  groupsTxids (groups ++ [g]) = groupsTxids groups ++ map txid (spendingUtxos g).
Proof.
  unfold groupsTxids. rewrite flat_map_app. cbn [flat_map].
  by rewrite app_nil_r.
Qed.

Lemma freshGroups_snoc groups : ∀ excluded g,
  freshGroups excluded groups →
  (∀ u, u ∈ spendingUtxos g → txid u ∉ excluded ++ groupsTxids groups) →
  freshGroups excluded (groups ++ [g]).
Proof.
  induction groups as [|g0 gs IH]; intros excluded g Hfresh Hg.
  - cbn [app freshGroups groupsTxids flat_map] in *.
    rewrite app_nil_r in Hg. by split.
  - destruct Hfresh as [H0 Hrest]. cbn [app freshGroups]. split; [done|].
    apply IH; [done|]. intros u Hu.
    specialize (Hg u Hu). cbn [groupsTxids flat_map] in Hg.
    fold (groupsTxids gs) in Hg. by rewrite <- app_assoc.
Qed.

Lemma includes_false ids id : includes ids id = false ↔ id ∉ ids.
Proof.
  unfold includes. induction ids as [|x xs IH]; cbn [existsb].
  - split; [intros _; apply not_elem_of_nil|done].
  - rewrite orb_false_iff, IH, not_elem_of_cons.
    destruct (String.eqb_spec id x); split; intros [? ?]; split;
      congruence.
Qed.

(** What the callers below need of a returned batch. *)
Lemma findNextSolutionBatch_batch fuel treeBalance required excluded batch :
  findNextSolutionBatch fuel treeBalance required excluded
    = Returned (Some batch) →
  isValidNullifierCount (length batch) = true
  ∧ ∀ x, x ∈ batch →
      x ∈ nonExcluded treeBalance excluded ∧ txid x ∉ excluded.
Proof.
  intros Hrun.
  apply findNextSolutionBatch_returned in Hrun as (m & Hm & -> & Hvalid & _).
  rewrite length_take_le by lia. split; [done|]. intros x Hx.
  assert (Hin : x ∈ nonExcluded treeBalance excluded).
  { rewrite <- (sortUTXOsBySize_perm (nonExcluded treeBalance excluded)).
    rewrite <- (take_drop m (sortUTXOsBySize _)). apply elem_of_app. by left. }
  split; [done|]. unfold nonExcluded in Hin.
  apply list_elem_of_filter in Hin as [Hnot _].
  apply includes_false. by apply negb_prop_elim, Is_true_false in Hnot.
Qed.

(** The search throws for no fuel, and with fuel above 8 it returns. *)
Lemma findNextSolutionBatch_outcome fuel treeBalance required excluded :
  (∀ message,
      findNextSolutionBatch fuel treeBalance required excluded ≠ Thrown message)
  ∧ ((8 < fuel)%nat →
     findNextSolutionBatch fuel treeBalance required excluded ≠ OutOfFuel).
Proof.
  rewrite findNextSolutionBatch_unfold.
  destruct (length (nonExcluded treeBalance excluded) =? 0)%nat eqn:Hlen;
    [by split|].
  apply Nat.eqb_neq in Hlen.
  set (F := sortUTXOsBySize (nonExcluded treeBalance excluded)).
  assert (HF : (1 <= length F)%nat)
    by (unfold F; rewrite sortUTXOsBySize_length; lia).
  split.
  - intros message.
    destruct (accumulate fuel F required []) as [u|e|] eqn:Hacc;
      [| |discriminate].
    + rewrite <- (take_0 F) in Hacc.
      apply accumulate_returned in Hacc as (m & Hm & -> & Hstop & _); [|lia].
      rewrite shouldAdd_by_count in Hstop.
      apply shouldAddByCount_false_valid in Hstop.
      rewrite length_take_le in Hstop by lia.
      rewrite length_take_le by lia. by rewrite Hstop.
    + exfalso. rewrite <- (take_0 F) in Hacc.
      by apply (accumulate_never_throws F required HF fuel 0%nat e); try lia.
  - intros Hfuel.
    destruct (accumulate_prefix F required HF fuel 0%nat)
      as (m & Hm & Hvalid & Hrun); try lia.
    rewrite take_0 in Hrun. rewrite Hrun.
    rewrite length_take_le by lia. by rewrite Hvalid.
Qed.

(** What holds before the loop and is kept by every use of a batch holds
    when the loops return. *)
Lemma forTree_invariant (Inv : planning → Prop) batchFuel output
    treeBalance treeNumber :
  (∀ st batch,
      Inv st → 0 < amountLeft st →
      findNextSolutionBatch batchFuel treeBalance (amountLeft st)
        (excludedUTXOIDs st) = Returned (Some batch) →
      Inv (useBatch output treeNumber batch st)) →
  ∀ fuel st st',
    Inv st →
    forTree fuel batchFuel output treeBalance treeNumber st = Returned st' →
    Inv st'.
Proof.
  intros Hstep fuel. induction fuel as [|fuel IH]; intros st st' Hinv Hrun;
    [discriminate|].
  cbn [forTree] in Hrun.
  destruct (0 <? amountLeft st) eqn:Hleft; [|by injection Hrun as <-].
  apply Z.ltb_lt in Hleft.
  destruct (findNextSolutionBatch batchFuel treeBalance (amountLeft st)
              (excludedUTXOIDs st)) as [[batch|]| |] eqn:Hbatch;
    try discriminate; [|by injection Hrun as <-].
  specialize (Hstep st batch Hinv Hleft Hbatch).
  destruct (0 <? amountLeft (useBatch output treeNumber batch st));
    [exact (IH _ _ Hstep Hrun)|by injection Hrun as <-].
Qed.

Lemma forEachTree_invariant (Inv : planning → Prop) fuel batchFuel output
    treeSortedBalances :
  ∀ first st st',
    (∀ i treeBalance s batch,
        treeSortedBalances !! i = Some treeBalance →
        Inv s → 0 < amountLeft s →
        findNextSolutionBatch batchFuel treeBalance (amountLeft s)
          (excludedUTXOIDs s) = Returned (Some batch) →
        Inv (useBatch output (first + i) batch s)) →
    Inv st →
    forEachTree fuel batchFuel output treeSortedBalances first st
      = Returned st' →
    Inv st'.
Proof.
  induction treeSortedBalances as [|treeBalance rest IH];
    intros first st st' Hstep Hinv Hrun.
  - by injection Hrun as <-.
  - cbn [forEachTree] in Hrun.
    destruct (forTree fuel batchFuel output treeBalance first st)
      as [st1| |] eqn:Htree; try discriminate.
    apply (IH (S first) st1 st'); [|..|done].
    + intros i tb s batch Hi.
      replace (S first + i)%nat with (first + S i)%nat by lia.
      by apply (Hstep (S i)).
    + eapply forTree_invariant; [|exact Hinv|exact Htree].
      intros s batch. rewrite <- (Nat.add_0_r first) at 1.
      by apply (Hstep 0%nat).
Qed.

(** If the call returns, every group has 1, 2 or 8 UTXOs of the tree it
    names, the groups together spend at least the output's value, and
    [amountLeft] is the value less that spend. *)
Theorem createSpendingSolutionGroups_cover fuel batchFuel treeSortedBalances
    output remaining excluded st :
  createSpendingSolutionGroupsForOutput fuel batchFuel treeSortedBalances
    output remaining excluded = Returned st →
  value output <= groupsSpend (spendingSolutionGroups st)
  ∧ amountLeft st = value output - groupsSpend (spendingSolutionGroups st)
  ∧ Forall (fun g =>
              isValidNullifierCount (length (spendingUtxos g)) = true
              ∧ ∃ treeBalance,
                  treeSortedBalances !! spendingTree g = Some treeBalance
                  ∧ ∀ u, u ∈ spendingUtxos g → u ∈ utxos treeBalance)
           (spendingSolutionGroups st).
Proof.
  unfold createSpendingSolutionGroupsForOutput. intros Hrun.
  destruct (forEachTree _ _ _ _ _ _) as [st1| |] eqn:Hloop; try discriminate.
  destruct (0 <? amountLeft st1) eqn:Hleft; [discriminate|].
  injection Hrun as <-. apply Z.ltb_ge in Hleft.
  set (Inv := fun s : planning =>
    amountLeft s = value output - groupsSpend (spendingSolutionGroups s)
    ∧ Forall (fun g =>
                isValidNullifierCount (length (spendingUtxos g)) = true
                ∧ ∃ treeBalance,
                    treeSortedBalances !! spendingTree g = Some treeBalance
                    ∧ ∀ u, u ∈ spendingUtxos g → u ∈ utxos treeBalance)
             (spendingSolutionGroups s)).
  assert (Hinv : Inv st1).
  { eapply (forEachTree_invariant Inv); [| |exact Hloop].
    - intros i tb s batch Hi [Hamount Hgroups] _ Hbatch.
      apply findNextSolutionBatch_batch in Hbatch as [Hvalid Hin].
      split; cbn [useBatch amountLeft spendingSolutionGroups].
      + rewrite groupsSpend_snoc. cbn [spendingUtxos]. lia.
      + apply Forall_app. split; [done|]. constructor; [|constructor].
        cbn [spendingUtxos spendingTree Nat.add]. split; [done|].
        exists tb. split; [done|]. intros u Hu.
        destruct (Hin u Hu) as [Hne _]. unfold nonExcluded in Hne.
        by apply list_elem_of_filter in Hne as [_ ?].
    - split; cbn [amountLeft spendingSolutionGroups groupsSpend foldr];
        [lia|constructor]. }
  destruct Hinv as [Hamount Hgroups]. split; [lia|]. by split.
Qed.

(** If the call returns, the excluded list it leaves is the one it was given
    followed by the txids of the groups' UTXOs in order, and no group holds a
    UTXO whose txid was excluded before or is held by an earlier group. *)
Theorem createSpendingSolutionGroups_reserves fuel batchFuel
    treeSortedBalances output remaining excluded st :
  createSpendingSolutionGroupsForOutput fuel batchFuel treeSortedBalances
    output remaining excluded = Returned st →
  excludedUTXOIDs st = excluded ++ groupsTxids (spendingSolutionGroups st)
  ∧ freshGroups excluded (spendingSolutionGroups st).
Proof.
  unfold createSpendingSolutionGroupsForOutput. intros Hrun.
  destruct (forEachTree _ _ _ _ _ _) as [st1| |] eqn:Hloop; try discriminate.
  destruct (0 <? amountLeft st1); [discriminate|]. injection Hrun as <-.
  eapply (forEachTree_invariant
            (fun s => excludedUTXOIDs s
                      = excluded ++ groupsTxids (spendingSolutionGroups s)
                      ∧ freshGroups excluded (spendingSolutionGroups s)));
    [| |exact Hloop].
  - intros i tb s batch _ [Hexcl Hfresh] _ Hbatch.
    apply findNextSolutionBatch_batch in Hbatch as [_ Hin].
    cbn [useBatch excludedUTXOIDs spendingSolutionGroups]. split.
    + by rewrite groupsTxids_snoc, Hexcl, app_assoc.
    + apply freshGroups_snoc; [done|]. cbn [spendingUtxos].
      intros u Hu. rewrite <- Hexcl. by apply Hin.
  - cbn [excludedUTXOIDs spendingSolutionGroups groupsTxids flat_map freshGroups].
    by rewrite app_nil_r.
Qed.

(** If the call returns for an output of positive value, it made at least
    one group and [remainingOutputs] has lost its first entry and nothing
    else; for an output of value zero or less it makes no group and leaves
    both arrays as they were. *)
Theorem createSpendingSolutionGroups_remaining fuel batchFuel
    treeSortedBalances output remaining excluded st :
  createSpendingSolutionGroupsForOutput fuel batchFuel treeSortedBalances
    output remaining excluded = Returned st →
  if 0 <? value output
  then spendingSolutionGroups st ≠ [] ∧ remainingOutputs st = drop 1 remaining
  else spendingSolutionGroups st = [] ∧ remainingOutputs st = remaining
       ∧ excludedUTXOIDs st = excluded.
Proof.
  unfold createSpendingSolutionGroupsForOutput. intros Hrun.
  destruct (forEachTree _ _ _ _ _ _) as [st1| |] eqn:Hloop; try discriminate.
  destruct (0 <? amountLeft st1) eqn:Hleft; [discriminate|].
  injection Hrun as <-. apply Z.ltb_ge in Hleft.
  destruct (0 <? value output) eqn:Hv.
  - apply Z.ltb_lt in Hv.
    set (Inv := fun s : planning =>
      (spendingSolutionGroups s = [] ∧ amountLeft s = value output)
      ∨ (spendingSolutionGroups s ≠ []
         ∧ remainingOutputs s
           = (if 0 <? amountLeft s
              then [newNoteWithValue output (amountLeft s)] else [])
             ++ drop 1 remaining)
      ∨ (spendingSolutionGroups s = [] ∧ remainingOutputs s = remaining)).
    assert (Hinv : Inv st1
                   ∧ (spendingSolutionGroups st1 = [] →
                      remainingOutputs st1 = remaining
                      ∧ amountLeft st1 = value output)).
    { eapply (forEachTree_invariant
                (fun s => Inv s
                          ∧ (spendingSolutionGroups s = [] →
                             remainingOutputs s = remaining
                             ∧ amountLeft s = value output)));
        [| |exact Hloop].
      - intros i tb s batch _ [Hs Hfirst] Hpos _.
        assert (Hne : spendingSolutionGroups (useBatch output (0 + i) batch s)
                      ≠ [])
          by (cbn [useBatch spendingSolutionGroups];
              by destruct (spendingSolutionGroups s)).
        split; [|done]. right. left. split; [done|].
        cbn [useBatch remainingOutputs amountLeft].
        assert (Hdrop : drop 1 (remainingOutputs s) = drop 1 remaining).
        { destruct Hs as [[Hnil _]|[[_ ->]|[_ ->]]]; [|..|done].
          - by destruct (Hfirst Hnil) as [-> _].
          - apply Z.ltb_lt in Hpos. by rewrite Hpos. }
        rewrite Hdrop.
        by destruct (0 <? amountLeft s - calculateTotalSpend batch).
      - split; [by left|done]. }
    destruct Hinv as [Hinv Hfirst].
    assert (Hne : spendingSolutionGroups st1 ≠ []).
    { intros Hnil. destruct (Hfirst Hnil) as [_ Ha]. lia. }
    split; [done|].
    destruct Hinv as [[Hnil _]|[[_ Hr]|[Hnil _]]]; [done| |done].
    apply Z.ltb_ge in Hleft. by rewrite Hleft in Hr.
  - apply Z.ltb_ge in Hv.
    assert (Hsame : spendingSolutionGroups st1 = []
                    ∧ remainingOutputs st1 = remaining
                    ∧ excludedUTXOIDs st1 = excluded
                    ∧ amountLeft st1 = value output).
    { eapply (forEachTree_invariant
                (fun s => spendingSolutionGroups s = []
                          ∧ remainingOutputs s = remaining
                          ∧ excludedUTXOIDs s = excluded
                          ∧ amountLeft s = value output));
        [| |exact Hloop].
      - intros i tb s batch _ (_ & _ & _ & Ha) Hpos _. lia.
      - done. }
    by destruct Hsame as (? & ? & ? & _).
Qed.

Lemma includes_app e1 e2 id :
  includes (e1 ++ e2) id = includes e1 id || includes e2 id.
Proof. unfold includes. apply existsb_app. Qed.

Lemma nonExcluded_app treeBalance e1 e2 :
  nonExcluded treeBalance (e1 ++ e2)
  = filter (fun u => negb (includes e2 (txid u))) (nonExcluded treeBalance e1).
Proof.
  unfold nonExcluded. rewrite list_filter_filter. apply list_filter_iff.
  intros u. rewrite includes_app, negb_orb.
  destruct (includes e1 (txid u)), (includes e2 (txid u)); cbn; tauto.
Qed.

(** Using a batch leaves fewer UTXOs to choose from. *)
Lemma nonExcluded_shrinks fuel treeBalance required excluded batch :
  findNextSolutionBatch fuel treeBalance required excluded
    = Returned (Some batch) →
  (length (nonExcluded treeBalance (excluded ++ map txid batch))
   < length (nonExcluded treeBalance excluded))%nat.
Proof.
  intros Hrun. apply findNextSolutionBatch_batch in Hrun as [Hvalid Hin].
  rewrite nonExcluded_app.
  destruct batch as [|x batch]; [discriminate|].
  destruct (Hin x) as [Hx _]; [left|].
  apply (length_filter_lt _ _ x Hx).
  cbn [map includes existsb]. rewrite String.eqb_refl. cbn. tauto.
Qed.

Lemma forTree_returns batchFuel output treeBalance treeNumber :
  (8 < batchFuel)%nat →
  ∀ fuel st,
    (length (nonExcluded treeBalance (excludedUTXOIDs st)) < fuel)%nat →
    ∃ st', forTree fuel batchFuel output treeBalance treeNumber st = Returned st'
           ∧ ∃ more, excludedUTXOIDs st' = excludedUTXOIDs st ++ more.
Proof.
  intros Hbatch fuel. induction fuel as [|fuel IH]; intros st Hfuel; [lia|].
  cbn [forTree].
  destruct (0 <? amountLeft st);
    [|exists st; split; [done|]; exists []; by rewrite app_nil_r].
  destruct (findNextSolutionBatch_outcome batchFuel treeBalance (amountLeft st)
              (excludedUTXOIDs st)) as [Hthrow Hfuelled].
  destruct (findNextSolutionBatch batchFuel treeBalance (amountLeft st)
              (excludedUTXOIDs st)) as [[batch|]|e|] eqn:Hrun.
  - pose proof (nonExcluded_shrinks _ _ _ _ _ Hrun) as Hless.
    destruct (0 <? amountLeft (useBatch output treeNumber batch st)).
    + destruct (IH (useBatch output treeNumber batch st)) as (st' & Hst' & more & Hmore);
        [cbn [useBatch excludedUTXOIDs]; lia|].
      exists st'. split; [done|]. exists (map txid batch ++ more).
      rewrite Hmore. cbn [useBatch excludedUTXOIDs]. by rewrite app_assoc.
    + eexists. split; [done|]. exists (map txid batch). done.
  - exists st. split; [done|]. exists []. by rewrite app_nil_r.
  - by destruct (Hthrow e).
  - by destruct (Hfuelled Hbatch).
Qed.

Lemma nonExcluded_length treeBalance excluded :
  (length (nonExcluded treeBalance excluded) <= length (utxos treeBalance))%nat.
Proof. apply length_filter. Qed.

Lemma forEachTree_returns fuel batchFuel output treeSortedBalances :
  (8 < batchFuel)%nat →
  Forall (fun treeBalance => (length (utxos treeBalance) < fuel)%nat)
         treeSortedBalances →
  ∀ first st,
    ∃ st', forEachTree fuel batchFuel output treeSortedBalances first st
           = Returned st'.
Proof.
  intros Hbatch Hall. induction Hall as [|treeBalance rest Hlen _ IH];
    intros first st; [by eexists|].
  cbn [forEachTree].
  destruct (forTree_returns batchFuel output treeBalance first Hbatch fuel st)
    as (st1 & -> & _).
  { pose proof (nonExcluded_length treeBalance (excludedUTXOIDs st)). lia. }
  apply IH.
Qed.

(** With fuel above the number of UTXOs of every tree, and above 8 for the
    batch searches, the call ends: it returns, or it throws the
    consolidation error; it throws nothing else. *)
Theorem createSpendingSolutionGroups_ends fuel batchFuel treeSortedBalances
    output remaining excluded :
  (8 < batchFuel)%nat →
  Forall (fun treeBalance => (length (utxos treeBalance) < fuel)%nat)
         treeSortedBalances →
  (∃ st, createSpendingSolutionGroupsForOutput fuel batchFuel
           treeSortedBalances output remaining excluded = Returned st)
  ∨ createSpendingSolutionGroupsForOutput fuel batchFuel
      treeSortedBalances output remaining excluded
    = Thrown consolidateBalanceError.
Proof.
  intros Hbatch Hall. unfold createSpendingSolutionGroupsForOutput.
  destruct (forEachTree_returns fuel batchFuel output treeSortedBalances
              Hbatch Hall 0%nat
              {| amountLeft := value output; excludedUTXOIDs := excluded;
                 remainingOutputs := remaining;
                 spendingSolutionGroups := [] |}) as [st ->].
  destruct (0 <? amountLeft st); [by right|left; by eexists].
Qed.

End Groups.

(** *** The two-tree scenario of the test-suite *)

Definition cloneWithValue (n : Note) (v : Z) : Note :=
  mkNote (viewingPublicKey n) (masterPublicKey n) (token n) (random n) v.

Definition treeBalanceAA : TreeBalance :=
  mkTreeBalance 20 [mockTXO "aa" 20; mockTXO "ab" 0; mockTXO "ac" 0].

Definition outputNote (v : Z) : Note := mkNote [] 1 "abc" "" v.

Definition demoGroups (v : Z) : outcome planning :=
  createSpendingSolutionGroupsForOutput cloneWithValue 10 9
    [treeBalanceAA; treeBalance9] (outputNote v)
    [outputNote v; outputNote 70; outputNote 60] [].

Definition demoPlanning : planning :=
  match demoGroups 80 with
  | Returned st => st
  | _ => mkPlanning 0 [] [] []
  end.

Example demoGroups_80 :
  demoGroups 80 = Returned demoPlanning
  ∧ map (fun g => (spendingTree g, map txid (spendingUtxos g),
                   map value (outputs g)))
        (spendingSolutionGroups demoPlanning)
    = [(0%nat, ["aa"; "ab"], [20]); (0%nat, ["ac"], [0]); (1%nat, ["i"], [80])]
  ∧ map value (remainingOutputs demoPlanning) = [70; 60]
  ∧ excludedUTXOIDs demoPlanning = ["aa"; "ab"; "ac"; "i"].
Proof. repeat split; reflexivity. Qed.

Example demoGroups_500 : demoGroups 500 = Thrown consolidateBalanceError.
Proof. reflexivity. Qed.

Lemma createSpendingSolutionGroups_cover_witness :
  value (outputNote 80) <= groupsSpend (spendingSolutionGroups demoPlanning)
  ∧ amountLeft demoPlanning
    = value (outputNote 80) - groupsSpend (spendingSolutionGroups demoPlanning)
  ∧ Forall (fun g =>
              isValidNullifierCount (length (spendingUtxos g)) = true
              ∧ ∃ treeBalance,
                  [treeBalanceAA; treeBalance9] !! spendingTree g
                  = Some treeBalance
                  ∧ ∀ u, u ∈ spendingUtxos g → u ∈ utxos treeBalance)
           (spendingSolutionGroups demoPlanning).
Proof.
  apply (createSpendingSolutionGroups_cover cloneWithValue 10 9
           [treeBalanceAA; treeBalance9] (outputNote 80)
           [outputNote 80; outputNote 70; outputNote 60] []).
  reflexivity.
Defined.

Lemma createSpendingSolutionGroups_reserves_witness :
  excludedUTXOIDs demoPlanning
  = [] ++ groupsTxids (spendingSolutionGroups demoPlanning)
  ∧ freshGroups [] (spendingSolutionGroups demoPlanning).
Proof.
  apply (createSpendingSolutionGroups_reserves cloneWithValue 10 9
           [treeBalanceAA; treeBalance9] (outputNote 80)
           [outputNote 80; outputNote 70; outputNote 60] []).
  reflexivity.
Defined.

Lemma createSpendingSolutionGroups_remaining_witness :
  spendingSolutionGroups demoPlanning ≠ []
  ∧ remainingOutputs demoPlanning
    = drop 1 [outputNote 80; outputNote 70; outputNote 60].
Proof.
  apply (createSpendingSolutionGroups_remaining cloneWithValue 10 9
           [treeBalanceAA; treeBalance9] (outputNote 80)
           [outputNote 80; outputNote 70; outputNote 60] []).
  reflexivity.
Defined.

Lemma createSpendingSolutionGroups_ends_witness :
  (∃ st, demoGroups 80 = Returned st)
  ∨ demoGroups 80 = Thrown consolidateBalanceError.
Proof.
  apply (createSpendingSolutionGroups_ends cloneWithValue 10 9
           [treeBalanceAA; treeBalance9] (outputNote 80)
           [outputNote 80; outputNote 70; outputNote 60] []).
  - lia.
  - repeat constructor.
Defined.

End Planner.

(** * The commitment Merkle tree *)

(** Sparse JavaScript arrays: an index holds a value or a hole; writing past
    the end extends the array with holes; [length] is the highest index plus
    one; reading a hole or past the end gives [undefined]. *)
Section Sparse.
Context {A : Type}.

Definition sparse : Type := list (option A).

Definition sget (a : sparse) (i : nat) : option A :=
  match a !! i with
  | Some (Some v) => Some v
  | _ => None
  end.

Definition sset (a : sparse) (i : nat) (v : A) : sparse :=
  if i <? length a then <[i := Some v]> a
  else a ++ replicate (i - length a) None ++ [Some v].

(** What [forEach] visits: the present entries, by ascending index. *)
Definition entries (a : sparse) : list (nat * A) :=
  omap (fun io : nat * option A => pair io.1 <$> io.2) (imap pair a).
End Sparse.

Arguments sparse A : clear implicits.

(** Calls that may throw form an error monad; the instances give them
    stdpp's [x ← m; k] notation. *)
#[global] Instance outcome_ret : MRet outcome := fun A a => Returned a.

#[global] Instance outcome_bind : MBind outcome := fun A B k m =>
  match m with
  | Returned a => k a
  | Thrown e => Thrown e
  | OutOfFuel => OutOfFuel
  end.

Definition TypeError {A} : outcome A := Thrown "TypeError".

(** ** Facts about sparse arrays and batches of puts *)

Section SparseFacts.
Context {A : Type}.
Implicit Types (a : sparse A) (v : A).

Lemma sget_nil i : sget (A:=A) [] i = None.
Proof. by destruct i. Qed.

Lemma sget_ge a i : length a <= i → sget a i = None.
Proof. intros Hle. unfold sget, sparse in *. by rewrite lookup_ge_None_2. Qed.

Lemma length_sset a i v : length (sset a i v) = length a `max` S i.
Proof.
  unfold sset, sparse in *. destruct (i <? length a) eqn:Hlt.
  - apply Nat.ltb_lt in Hlt. rewrite length_insert. lia.
  - apply Nat.ltb_ge in Hlt.
    rewrite !length_app, length_replicate. cbn [length]. lia.
Qed.

Lemma sget_sset a i j v :
  sget (sset a i v) j = if decide (i = j) then Some v else sget a j.
Proof.
  unfold sget, sset, sparse in *. destruct (i <? length a) eqn:Hlt.
  - apply Nat.ltb_lt in Hlt. destruct (decide (i = j)) as [<-|Hne].
    + by rewrite list_lookup_insert_eq.
    + by rewrite list_lookup_insert_ne.
  - apply Nat.ltb_ge in Hlt. destruct (decide (j < length a)) as [Hj|Hj].
    + rewrite lookup_app_l by done. rewrite decide_False by lia. done.
    + rewrite lookup_app_r by lia.
      rewrite (lookup_ge_None_2 a j) by lia.
      destruct (decide (i = j)) as [<-|Hne].
      * rewrite lookup_app_r by (rewrite length_replicate; lia).
        rewrite length_replicate, Nat.sub_diag. done.
      * destruct (decide (j - length a < i - length a)) as [Hin|Hout].
        -- rewrite lookup_app_l by (by rewrite length_replicate).
           by rewrite lookup_replicate_2.
        -- rewrite lookup_app_r by (rewrite length_replicate; lia).
           rewrite length_replicate.
           destruct (j - length a - (i - length a)) as [|d] eqn:Hd; [lia|].
           by destruct d.
Qed.

Lemma sget_sset_eq a i v : sget (sset a i v) i = Some v.
Proof. by rewrite sget_sset, decide_True. Qed.

Lemma sget_sset_ne a i j v : i ≠ j → sget (sset a i v) j = sget a j.
Proof. intros. by rewrite sget_sset, decide_False. Qed.

Lemma elem_of_entries a i v : (i, v) ∈ entries a ↔ sget a i = Some v.
Proof.
  unfold entries, sget, sparse in *. rewrite list_elem_of_omap. split.
  - intros ([j o] & Hin & Hsome).
    apply elem_of_lookup_imap in Hin as (j' & o' & [= -> ->] & Hlook).
    destruct o' as [v'|]; cbn in Hsome; [|discriminate].
    injection Hsome as -> ->. by rewrite Hlook.
  - intros Hget. destruct (a !! i) as [[v'|]|] eqn:Hlook; try discriminate.
    injection Hget as ->. exists (i, Some v). split; [|done].
    apply elem_of_lookup_imap. by exists i, (Some v).
Qed.
End SparseFacts.

Section Puts.
Context {K V : Type} `{Countable K}.
Implicit Types (ops : list (K * V)) (d : gmap K V).

(** The store after the puts of a batch, applied in order. *)
Definition applyPuts ops d : gmap K V :=
  fold_left (fun d op => <[op.1 := op.2]> d) ops d.

Lemma applyPuts_cons k0 v0 ops d :
  applyPuts ((k0, v0) :: ops) d = applyPuts ops (<[k0 := v0]> d).
Proof. reflexivity. Qed.

Lemma applyPuts_lookup_other ops : ∀ d k,
  (∀ v, (k, v) ∉ ops) → applyPuts ops d !! k = d !! k.
Proof.
  induction ops as [|[k0 v0] ops IH]; intros d k Hnot; [done|].
  rewrite applyPuts_cons.
  rewrite IH; [|intros v Hv; apply (Hnot v); by right].
  apply lookup_insert_ne. intros ->. apply (Hnot v0). left.
Qed.

Lemma applyPuts_lookup_unique ops : ∀ d k v,
  ((k, v) ∈ ops ∨ d !! k = Some v) →
  (∀ v', (k, v') ∈ ops → v' = v) →
  applyPuts ops d !! k = Some v.
Proof.
  induction ops as [|[k0 v0] ops IH]; intros d k v Hin Hfun.
  - destruct Hin as [Hin|Hin]; [by apply elem_of_nil in Hin|done].
  - rewrite applyPuts_cons.
    apply IH; [|intros v' Hv'; apply Hfun; by right].
    destruct Hin as [Hin|Hin].
    + apply elem_of_cons in Hin as [[= -> ->]|Hin]; [|by left].
      right. apply lookup_insert_eq.
    + right. destruct (decide (k0 = k)) as [->|Hne].
      * rewrite lookup_insert_eq. f_equal. apply Hfun. left.
      * by rewrite lookup_insert_ne.
Qed.
End Puts.

Section SparseDelete.
Context {A : Type}.
Implicit Types (a : sparse A) (v : A).

(** [delete a[i]]: the entry becomes a hole, the length stays. *)
Definition sdelete a (i : nat) : sparse A := <[i := None]> a.

Lemma sget_sdelete_eq a i : sget (sdelete a i) i = None.
Proof.
  unfold sget, sdelete, sparse in *.
  destruct (decide (i < length a)) as [Hlt|Hge].
  - by rewrite list_lookup_insert_eq.
  - by rewrite lookup_ge_None_2 by (rewrite length_insert; lia).
Qed.

Lemma sget_sdelete_ne a i j : i ≠ j → sget (sdelete a i) j = sget a j.
Proof.
  intros Hne. unfold sget, sdelete, sparse in *.
  by rewrite list_lookup_insert_ne.
Qed.

Lemma entries_holes (f : nat → nat) n :
  omap (fun io : nat * option A => pair io.1 <$> io.2)
       (imap (fun j x => (f j, x)) (replicate n None)) = [].
Proof.
  revert f. induction n as [|n IH]; intros f; [done|].
  cbn [replicate]. rewrite imap_cons. cbn [omap fmap option_fmap option_map snd].
  apply (IH (f ∘ S)).
Qed.

Lemma sset_nil i v : sset (A:=A) [] i v = replicate i None ++ [Some v].
Proof. unfold sset. cbn [length Nat.ltb Nat.leb app]. by rewrite Nat.sub_0_r. Qed.

Lemma entries_sset_nil i v : entries (sset [] i v) = [(i, v)].
Proof.
  rewrite sset_nil. unfold entries. rewrite imap_app, omap_app.
  rewrite (entries_holes (fun j => j)), length_replicate.
  cbn [imap omap fmap option_fmap option_map fst snd app].
  by rewrite Nat.add_0_r.
Qed.

Lemma sset_sset_nil i v w : sset (sset [] i v) i w = sset [] i w.
Proof.
  rewrite !sset_nil. unfold sset.
  rewrite length_app, length_replicate. cbn [length].
  destruct (Nat.ltb_spec i (i + 1)) as [_|Hge]; [|lia].
  unfold sparse. rewrite insert_app_r_alt by (rewrite length_replicate; lia).
  by rewrite length_replicate, Nat.sub_diag.
Qed.

Lemma entries_sdelete_sset_nil i v : entries (sdelete (sset [] i v) i) = [].
Proof.
  rewrite sset_nil. unfold sdelete, sparse.
  rewrite insert_app_r_alt by (rewrite length_replicate; lia).
  rewrite length_replicate, Nat.sub_diag. cbn [insert list_insert].
  unfold entries. rewrite imap_app, omap_app, (entries_holes (fun j => j)).
  reflexivity.
Qed.
End SparseDelete.

Module Merkle.

(** Digests as terms: an ideal hash, under which two digests are equal only
    if they were computed from the same inputs. Used to run the tree on
    concrete leaves. *)
Inductive digest : Type :=
| Atom (n : nat)
| Poseidon (l r : digest).

Definition idealPoseidon (inputs : list digest) : digest :=
  match inputs with
  | [l; r] => Poseidon l r
  | _ => Atom 0
  end.

Fixpoint digest_eqb (x y : digest) : bool :=
  match x, y with
  | Atom n, Atom m => Nat.eqb n m
  | Poseidon l r, Poseidon l' r' =>
      if digest_eqb l l' then digest_eqb r r' else false
  | _, _ => false
  end.

(** Stand-ins for [keccak256], the field modulus and [hexlify] in the ideal
    instance; the zero leaf they give is [Atom 7]. *)
Definition idealKeccak (s : string) : Z := Z.of_nat (String.length s).

Definition idealPrime : Z :=
  21888242871839275222246405745257275088548364400416034343698204186575808495617.

Definition idealHexlify (z : Z) : digest := Atom (Z.to_nat z).

Section Tree.

(** Nodes are the hex strings the tree stores; they are non-empty, hence
    truthy: [cached || fallback] takes the fallback only for [undefined]. *)
Context {node : Type}.

(** [utils.hash.poseidon], [utils.hash.keccak256] (here applied to the
    UTF-8 bytes of its argument), [utils.constants.SNARK_PRIME] and
    [utils.bytes.hexlify] are not among the sources: they are parameters. *)
Variable poseidon : list node → node.
Variable keccak256 : string → Z.
Variable SNARK_PRIME : Z.
Variable hexlify : Z → node.

(** [hexlify(numberify(keccak256(fromUTF8String('Railgun'))).mod(SNARK_PRIME))]. *)
Definition MERKLE_ZERO_VALUE : node :=
  hexlify (keccak256 "Railgun" mod SNARK_PRIME)%Z.

(** A database key is the path [chainID; tree; level; index] (the purpose
    component is the same for every key of one tree object). *)
Abbreviation path := (list nat).

Record MerkleTree : Type := mkMerkleTree {
  db : gmap path node;
  chainID : nat;
  depth : nat;
  zeroValues : list node;
  treeLengthCache : sparse nat;
  writeCache : sparse (sparse (sparse node))
}.

(** The constructor's call [hashLeftRight(z, z)], on defined values. *)
Definition hashPair (left right : node) : node := poseidon [left; right].

(** [static hashLeftRight(left, right)]. Modelled from the spec: [poseidon]
    is a function of field elements; an [undefined] argument is not one, and
    the call throws. *)
Definition hashLeftRight (left right : option node) : outcome node :=
  match left, right with
  | Some l, Some r => Returned (hashPair l r)
  | _, _ => TypeError
  end.

(** The constructor's loop
    [for (level = 1; level <= depth; level += 1)
       zeroValues[level] = hashLeftRight(zeroValues[level-1], zeroValues[level-1])];
    [previous] is [zeroValues[level - 1]]. *)
Fixpoint zeroValuesLoop (levels : nat) (previous : node) (acc : list node)
    : list node :=
  match levels with
  | O => acc
  | S levels' =>
      let z := hashPair previous previous in
      zeroValuesLoop levels' z (acc ++ [z])
  end.

Definition new (database : gmap path node) (chain treeDepth : nat) : MerkleTree :=
  {| db := database;
     chainID := chain;
     depth := treeDepth;
     zeroValues := zeroValuesLoop treeDepth MERKLE_ZERO_VALUE [MERKLE_ZERO_VALUE];
     treeLengthCache := [];
     writeCache := [] |}.

Definition getTreeDBPrefix (t : MerkleTree) (tree : nat) : path :=
  [chainID t; tree].

Definition getNodeDBPath (t : MerkleTree) (tree level index : nat) : path :=
  getTreeDBPrefix t tree ++ [level; index].

(** [getNode]: [db.get] throws on a missing key and the [catch] returns
    [zeroValues[level]]. *)
Definition getNode (t : MerkleTree) (tree level index : nat) : option node :=
  match db t !! getNodeDBPath t tree level index with
  | Some v => Some v
  | None => zeroValues t !! level
  end.

Definition getRoot (t : MerkleTree) (tree : nat) : option node :=
  getNode t tree (depth t) 0.

(** Modelled from the spec: [Database.countNamespace(prefix)], the number of
    keys of the store that extend [prefix]. *)
Definition countNamespace (database : gmap path node) (prefix : path) : nat :=
  size (filter (fun kv : path * node => prefix `prefix_of` kv.1) database).

(** [getTreeLength]: [cache[tree] = cache[tree] || countNamespace(prefix)];
    [undefined] and [0] are falsy. Returns the updated object and the
    length. *)
Definition getTreeLength (t : MerkleTree) (tree : nat) : MerkleTree * nat :=
  let len :=
    match sget (treeLengthCache t) tree with
    | Some (S n) => S n
    | _ => countNamespace (db t) (getTreeDBPrefix t tree)
    end in
  ({| db := db t; chainID := chainID t; depth := depth t;
      zeroValues := zeroValues t;
      treeLengthCache := sset (treeLengthCache t) tree len;
      writeCache := writeCache t |}, len).

Abbreviation cache := (sparse (sparse (sparse node))).

(** [this.writeCache[tree][level][index]] as an rvalue. *)
Definition readCache (wc : cache) (tree level index : nat)
    : outcome (option node) :=
  match sget wc tree with
  | None => TypeError
  | Some levels =>
      match sget levels level with
      | None => TypeError
      | Some nodes => Returned (sget nodes index)
      end
  end.

(** [this.writeCache[tree][level][index] = v]. *)
Definition assignCache (wc : cache) (tree level index : nat) (v : node)
    : outcome cache :=
  match sget wc tree with
  | None => TypeError
  | Some levels =>
      match sget levels level with
      | None => TypeError
      | Some nodes =>
          Returned (sset wc tree (sset levels level (sset nodes index v)))
      end
  end.

(** [this.writeCache[tree][level] = this.writeCache[tree][level] || []]. *)
Definition ensureLevel (wc : cache) (tree level : nat) : outcome cache :=
  match sget wc tree with
  | None => TypeError
  | Some levels =>
      match sget levels level with
      | Some _ => Returned wc
      | None => Returned (sset wc tree (sset levels level []))
      end
  end.

(** [this.writeCache[tree] = this.writeCache[tree] || []]. *)
Definition ensureTree (wc : cache) (tree : nat) : cache :=
  match sget wc tree with
  | Some _ => wc
  | None => sset wc tree []
  end.

(** [this.writeCache[tree][level][index] || await this.getNode(tree, level, index)]. *)
Definition cachedOrNode (t : MerkleTree) (wc : cache) (tree level index : nat)
    : outcome (option node) :=
  cached ← readCache wc tree level index;
  Returned (match cached with
            | Some v => Some v
            | None => getNode t tree level index
            end).

(** The body of the [forEach] over the leaves (level 0). *)
Definition pushLeaf (tree : nat) (st : outcome (cache * nat)) (leaf : node)
    : outcome (cache * nat) :=
  '(wc, index) ← st;
  wc ← ensureLevel (ensureTree wc tree) tree 0;
  wc ← assignCache wc tree 0 index leaf;
  Returned (wc, S index).

(** The body of [for (index; index <= endIndex; index += 2)]. *)
Definition hashPairAt (t : MerkleTree) (tree level index : nat) (wc : cache)
    : outcome cache :=
  if Nat.even index then
    left ← cachedOrNode t wc tree level index;
    right ← cachedOrNode t wc tree level (index + 1);
    parent ← hashLeftRight left right;
    assignCache wc tree (level + 1) (index / 2) parent
  else
    left ← cachedOrNode t wc tree level (index - 1);
    right ← readCache wc tree level index;
    parent ← hashLeftRight left right;
    assignCache wc tree (level + 1) (index / 2) parent.

(** [iterations] runs of that body, [index] advancing by two. *)
Fixpoint hashPairs (iterations : nat) (t : MerkleTree) (tree level index : nat)
    (wc : cache) : outcome cache :=
  match iterations with
  | O => Returned wc
  | S iterations' =>
      wc ← hashPairAt t tree level index wc;
      hashPairs iterations' t tree level (index + 2) wc
  end.

(** How often [for (index; index <= endIndex; index += 2)] runs. *)
Definition pairIterations (index endIndex : nat) : nat :=
  if index <=? endIndex then S ((endIndex - index) / 2) else 0.

(** [while (level < this.depth)], with [remaining = depth - level]. *)
Fixpoint hashLevels (remaining : nat) (t : MerkleTree)
    (tree level nextLevelStartIndex endIndex : nat) (wc : cache)
    : outcome cache :=
  match remaining with
  | O => Returned wc
  | S remaining' =>
      wc ← ensureLevel wc tree (level + 1);
      wc ← hashPairs (pairIterations nextLevelStartIndex endIndex)
             t tree level nextLevelStartIndex wc;
      hashLevels remaining' t tree (level + 1)
        (nextLevelStartIndex / 2) (endIndex / 2) wc
  end.

(** The batch of [writeTreeCache]: one put per cached node. *)
Definition writeBatch (t : MerkleTree) (tree : nat) (levels : sparse (sparse node))
    : list (path * node) :=
  flat_map (fun '(level, nodes) =>
              map (fun '(index, v) => (getNodeDBPath t tree level index, v))
                  (entries nodes))
           (entries levels).

(** [db.batch]: the puts in order. *)
Definition batch (database : gmap path node) (ops : list (path * node))
    : gmap path node :=
  fold_left (fun d op => <[op.1 := op.2]> d) ops database.

Definition writeTreeCache (t : MerkleTree) (tree : nat) : outcome MerkleTree :=
  match sget (writeCache t) tree with
  | None => TypeError
  | Some levels =>
      match sget levels 0 with
      | None => TypeError
      | Some leaves =>
          let newTreeLength := length leaves in
          Returned
            {| db := batch (db t) (writeBatch t tree levels);
               chainID := chainID t; depth := depth t;
               zeroValues := zeroValues t;
               treeLengthCache := sset (treeLengthCache t) tree newTreeLength;
               writeCache := sset (writeCache t) tree [] |}
      end
  end.

Definition insertLeaves (t : MerkleTree) (tree : nat) (leaves : list node)
    (startIndex : nat) : outcome MerkleTree :=
  let endIndex := startIndex + length leaves in
  '(wc, _) ← fold_left (pushLeaf tree) leaves (Returned (writeCache t, startIndex));
  wc ← hashLevels (depth t) t tree 0 startIndex endIndex wc;
  writeTreeCache
    {| db := db t; chainID := chainID t; depth := depth t;
       zeroValues := zeroValues t;
       treeLengthCache := treeLengthCache t;
       writeCache := wc |} tree.

(** The reference the tree is compared with: the leaves, padded on the
    right with zero values, hashed up [levels] times. *)
Fixpoint pairUp (zero : node) (l : list node) : list node :=
  match l with
  | [] => []
  | [x] => [hashPair x zero]
  | x :: y :: rest => hashPair x y :: pairUp zero rest
  end.

Fixpoint hashUp (levels : nat) (zero : node) (l : list node) : node :=
  match levels with
  | O => match l with [] => zero | x :: _ => x end
  | S levels' => hashUp levels' (hashPair zero zero) (pairUp zero l)
  end.

Definition merkleRoot (levels : nat) (leaves : list node) : node :=
  hashUp levels MERKLE_ZERO_VALUE leaves.

(** Batches queued for one tree are inserted one after the other, each at
    the tree's current length, as [updateTrees] dispatches them
    ([insertLeaves(tree, batch, treeLengths[tree])]). *)
Fixpoint insertBatches (t : MerkleTree) (tree : nat) (batches : list (list node))
    : outcome MerkleTree :=
  match batches with
  | [] => Returned t
  | leaves :: rest =>
      let '(t, len) := getTreeLength t tree in
      t ← insertLeaves t tree leaves len;
      insertBatches t tree rest
  end.

(** *** Zero values *)

Definition selfHash (x : node) : node := hashPair x x.

Fixpoint selfHashes (levels : nat) (previous : node) : list node :=
  match levels with
  | O => []
  | S levels' => selfHash previous :: selfHashes levels' (selfHash previous)
  end.

Lemma zeroValuesLoop_app levels previous acc :
  zeroValuesLoop levels previous acc = acc ++ selfHashes levels previous.
Proof.
  revert previous acc.
  induction levels as [|levels IH]; intros previous acc; simpl.
  - by rewrite app_nil_r.
  - rewrite IH, <- app_assoc. reflexivity.
Qed.

Lemma selfHashes_lookup levels previous level :
  level < levels →
  selfHashes levels previous !! level
  = Some (Nat.iter (S level) selfHash previous).
Proof.
  revert previous level.
  induction levels as [|levels IH]; intros previous level Hlt; [lia|].
  destruct level as [|level]; [reflexivity|].
  cbn [selfHashes lookup list_lookup].
  change (selfHashes levels (selfHash previous) !! level
          = Some (Nat.iter (S (S level)) selfHash previous)).
  rewrite IH by lia.
  by rewrite (Nat.iter_succ_r (S level)).
Qed.

(** The constructor leaves [zeroValues[level]] equal to the [level]-fold
    self-hash of the zero value, for every level up to the depth. *)
Lemma zeroValues_new database chain treeDepth level :
  level <= treeDepth →
  zeroValues (new database chain treeDepth) !! level
  = Some (Nat.iter level selfHash MERKLE_ZERO_VALUE).
Proof.
  intros Hle. cbn [new zeroValues]. rewrite zeroValuesLoop_app.
  destruct level as [|level]; [reflexivity|].
  change (selfHashes treeDepth MERKLE_ZERO_VALUE !! level
          = Some (Nat.iter (S level) selfHash MERKLE_ZERO_VALUE)).
  apply selfHashes_lookup. lia.
Qed.

(** C9. A depth-16 tree constructed over a store that holds no root node
    for [tree] has root [zeroValues[16]], which is the 16-fold self-hash
    [x -> Poseidon(x, x)] of [MERKLE_ZERO_VALUE]; and in any tree object
    [getNode] returns [zeroValues[level]] when the store holds nothing at
    the node's path. *)
Theorem getRoot_empty_getNode_absent :
  (∀ database chain tree,
      database !! [chain; tree; 16; 0] = None →
      getRoot (new database chain 16) tree
      = zeroValues (new database chain 16) !! 16
      ∧ zeroValues (new database chain 16) !! 16
        = Some (Nat.iter 16 (fun x => poseidon [x; x])
                  (hexlify (keccak256 "Railgun" mod SNARK_PRIME)%Z)))
  ∧ (∀ t tree level index,
        db t !! getNodeDBPath t tree level index = None →
        getNode t tree level index = zeroValues t !! level).
Proof.
  split.
  - intros database chain tree Hroot. split.
    + unfold getRoot, getNode, getNodeDBPath, getTreeDBPrefix, new.
      cbn [db depth chainID app zeroValues]. by rewrite Hroot.
    + by apply zeroValues_new.
  - intros t tree level index Habsent. unfold getNode. by rewrite Habsent.
Qed.

(** *** Two batches: the root misses the last leaf *)

(** On an empty store, a depth-16 tree that receives the batch [a; b] and
    then the batch [c; d; e] persists the leaves and the node over [e], but
    not that node's parent, and its root is the root of [a; b; c; d]. *)
Lemma insert_two_then_three (a b c d e : node) :
  (t ← insertBatches (new ∅ 1 16) 0 [[a; b]; [c; d; e]];
   Returned (getRoot t 0, getNode t 0 0 4, db t !! getNodeDBPath t 0 1 2,
             db t !! getNodeDBPath t 0 2 1, (getTreeLength t 0).2))
  = Returned (Some (merkleRoot 16 [a; b; c; d]), Some e,
              Some (hashPair e MERKLE_ZERO_VALUE), None, 5).
Proof.
  unfold new, merkleRoot. generalize MERKLE_ZERO_VALUE. intros zero.
  vm_compute. reflexivity.
Qed.

(** With one leaf in the tree, a batch of two makes the level-0 loop reach the
    odd index 3 = endIndex, whose cache entry is [undefined]; it is hashed
    without a fallback and the call throws. *)
Lemma insert_one_then_two_throws (a b c : node) :
  insertBatches (new ∅ 1 16) 0 [[a]; [b; c]] = TypeError.
Proof.
  unfold new, merkleRoot. generalize MERKLE_ZERO_VALUE. intros zero.
  vm_compute. reflexivity.
Qed.

(** C7. After one leaf is inserted into an empty depth-16 tree, the length
    served from the cache is 1, while a tree object constructed anew over
    the same store (empty cache) counts every key under the tree's prefix,
    the leaf and its 16 ancestors, and answers 17. *)
Theorem getTreeLength_counts_every_level (leaf : node) :
  (t ← insertLeaves (new ∅ 1 16) 0 [leaf] 0;
   Returned ((getTreeLength t 0).2,
             (getTreeLength (new (db t) 1 16) 0).2))
  = Returned (1, 17).
Proof.
  unfold new, merkleRoot. generalize MERKLE_ZERO_VALUE. intros zero.
  vm_compute. reflexivity.
Qed.

(** ** Further properties of [insertLeaves] *)

(** In the cache [wc] the level 0 of [tree] is [nodes], and the other trees
    are cached as in [wc0]. *)
Definition cacheAt (wc0 wc : cache) (tree : nat) (nodes : sparse node) : Prop :=
  (∃ levels, sget wc tree = Some levels ∧ sget levels 0 = Some nodes)
  ∧ ∀ other, other ≠ tree → sget wc other = sget wc0 other.

Ltac bind_inv H :=
  match type of H with
  | mbind _ ?m = Returned _ =>
      let E := fresh "Hstep" in
      destruct m eqn:E; cbn [mbind outcome_bind] in H; [|discriminate H..]
  end.

Lemma ensureLevel_cacheAt wc0 wc tree level nodes :
  cacheAt wc0 wc tree nodes →
  ∃ wc', ensureLevel wc tree level = Returned wc' ∧ cacheAt wc0 wc' tree nodes.
Proof.
  intros [(levels & Htree & Hzero) Hother]. unfold ensureLevel. rewrite Htree.
  destruct (sget levels level) as [ns|] eqn:Hlevel.
  - exists wc. split; [done|]. split; [by exists levels|done].
  - eexists. split; [done|]. split.
    + eexists. split; [apply sget_sset_eq|].
      rewrite sget_sset_ne; [done|]. intros ->. congruence.
    + intros other Hne. rewrite sget_sset_ne by done. by apply Hother.
Qed.

Lemma assignCache_cacheAt wc0 wc tree level index v nodes wc' :
  level ≠ 0 →
  cacheAt wc0 wc tree nodes →
  assignCache wc tree level index v = Returned wc' →
  cacheAt wc0 wc' tree nodes.
Proof.
  intros Hlevel [(levels & Htree & Hzero) Hother] Hassign.
  unfold assignCache in Hassign. rewrite Htree in Hassign.
  destruct (sget levels level) as [ns|]; [|discriminate].
  injection Hassign as <-. split.
  - eexists. split; [apply sget_sset_eq|]. by rewrite sget_sset_ne.
  - intros other Hne. rewrite sget_sset_ne by done. by apply Hother.
Qed.

Lemma hashPairAt_cacheAt t wc0 wc tree level index nodes wc' :
  cacheAt wc0 wc tree nodes →
  hashPairAt t tree level index wc = Returned wc' →
  cacheAt wc0 wc' tree nodes.
Proof.
  intros Hcache Hrun. unfold hashPairAt in Hrun.
  destruct (Nat.even index); do 3 bind_inv Hrun;
    (eapply assignCache_cacheAt; [|done|done]; lia).
Qed.

Lemma hashPairs_cacheAt t wc0 tree level nodes iterations :
  ∀ index wc wc',
    cacheAt wc0 wc tree nodes →
    hashPairs iterations t tree level index wc = Returned wc' →
    cacheAt wc0 wc' tree nodes.
Proof.
  induction iterations as [|iterations IH]; intros index wc wc' Hcache Hrun;
    cbn [hashPairs] in Hrun.
  - by injection Hrun as <-.
  - bind_inv Hrun. eapply IH; [|done]. by eapply hashPairAt_cacheAt.
Qed.

Lemma hashLevels_cacheAt t wc0 tree nodes remaining :
  ∀ level nextLevelStartIndex endIndex wc wc',
    cacheAt wc0 wc tree nodes →
    hashLevels remaining t tree level nextLevelStartIndex endIndex wc
    = Returned wc' →
    cacheAt wc0 wc' tree nodes.
Proof.
  induction remaining as [|remaining IH];
    intros level nextLevelStartIndex endIndex wc wc' Hcache Hrun;
    cbn [hashLevels] in Hrun.
  - by injection Hrun as <-.
  - destruct (ensureLevel_cacheAt wc0 wc tree (level + 1) nodes Hcache)
      as (wc1 & Hensure & Hcache1).
    rewrite Hensure in Hrun. cbn [mbind outcome_bind] in Hrun.
    bind_inv Hrun. eapply IH; [|done]. by eapply hashPairs_cacheAt.
Qed.

(** The first leaf of a batch, on a cache without a level 0 for the tree. *)
Lemma pushLeaf_first wc tree index leaf :
  (∀ levels, sget wc tree = Some levels → sget levels 0 = None) →
  ∃ wc',
    pushLeaf tree (Returned (wc, index)) leaf = Returned (wc', S index)
    ∧ cacheAt wc wc' tree (sset [] index leaf).
Proof.
  intros Hclean. unfold pushLeaf, ensureTree, ensureLevel, assignCache.
  cbn [mbind outcome_bind].
  destruct (sget wc tree) as [levels|] eqn:Htree.
  - pose proof (Hclean levels eq_refl) as Hzero.
    repeat progress
      (rewrite ?Htree, ?Hzero, ?sget_sset_eq; cbn [mbind outcome_bind]).
    eexists. split; [done|]. split.
    + eexists. split; [apply sget_sset_eq|apply sget_sset_eq].
    + intros other Hne. by rewrite !sget_sset_ne.
  - repeat progress
      (rewrite ?sget_sset_eq, ?sget_nil; cbn [mbind outcome_bind]).
    eexists. split; [done|]. split.
    + eexists. split; [apply sget_sset_eq|apply sget_sset_eq].
    + intros other Hne. by rewrite !sget_sset_ne.
Qed.

Lemma pushLeaf_next wc0 wc tree index leaf nodes :
  cacheAt wc0 wc tree nodes →
  ∃ wc',
    pushLeaf tree (Returned (wc, index)) leaf = Returned (wc', S index)
    ∧ cacheAt wc0 wc' tree (sset nodes index leaf).
Proof.
  intros [(levels & Htree & Hzero) Hother].
  unfold pushLeaf, ensureTree, ensureLevel, assignCache.
  cbn [mbind outcome_bind].
  repeat progress (rewrite ?Htree, ?Hzero; cbn [mbind outcome_bind]).
  eexists. split; [done|]. split.
  - eexists. split; [apply sget_sset_eq|apply sget_sset_eq].
  - intros other Hne. rewrite sget_sset_ne by done. by apply Hother.
Qed.

Lemma pushLeaves_cacheAt wc0 tree leaves :
  ∀ wc index nodes,
    cacheAt wc0 wc tree nodes →
    index ≤ length nodes →
    ∃ wc' nodes',
      fold_left (pushLeaf tree) leaves (Returned (wc, index))
      = Returned (wc', index + length leaves)
      ∧ cacheAt wc0 wc' tree nodes'
      ∧ length nodes' = length nodes `max` (index + length leaves)
      ∧ ∀ j, sget nodes' j
             = if decide (index ≤ j < index + length leaves)
               then leaves !! (j - index) else sget nodes j.
Proof.
  induction leaves as [|leaf leaves IH]; intros wc index nodes Hcache Hle.
  - exists wc, nodes. cbn [fold_left length]. rewrite Nat.add_0_r.
    split; [done|]. split; [done|]. split; [lia|].
    intros j. by rewrite decide_False by lia.
  - cbn [fold_left length].
    destruct (pushLeaf_next wc0 wc tree index leaf nodes Hcache)
      as (wc1 & -> & Hcache1).
    destruct (IH wc1 (S index) (sset nodes index leaf) Hcache1)
      as (wc' & nodes' & Hrun & Hcache' & Hlen & Hget).
    { rewrite length_sset. lia. }
    exists wc', nodes'. rewrite Hrun.
    split; [f_equal; f_equal; lia|]. split; [done|].
    split; [rewrite Hlen, length_sset; lia|].
    intros j. rewrite Hget, sget_sset.
    destruct (decide (index = j)) as [<-|Hne].
    + rewrite decide_False by lia. rewrite decide_True by lia.
      by rewrite Nat.sub_diag.
    + destruct (decide (S index ≤ j < S index + length leaves)) as [Hin|Hout].
      * rewrite decide_True by lia.
        replace (j - index) with (S (j - S index)) by lia. done.
      * by rewrite decide_False by lia.
Qed.

Lemma elem_of_writeBatch t tree levels k v :
  (k, v) ∈ writeBatch t tree levels
  ↔ ∃ level nodes index,
      sget levels level = Some nodes ∧ sget nodes index = Some v
      ∧ k = getNodeDBPath t tree level index.
Proof.
  unfold writeBatch. rewrite list_elem_of_In, in_flat_map. split.
  - intros ([level nodes] & Hin & Hin2).
    apply in_map_iff in Hin2 as ([index v'] & Heq & Hin2).
    injection Heq as <- <-.
    apply list_elem_of_In, elem_of_entries in Hin.
    apply list_elem_of_In, elem_of_entries in Hin2. eauto 10.
  - intros (level & nodes & index & Hlevel & Hnode & ->).
    exists (level, nodes). split; [by apply list_elem_of_In, elem_of_entries|].
    apply in_map_iff. exists (index, v). split; [done|].
    by apply list_elem_of_In, elem_of_entries.
Qed.

(** An empty batch, on a cache without a level 0 for the tree. *)
Lemma insertLeaves_nil t tree startIndex :
  (∀ levels, sget (writeCache t) tree = Some levels → sget levels 0 = None) →
  insertLeaves t tree [] startIndex = TypeError.
Proof.
  intros Hclean. unfold insertLeaves. cbn [fold_left length mbind outcome_bind].
  rewrite Nat.add_0_r. destruct (depth t) as [|remaining].
  - cbn [hashLevels mbind outcome_bind]. unfold writeTreeCache.
    cbn [writeCache]. destruct (sget (writeCache t) tree) as [levels|] eqn:Htree;
      [|done].
    by rewrite (Hclean levels eq_refl).
  - cbn [hashLevels]. unfold ensureLevel.
    destruct (sget (writeCache t) tree) as [levels|] eqn:Htree; [|done].
    pose proof (Hclean levels eq_refl) as Hzero.
    unfold pairIterations. rewrite Nat.leb_refl.
    assert (Hread : ∀ wc index,
               (∃ levels', sget wc tree = Some levels' ∧ sget levels' 0 = None) →
               hashPairAt t tree 0 index wc = TypeError).
    { intros wc index (levels' & Htree' & Hzero').
      unfold hashPairAt, cachedOrNode, readCache.
      rewrite Htree', Hzero'. by destruct (Nat.even index). }
    destruct (sget levels (0 + 1)) as [ns|] eqn:Hone;
      cbn [mbind outcome_bind hashPairs].
    + rewrite Hread; [done|]. by exists levels.
    + rewrite Hread; [done|]. eexists. split; [apply sget_sset_eq|].
      by rewrite sget_sset_ne.
Qed.

(** A batch with a leaf, pushed on a cache without a level 0 for the tree:
    level 0 then holds the batch from [startIndex] on and nothing else. *)
Lemma pushLeaves_clean wc tree leaf rest startIndex :
  (∀ levels, sget wc tree = Some levels → sget levels 0 = None) →
  ∃ wc' nodes,
    fold_left (pushLeaf tree) (leaf :: rest) (Returned (wc, startIndex))
    = Returned (wc', startIndex + length (leaf :: rest))
    ∧ cacheAt wc wc' tree nodes
    ∧ length nodes = startIndex + length (leaf :: rest)
    ∧ ∀ j, sget nodes j
           = if decide (startIndex ≤ j) then (leaf :: rest) !! (j - startIndex)
             else None.
Proof.
  intros Hclean. cbn [fold_left].
  destruct (pushLeaf_first wc tree startIndex leaf Hclean)
    as (wc1 & -> & Hcache1).
  destruct (pushLeaves_cacheAt wc tree rest wc1 (S startIndex)
              (sset [] startIndex leaf) Hcache1)
    as (wc2 & nodes & Hpush & Hcache2 & Hlen & Hget).
  { rewrite length_sset. cbn [length]. lia. }
  exists wc2, nodes. rewrite Hpush. cbn [length].
  split; [f_equal; f_equal; lia|]. split; [done|].
  rewrite length_sset in Hlen. cbn [length] in Hlen. split; [lia|].
  intros j. rewrite Hget, sget_sset, sget_nil.
  destruct (decide (startIndex = j)) as [<-|Hne].
  - rewrite decide_False by lia. rewrite decide_True by lia.
    by rewrite Nat.sub_diag.
  - destruct (decide (startIndex ≤ j)) as [Hle|Hgt].
    + replace (j - startIndex) with (S (j - S startIndex)) by lia.
      cbn [lookup list_lookup].
      destruct (decide (S startIndex ≤ j < S startIndex + length rest));
        [done|].
      symmetry. apply lookup_ge_None_2. lia.
    + by rewrite decide_False by lia.
Qed.

(** What a call of [insertLeaves] that returned has done, on a cache without
    a level 0 for the tree: the batch was not empty, level 0 of the cache
    held the batch from [startIndex] on and nothing else, and the cache of
    the tree was written out. *)
Lemma insertLeaves_returned t tree leaves startIndex t' :
  (∀ levels, sget (writeCache t) tree = Some levels → sget levels 0 = None) →
  insertLeaves t tree leaves startIndex = Returned t' →
  ∃ wc levels nodes,
    cacheAt (writeCache t) wc tree nodes
    ∧ sget wc tree = Some levels
    ∧ sget levels 0 = Some nodes
    ∧ 0 < length leaves
    ∧ length nodes = startIndex + length leaves
    ∧ (∀ j, sget nodes j
            = if decide (startIndex ≤ j) then leaves !! (j - startIndex)
              else None)
    ∧ t' = {| db := batch (db t) (writeBatch t tree levels);
              chainID := chainID t; depth := depth t;
              zeroValues := zeroValues t;
              treeLengthCache :=
                sset (treeLengthCache t) tree (length nodes);
              writeCache := sset wc tree [] |}.
Proof.
  intros Hclean Hrun. destruct leaves as [|leaf rest].
  { by rewrite insertLeaves_nil in Hrun. }
  unfold insertLeaves in Hrun.
  destruct (pushLeaves_clean (writeCache t) tree leaf rest startIndex Hclean)
    as (wc2 & nodes & Hpush & Hcache2 & Hlen & Hget).
  rewrite Hpush in Hrun. cbn [mbind outcome_bind] in Hrun.
  destruct (hashLevels (depth t) t tree 0 startIndex _ wc2) as [wc3| |]
    eqn:Hstep; cbn [mbind outcome_bind] in Hrun; [|discriminate..].
  pose proof (hashLevels_cacheAt _ _ _ _ _ _ _ _ _ _ Hcache2 Hstep) as Hcache3.
  destruct Hcache3 as [(levels & Htree & Hzero) Hother].
  unfold writeTreeCache in Hrun. cbn [writeCache db chainID depth zeroValues
    treeLengthCache] in Hrun.
  rewrite Htree, Hzero in Hrun. injection Hrun as <-.
  exists wc3, levels, nodes.
  split; [split; [by exists levels|done]|].
  split; [done|]. split; [done|]. split; [cbn [length]; lia|].
  split; [done|]. split; [done|]. done.
Qed.

(** [utils.bytes.hexlify(data, prefix)] on byte data is not among the
    sources; it is a parameter. *)
Variable hexlifyData : node → bool → node.

(** The first statement of [insertLeaves],
    [const writeArray = leaves.map(utils.bytes.hexlify)]: [map] calls
    [hexlify(leaf, index, leaves)], so the index is taken as the prefix
    flag, which is falsy for the first leaf only. The definition
    [insertLeaves] above is the function from its second statement on; the
    source function on [leaves] is [insertLeaves] on [writeArray leaves]. *)
Definition writeArray (leaves : list node) : list node :=
  imap (fun index leaf => hexlifyData leaf (negb (index =? 0))) leaves.

(** After [insertLeaves] returned, on a cache without a level 0 for the
    tree: the node [getNode] gives at level 0 and index [startIndex + i] is
    the hex string made of the [i]-th leaf of the batch, with the prefix for
    every leaf but the first; [getTreeLength] answers [startIndex] plus the
    size of the batch; and the write cache of the tree is empty again. *)
Theorem insertLeaves_persists t tree leaves startIndex t' :
  (∀ levels, sget (writeCache t) tree = Some levels → sget levels 0 = None) →
  insertLeaves t tree (writeArray leaves) startIndex = Returned t' →
  (∀ i leaf, leaves !! i = Some leaf →
             getNode t' tree 0 (startIndex + i)
             = Some (hexlifyData leaf (negb (i =? 0))))
  ∧ (getTreeLength t' tree).2 = startIndex + length leaves
  ∧ sget (writeCache t') tree = Some [].
Proof.
  intros Hclean Hrun.
  destruct (insertLeaves_returned t tree (writeArray leaves) startIndex t'
              Hclean Hrun)
    as (wc & levels & nodes & _ & Htree & Hzero & Hpos & Hlen & Hget & ->).
  unfold writeArray in Hpos, Hlen, Hget. rewrite length_imap in Hpos, Hlen.
  split; [|split].
  - intros i leaf Hleaf. unfold getNode. cbn [db zeroValues].
    change (getNodeDBPath _ tree 0 (startIndex + i))
      with (getNodeDBPath t tree 0 (startIndex + i)).
    set (written := hexlifyData leaf (negb (i =? 0))).
    assert (Hnode : sget nodes (startIndex + i) = Some written).
    { rewrite Hget, decide_True by lia.
      replace (startIndex + i - startIndex) with i by lia.
      by rewrite list_lookup_imap, Hleaf. }
    change (batch (db t) (writeBatch t tree levels))
      with (applyPuts (writeBatch t tree levels) (db t)).
    rewrite (applyPuts_lookup_unique _ _ _ written); [done| |].
    + left. apply elem_of_writeBatch. by exists 0, nodes, (startIndex + i).
    + intros v' Hin.
      apply elem_of_writeBatch in Hin as (level & ns & index & Hl & Hn & Heq).
      injection Heq as <- <-. congruence.
  - unfold getTreeLength. cbn [treeLengthCache snd]. rewrite sget_sset_eq, Hlen.
    by destruct (startIndex + length leaves) eqn:Hsum; [lia|].
  - cbn [writeCache]. apply sget_sset_eq.
Qed.

(** What [insertLeaves] leaves alone when it returned, on a cache without a
    level 0 for the tree: the chain, the depth and the zero values; the
    stored leaves of the tree below [startIndex]; every stored node, the
    cached length and the write cache of any other tree. *)
Theorem insertLeaves_frame t tree leaves startIndex t' :
  (∀ levels, sget (writeCache t) tree = Some levels → sget levels 0 = None) →
  insertLeaves t tree leaves startIndex = Returned t' →
  (chainID t', depth t', zeroValues t') = (chainID t, depth t, zeroValues t)
  ∧ (∀ index, index < startIndex →
       db t' !! getNodeDBPath t tree 0 index
       = db t !! getNodeDBPath t tree 0 index)
  ∧ ∀ other, other ≠ tree →
      (∀ level index,
         db t' !! getNodeDBPath t other level index
         = db t !! getNodeDBPath t other level index)
      ∧ sget (treeLengthCache t') other = sget (treeLengthCache t) other
      ∧ sget (writeCache t') other = sget (writeCache t) other.
Proof.
  intros Hclean Hrun.
  destruct (insertLeaves_returned t tree leaves startIndex t' Hclean Hrun)
    as (wc & levels & nodes & [_ Hother] & Htree & Hzero & Hpos & Hlen & Hget
        & ->).
  cbn [db chainID depth zeroValues treeLengthCache writeCache].
  change (batch (db t) (writeBatch t tree levels))
    with (applyPuts (writeBatch t tree levels) (db t)).
  split; [done|]. split.
  - intros index Hlt. apply applyPuts_lookup_other. intros v Hin.
    apply elem_of_writeBatch in Hin as (level & ns & index' & Hl & Hn & Heq).
    injection Heq as <- <-.
    assert (ns = nodes) as -> by congruence.
    rewrite Hget, decide_False in Hn by lia. discriminate.
  - intros other Hne. split; [|split].
    + intros level index. apply applyPuts_lookup_other. intros v Hin.
      apply elem_of_writeBatch in Hin as (level' & ns & index' & Hl & Hn & Heq).
      by injection Heq as -> _ _.
    + by rewrite sget_sset_ne.
    + rewrite sget_sset_ne by done. by apply Hother.
Qed.

(** ** The root after the first batch *)










Section FirstBatch.

Variable t : MerkleTree.
Variable tree : nat.
Variable zero : node.
Variable leaves : list node.

(** The zero values are the self-hashes of [zero], and the store holds no
    node of the tree. *)
Hypothesis Hzero : ∀ level,
  level ≤ depth t → zeroValues t !! level = Some (Nat.iter level selfHash zero).
Hypothesis Hempty : ∀ level index,
  db t !! getNodeDBPath t tree level index = None.











End FirstBatch.


(** ** [queueLeaves] and [updateTrees] *)

(** The tree object with its write queue and its queue lock. *)
Record QueuedTree : Type := mkQueuedTree {
  merkletree : MerkleTree;
  writeQueue : sparse (sparse (list node));
  queueLock : bool
}.

Abbreviation queue := (sparse (sparse (list node))).

(** The first [forEach] of a round:
    [treeLengths[index] = getTreeLength(index)] for every tree queued. *)
Definition treeLengthsOf (t : MerkleTree) (q : queue) : MerkleTree * sparse nat :=
  fold_left (fun '(t, treeLengths) '(index, _) =>
               let '(t', len) := getTreeLength t index in
               (t', sset treeLengths index len))
            (entries q) (t, []).

(** [tree.forEach((element, elementIndex) =>
       { if (elementIndex < treeLength) delete tree[elementIndex]; })];
    no index is below [undefined]. *)
Definition prune (tree : sparse (list node)) (treeLength : option nat)
    : sparse (list node) :=
  fold_left (fun acc '(elementIndex, _) =>
               match treeLength with
               | Some len =>
                   if elementIndex <? len then sdelete acc elementIndex else acc
               | None => acc
               end)
            (entries tree) tree.

(** The body of the second [forEach] of a round for one tree of the queue;
    [updates] counts the calls of [insertLeaves] pushed. The trees inserted
    into share no node, cached length or write cache, and are run one after
    the other. *)
Definition updateTree (treeLengths : sparse nat)
    (st : outcome (MerkleTree * queue * nat)) (e : nat * sparse (list node))
    : outcome (MerkleTree * queue * nat) :=
  '(t, q, updates) ← st;
  let treeLength := sget treeLengths e.1 in
  let pruned := prune e.2 treeLength in
  let q := sset q e.1 pruned in
  if length (entries pruned) =? 0 then Returned (t, sdelete q e.1, updates)
  else
    match treeLength with
    | None => Returned (t, q, updates)
    | Some len =>
        match sget pruned len with
        | None => Returned (t, q, updates)
        | Some leaves =>
            t' ← insertLeaves t e.1 leaves len;
            Returned (t', q, S updates)
        end
    end.

(** [while (workToDo)], one round per unit of fuel. *)
Fixpoint updateRounds (fuel : nat) (t : MerkleTree) (q : queue)
    : outcome (MerkleTree * queue) :=
  match fuel with
  | O => OutOfFuel
  | S fuel' =>
      let '(t, treeLengths) := treeLengthsOf t q in
      '(t, q', updates) ←
        fold_left (updateTree treeLengths) (entries q) (Returned (t, q, 0));
      if updates =? 0 then Returned (t, q') else updateRounds fuel' t q'
  end.

Definition updateTrees (fuel : nat) (qt : QueuedTree) : outcome QueuedTree :=
  if queueLock qt then Returned qt
  else
    '(t, q) ← updateRounds fuel (merkletree qt) (writeQueue qt);
    Returned {| merkletree := t; writeQueue := q; queueLock := false |}.

Definition queueLeaves (fuel : nat) (qt : QueuedTree) (tree : nat)
    (leaves : list node) (startingIndex : nat) : outcome QueuedTree :=
  let queued := default [] (sget (writeQueue qt) tree) in
  updateTrees fuel
    {| merkletree := merkletree qt;
       writeQueue :=
         sset (writeQueue qt) tree (sset queued startingIndex leaves);
       queueLock := queueLock qt |}.

Lemma prune_keep (leaves : list node) startingIndex len :
  len ≤ startingIndex →
  prune (sset [] startingIndex leaves) (Some len)
  = sset [] startingIndex leaves.
Proof.
  intros Hle. unfold prune. rewrite entries_sset_nil. cbn [fold_left].
  by destruct (Nat.ltb_spec startingIndex len); [lia|].
Qed.

Lemma prune_drop (leaves : list node) startingIndex len :
  startingIndex < len →
  prune (sset [] startingIndex leaves) (Some len)
  = sdelete (sset [] startingIndex leaves) startingIndex.
Proof.
  intros Hlt. unfold prune. rewrite entries_sset_nil. cbn [fold_left].
  by destruct (Nat.ltb_spec startingIndex len); [|lia].
Qed.



(** A round for a queue that holds one batch, at [startingIndex] of [tree],
    when the tree's length is [len]. *)
Lemma updateRounds_single fuel t tree (leaves : list node) startingIndex :
  updateRounds (S fuel) t (sset [] tree (sset [] startingIndex leaves))
  = let '(t1, len) := getTreeLength t tree in
    if startingIndex <? len then
      Returned (t1, sdelete (sset [] tree
                               (sdelete (sset [] startingIndex leaves)
                                  startingIndex)) tree)
    else if startingIndex =? len then
      t2 ← insertLeaves t1 tree leaves len;
      updateRounds fuel t2 (sset [] tree (sset [] startingIndex leaves))
    else Returned (t1, sset [] tree (sset [] startingIndex leaves)).
Proof.
  cbn [updateRounds]. unfold treeLengthsOf. rewrite entries_sset_nil.
  cbn [fold_left]. destruct (getTreeLength t tree) as [t1 len].
  unfold updateTree. cbn [mbind outcome_bind fst snd].
  rewrite sget_sset_eq.
  destruct (Nat.ltb_spec startingIndex len) as [Hlt|Hge].
  - rewrite prune_drop by done. rewrite entries_sdelete_sset_nil.
    cbn [length Nat.eqb]. by rewrite sset_sset_nil.
  - rewrite prune_keep by done. rewrite entries_sset_nil, sset_sset_nil.
    cbn [length Nat.eqb].
    destruct (Nat.eqb_spec startingIndex len) as [->|Hne].
    + rewrite sget_sset_eq.
      by destruct (insertLeaves t1 tree leaves len).
    + rewrite sget_sset_ne by done. by rewrite sget_nil.
Qed.

(** A batch without leaves makes [insertLeaves] throw, whatever the start
    index, when the write cache holds no level 0 for the tree (as in a new
    tree object and after every write); and so does [queueLeaves] of such a
    batch at the tree's length, on an empty queue with the lock free. *)
Theorem insertLeaves_empty_throws t tree startIndex :
  (∀ levels, sget (writeCache t) tree = Some levels → sget levels 0 = None) →
  insertLeaves t tree [] startIndex = TypeError
  ∧ ∀ fuel, 0 < fuel →
      queueLeaves fuel
        {| merkletree := t; writeQueue := []; queueLock := false |}
        tree [] (getTreeLength t tree).2
      = TypeError.
Proof.
  intros Hclean. split; [by apply insertLeaves_nil|].
  intros fuel Hfuel. destruct fuel as [|fuel]; [lia|].
  unfold queueLeaves, updateTrees.
  cbn [merkletree writeQueue queueLock]. rewrite sget_nil. cbn [default].
  rewrite updateRounds_single.
  destruct (getTreeLength t tree) as [t1 len] eqn:Hlength. cbn [snd].
  assert (Hcache : writeCache t1 = writeCache t).
  { unfold getTreeLength in Hlength. by injection Hlength as <- _. }
  rewrite Nat.ltb_irrefl, Nat.eqb_refl.
  rewrite insertLeaves_nil; [done|]. by rewrite Hcache.
Qed.


(** [queueLeaves] ahead of the tree: on a tree object with an empty queue
    and the lock free, a batch queued above the tree's length is not
    inserted; the call returns with the store as it was, the batch still in
    the queue and the lock free. *)
Theorem queueLeaves_ahead fuel t tree leaves startingIndex :
  (getTreeLength t tree).2 < startingIndex →
  0 < fuel →
  ∃ qt,
    queueLeaves fuel
      {| merkletree := t; writeQueue := []; queueLock := false |}
      tree leaves startingIndex
    = Returned qt
    ∧ db (merkletree qt) = db t
    ∧ (∃ queued, sget (writeQueue qt) tree = Some queued
                 ∧ sget queued startingIndex = Some leaves)
    ∧ queueLock qt = false.
Proof.
  intros Hahead Hfuel. destruct fuel as [|fuel]; [lia|].
  unfold queueLeaves, updateTrees.
  cbn [merkletree writeQueue queueLock]. rewrite sget_nil. cbn [default].
  rewrite updateRounds_single.
  destruct (getTreeLength t tree) as [t1 len] eqn:Hlength.
  assert (Hdb : db t1 = db t).
  { unfold getTreeLength in Hlength. by injection Hlength as <- _. }
  cbn [snd] in Hahead.
  destruct (Nat.ltb_spec startingIndex len) as [Hlt|_]; [lia|].
  destruct (Nat.eqb_spec startingIndex len) as [Heq|_]; [lia|].
  cbn [mbind outcome_bind]. eexists. split; [done|].
  cbn [merkletree writeQueue queueLock]. split; [done|]. split; [|done].
  eexists. split; apply sget_sset_eq.
Qed.

(** [queueLeaves] behind the tree: on a tree object with an empty queue and
    the lock free, a batch queued below the tree's length is deleted from
    the queue and not inserted; the call returns with the store as it was,
    no queue left for the tree and the lock free. *)
Theorem queueLeaves_behind fuel t tree leaves startingIndex :
  startingIndex < (getTreeLength t tree).2 →
  0 < fuel →
  ∃ qt,
    queueLeaves fuel
      {| merkletree := t; writeQueue := []; queueLock := false |}
      tree leaves startingIndex
    = Returned qt
    ∧ db (merkletree qt) = db t
    ∧ sget (writeQueue qt) tree = None
    ∧ queueLock qt = false.
Proof.
  intros Hbehind Hfuel. destruct fuel as [|fuel]; [lia|].
  unfold queueLeaves, updateTrees.
  cbn [merkletree writeQueue queueLock]. rewrite sget_nil. cbn [default].
  rewrite updateRounds_single.
  destruct (getTreeLength t tree) as [t1 len] eqn:Hlength.
  assert (Hdb : db t1 = db t).
  { unfold getTreeLength in Hlength. by injection Hlength as <- _. }
  cbn [snd] in Hbehind.
  destruct (Nat.ltb_spec startingIndex len) as [_|Hge]; [|lia].
  cbn [mbind outcome_bind]. eexists. split; [done|].
  cbn [merkletree writeQueue queueLock]. split; [done|].
  split; [apply sget_sdelete_eq|done].
Qed.

End Tree.

(** The tree and the reference root under the ideal hash. *)
Definition idealNew : gmap (list nat) digest → nat → nat → MerkleTree :=
  new idealPoseidon idealKeccak idealPrime idealHexlify.

Definition idealRoot : nat → list digest → digest :=
  merkleRoot idealPoseidon idealKeccak idealPrime idealHexlify.

(** C1. In a depth-16 tree over an empty store, inserting the batch of leaves
    1, 2 at index 0 and then the batch 3, 4, 5 at index 2 (the tree's length)
    leaves a root equal to the hash-up of the leaves 1, 2, 3, 4 alone: under
    the ideal hash it differs from the hash-up of the five inserted leaves. *)
Theorem insertLeaves_root_misses_leaf :
  (t ← insertBatches idealPoseidon (idealNew ∅ 1 16) 0
         [[Atom 1; Atom 2]; [Atom 3; Atom 4; Atom 5]];
   Returned (getRoot t 0))
  = Returned (Some (idealRoot 16 [Atom 1; Atom 2; Atom 3; Atom 4]))
  ∧ idealRoot 16 [Atom 1; Atom 2; Atom 3; Atom 4]
    ≠ idealRoot 16 [Atom 1; Atom 2; Atom 3; Atom 4; Atom 5].
Proof.
  split.
  - pose proof (insert_two_then_three idealPoseidon idealKeccak idealPrime
                  idealHexlify (Atom 1) (Atom 2) (Atom 3) (Atom 4) (Atom 5))
      as Hrun.
    fold idealNew in Hrun. fold idealRoot in Hrun.
    destruct (insertBatches idealPoseidon _ 0 _) as [t| |];
      cbn [mbind outcome_bind] in *; [|discriminate..].
    injection Hrun as -> _ _ _ _. reflexivity.
  - intros Heq.
    apply (f_equal (digest_eqb
             (idealRoot 16 [Atom 1; Atom 2; Atom 3; Atom 4]))) in Heq.
    vm_compute in Heq. discriminate.
Qed.

Lemma getRoot_empty_getNode_absent_witness :
  (getRoot (idealNew ∅ 1 16) 0 = zeroValues (idealNew ∅ 1 16) !! 16
   ∧ zeroValues (idealNew ∅ 1 16) !! 16
     = Some (Nat.iter 16 (fun x => idealPoseidon [x; x])
               (idealHexlify (idealKeccak "Railgun" mod idealPrime)%Z)))
  ∧ getNode (idealNew ∅ 1 16) 0 3 5 = zeroValues (idealNew ∅ 1 16) !! 3.
Proof.
  split.
  - apply (proj1 (getRoot_empty_getNode_absent idealPoseidon idealKeccak
                    idealPrime idealHexlify) ∅ 1 0).
    reflexivity.
  - apply (proj2 (getRoot_empty_getNode_absent idealPoseidon idealKeccak
                    idealPrime idealHexlify) (idealNew ∅ 1 16) 0 3 5).
    reflexivity.
Defined.

(** Two batches under the ideal hash: leaves 1, 2 at index 0, then leaves
    3, 4 at index 2. *)
Definition idealInserted : MerkleTree :=
  match insertLeaves idealPoseidon (idealNew ∅ 1 16) 0 [Atom 1; Atom 2] 0 with
  | Returned t => t
  | _ => idealNew ∅ 1 16
  end.

Definition idealInsertedAgain : MerkleTree :=
  match insertLeaves idealPoseidon idealInserted 0 [Atom 3; Atom 4] 2 with
  | Returned t => t
  | _ => idealInserted
  end.

Lemma insertLeaves_empty_throws_witness :
  insertLeaves idealPoseidon (idealNew ∅ 1 16) 0 [] 0 = TypeError
  ∧ ∀ fuel, 0 < fuel →
      queueLeaves idealPoseidon fuel
        {| merkletree := idealNew ∅ 1 16; writeQueue := [];
           queueLock := false |}
        0 [] (getTreeLength (idealNew ∅ 1 16) 0).2
      = TypeError.
Proof.
  apply (insertLeaves_empty_throws idealPoseidon (idealNew ∅ 1 16) 0 0).
  intros levels Hlevels. vm_compute in Hlevels. discriminate.
Defined.

(** A tree of depth 2 over hex strings, with stand-ins for the hash and for
    [hexlify]; three leaves are inserted at index 0. *)
Definition joinHash (inputs : list string) : string :=
  "h(" +:+ String.concat "," inputs +:+ ")".

Definition prefixHex (data : string) (prefix : bool) : string :=
  if prefix then "0x" +:+ data else data.

Definition textNew : MerkleTree :=
  new joinHash idealKeccak idealPrime HexString.of_Z ∅ 1 2.

Definition textInserted : MerkleTree :=
  match insertLeaves joinHash textNew 0
          (writeArray prefixHex ["01"; "02"; "03"]) 0 with
  | Returned t => t
  | _ => textNew
  end.

Example textInserted_leaves :
  writeArray prefixHex ["01"; "02"; "03"] = ["01"; "0x02"; "0x03"]
  ∧ getNode textInserted 0 0 0 = Some "01"
  ∧ getNode textInserted 0 0 2 = Some "0x03".
Proof. repeat split; vm_compute; reflexivity. Qed.

Lemma insertLeaves_persists_witness :
  (∀ i leaf, ["01"; "02"; "03"] !! i = Some leaf →
             getNode textInserted 0 0 (0 + i)
             = Some (prefixHex leaf (negb (i =? 0))))
  ∧ (getTreeLength textInserted 0).2 = 0 + length ["01"; "02"; "03"]
  ∧ sget (writeCache textInserted) 0 = Some [].
Proof.
  apply (insertLeaves_persists joinHash prefixHex textNew 0
           ["01"; "02"; "03"] 0 textInserted).
  - intros levels Hlevels. vm_compute in Hlevels. discriminate.
  - vm_compute. reflexivity.
Defined.

Lemma insertLeaves_frame_witness :
  (chainID idealInsertedAgain, depth idealInsertedAgain,
   zeroValues idealInsertedAgain)
  = (chainID idealInserted, depth idealInserted, zeroValues idealInserted)
  ∧ (∀ index, index < 2 →
       db idealInsertedAgain !! getNodeDBPath idealInserted 0 0 index
       = db idealInserted !! getNodeDBPath idealInserted 0 0 index)
  ∧ ∀ other, other ≠ 0 →
      (∀ level index,
         db idealInsertedAgain !! getNodeDBPath idealInserted other level index
         = db idealInserted !! getNodeDBPath idealInserted other level index)
      ∧ sget (treeLengthCache idealInsertedAgain) other
        = sget (treeLengthCache idealInserted) other
      ∧ sget (writeCache idealInsertedAgain) other
        = sget (writeCache idealInserted) other.
Proof.
  apply (insertLeaves_frame idealPoseidon idealInserted 0
           [Atom 3; Atom 4] 2 idealInsertedAgain).
  - intros levels Hlevels. vm_compute in Hlevels.
    injection Hlevels as <-. reflexivity.
  - vm_compute. reflexivity.
Defined.



Lemma queueLeaves_ahead_witness :
  ∃ qt,
    queueLeaves idealPoseidon 1
      {| merkletree := idealNew ∅ 1 16; writeQueue := []; queueLock := false |}
      0 [Atom 1] 3
    = Returned qt
    ∧ db (merkletree qt) = db (idealNew ∅ 1 16)
    ∧ (∃ queued, sget (writeQueue qt) 0 = Some queued
                 ∧ sget queued 3 = Some [Atom 1])
    ∧ queueLock qt = false.
Proof.
  apply (queueLeaves_ahead idealPoseidon 1 (idealNew ∅ 1 16) 0 [Atom 1] 3).
  - vm_compute. lia.
  - lia.
Defined.

Lemma queueLeaves_behind_witness :
  ∃ qt,
    queueLeaves idealPoseidon 1
      {| merkletree := idealInserted; writeQueue := []; queueLock := false |}
      0 [Atom 9] 1
    = Returned qt
    ∧ db (merkletree qt) = db idealInserted
    ∧ sget (writeQueue qt) 0 = None
    ∧ queueLock qt = false.
Proof.
  apply (queueLeaves_behind idealPoseidon 1 idealInserted 0 [Atom 9] 1).
  - vm_compute. lia.
  - lia.
Defined.

End Merkle.

(** * The wallet scanner *)

Module Scanner.

(** [Ciphertext = { iv, tag, data[] }]. *)
Record Ciphertext : Type := mkCiphertext {
  iv : string;
  tag : string;
  data : list string
}.

(** [NoteSerialized = { npk, token, value, encryptedRandom }]. *)
Record NoteSerialized : Type := mkNoteSerialized {
  npk : string;
  serializedToken : string;
  serializedValue : string;
  encryptedRandom : list string
}.

(** [Commitment]: the encrypted form carries [ciphertext.ciphertext] and
    [ciphertext.ephemeralKeys]; the other carries the preimage and
    [encryptedRandom]. *)
Inductive Commitment : Type :=
| EncryptedCommitment (hash leafTxid : string)
    (ciphertext : Ciphertext) (ephemeralKeys : string * string)
| GeneratedCommitment (hash leafTxid : string)
    (preimageNpk tokenAddress preimageValue : string)
    (leafEncryptedRandom : list string).

Definition commitmentTxid (leaf : Commitment) : string :=
  match leaf with
  | EncryptedCommitment _ t _ _ => t
  | GeneratedCommitment _ t _ _ _ _ => t
  end.

(** The record [scanLeaves] stores for a note of the wallet. *)
Record StoredCommitment : Type := mkStoredCommitment {
  storedSpendtxid : spend_status;
  storedTxid : string;
  nullifier : string;
  decrypted : NoteSerialized
}.

(** The wallet object: its id and keys. *)
Record Wallet : Type := mkWallet {
  id : string;
  viewingPrivateKey : Z;          (* #viewingKeyPair.privateKey *)
  walletViewingPublicKey : list Z;
  walletMasterPublicKey : Z
}.

#[global] Instance spend_status_eq_dec : EqDecision spend_status.
Proof. solve_decision. Defined.

(** [!txOutput.spendtxid]: [false] and the empty string are falsy. *)
Definition notTruthy (s : spend_status) : bool :=
  match s with
  | NotSpent => true
  | SpentIn EmptyString => true
  | SpentIn _ => false
  end.

(** Stand-ins for the external functions, used to run the scanner on
    concrete inputs. *)
Definition sumPoseidon (inputs : list Z) : Z :=
  fold_left (fun acc x => (acc * 1000003 + x + 1)%Z) inputs 7%Z.

Definition echoEncrypt (plaintext : list string) (key : string) : Ciphertext :=
  mkCiphertext key "" plaintext.

Definition echoDecrypt (c : Ciphertext) (key : string) : option (list string) :=
  if String.eqb (iv c) key then Some (data c) else None.

Definition plainRecord (r : StoredCommitment) : string :=
  nullifier r +:+ ":" +:+ storedTxid r +:+ ":" +:+ npk (decrypted r) +:+ ":"
    +:+ String.concat "," (encryptedRandom (decrypted r)).

Section Wallet.

(** [keysUtils.poseidon], the byte-string helpers of [utils/bytes],
    [encryption.getSharedKey] and [msgpack.encode] are not among the sources;
    they are parameters. *)
Variable poseidon : list Z → Z.
Variable nToHex : Z → string.
Variable hexToBigInt : string → Z.
Variable hexlify : string → bool → string.
Variable formatToByteLength : string → nat → bool → string.
Variable hexToBytes : string → string.
Variable getSharedKey : string → string → string.
Variable msgpack_encode : StoredCommitment → string.

(** Modelled from the spec: [encryption.aes.gcm.encrypt] and [decrypt], which
    are not among the sources. The spec lists AES-256-GCM
    [encrypt([plaintextChunks], key) → {iv, tag, data[]}] "and inverse" among
    the pure functions: the ciphertext is a function of the chunks and the
    key. A failed decryption throws; here it is [None]. *)
Variable aes_gcm_encrypt : list string → string → Ciphertext.
Variable aes_gcm_decrypt : Ciphertext → string → option (list string).

(** The [Note] constructor; [address] is [(masterPublicKey, viewingPublicKey)]. *)
Definition newNote (address : Z * list Z) (rnd : string) (v : Z) (tok : string)
    : Note :=
  {| viewingPublicKey := address.2;
     masterPublicKey := address.1;
     token := formatToByteLength tok 20 false;
     random := formatToByteLength rnd 16 false;
     value := v |}.

Definition valueHex (n : Note) : string :=
  formatToByteLength (nToHex (value n)) 16 false.

Definition notePublicKey (n : Note) : Z :=
  poseidon [masterPublicKey n; hexToBigInt (random n)].

(** [Note.decrypt]; [None] when the call throws (failed decryption, or fewer
    than three decrypted chunks). *)
Definition Note_decrypt (encryptedNote : Ciphertext) (sharedKey : string)
    : option Note :=
  match aes_gcm_decrypt encryptedNote sharedKey with
  | None => None
  | Some values =>
      let decryptedValues := map (fun v => hexlify v false) values in
      match decryptedValues !! 0, decryptedValues !! 1, decryptedValues !! 2 with
      | Some d0, Some d1, Some d2 =>
          Some (newNote (hexToBigInt d0, [])
                  (String.substring 0 32 d2)
                  (hexToBigInt (String.substring 32 64 d2))
                  d1)
      | _, _, _ => None
      end
  end.

(** [Note.deserialize]; [None] when the call throws. *)
Definition Note_deserialize (noteData : NoteSerialized) (vpk : Z)
    (recipient : Z * list Z) : option Note :=
  let er := map (fun r => hexlify r false) (encryptedRandom noteData) in
  match er !! 0, er !! 1 with
  | Some e0, Some e1 =>
      let ciphertext :=
        {| iv := String.substring 0 32 e0;
           tag := String.substring 32 (String.length e0 - 32) e0;
           data := [e1] |} in
      match aes_gcm_decrypt ciphertext (nToHex vpk) with
      | Some (decryptedRandom :: _) =>
          Some (newNote recipient (hexlify decryptedRandom false)
                  (hexToBigInt (serializedValue noteData))
                  (hexlify (serializedToken noteData) false))
      | _ => None
      end
  | _, _ => None
  end.

(** [Note.serialize(viewingPrivateKey, prefix)]; it throws when the
    ciphertext has no data chunk. *)
Definition Note_serialize (n : Note) (vpkHex : string) (prefix : bool)
    : outcome NoteSerialized :=
  let rnd := formatToByteLength (random n) 16 prefix in
  let encrypted := aes_gcm_encrypt [rnd] vpkHex in
  match data encrypted !! 0 with
  | None => TypeError
  | Some chunk =>
      let ivTag := hexlify (iv encrypted) true +:+ hexlify (tag encrypted) false in
      let dataHex := hexlify chunk true in
      Returned
        {| npk := formatToByteLength (nToHex (notePublicKey n)) 32 prefix;
           serializedToken := formatToByteLength (token n) 20 prefix;
           serializedValue := formatToByteLength (valueHex n) 16 prefix;
           encryptedRandom := map (fun v => hexlify v prefix) [ivTag; dataHex] |}
  end.

(** [Note.getNullifier(nullifyingKey, leafIndex)]. *)
Definition Note_getNullifier (nullifyingKey : Z) (leafIndex : nat) : Z :=
  poseidon [nullifyingKey; Z.of_nat leafIndex].

(** [Wallet.getNullifyingKey()]. *)
Definition getNullifyingKey (w : Wallet) : Z :=
  poseidon [viewingPrivateKey w].

Definition addressKeys (w : Wallet) : Z * list Z :=
  (walletMasterPublicKey w, walletViewingPublicKey w).

(** [getWalletDBPrefix(chainID, tree, position)]: the components after the
    wallet's own prefix ["wallet"; id]. *)
Definition getWalletDBPrefix (chain treeNumber pos : nat) : list nat :=
  [chain; treeNumber; pos].

(** The two decryption attempts of [scanLeaves], each inside its [try]. *)
Definition decryptLeaf (w : Wallet) (leaf : Commitment) : option Note :=
  let vpk := viewingPrivateKey w in
  match leaf with
  | EncryptedCommitment _ _ ciphertext ephemeralKeys =>
      let sharedKey := getSharedKey (nToHex vpk) ephemeralKeys.1 in
      Note_decrypt ciphertext (hexToBytes sharedKey)
  | GeneratedCommitment _ _ preimageNpk tokenAddress preimageValue er =>
      Note_deserialize
        (mkNoteSerialized preimageNpk tokenAddress preimageValue er)
        vpk (addressKeys w)
  end.

(** [storedCommitment] for a leaf whose note is ours. *)
Definition storedCommitment (w : Wallet) (leaf : Commitment) (pos : nat)
    (serialized : NoteSerialized) : StoredCommitment :=
  {| storedSpendtxid := NotSpent;
     storedTxid := hexlify (commitmentTxid leaf) false;
     nullifier := nToHex (Note_getNullifier (viewingPrivateKey w) pos);
     decrypted := serialized |}.

(** The loop of [scanLeaves] from [pos] on; a hole in [leaves] makes
    ['ciphertext' in leaf] throw. *)
Fixpoint scanLoop (w : Wallet) (treeNumber chain : nat)
    (leaves : sparse Commitment) (pos : nat) (writeBatch : list (list nat * string))
    : outcome (list (list nat * string)) :=
  match leaves with
  | [] => Returned writeBatch
  | None :: _ => TypeError
  | Some leaf :: rest =>
      match decryptLeaf w leaf with
      | None => scanLoop w treeNumber chain rest (S pos) writeBatch
      | Some n =>
          serialized ← Note_serialize n (nToHex (viewingPrivateKey w)) false;
          scanLoop w treeNumber chain rest (S pos)
            (writeBatch ++
             [(getWalletDBPrefix chain treeNumber pos,
               msgpack_encode (storedCommitment w leaf pos serialized))])
      end
  end.

(** [db.batch(writeBatch)]: the puts in order. *)
Definition dbBatch (database : gmap (list nat) string)
    (ops : list (list nat * string)) : gmap (list nat) string :=
  fold_left (fun d op => <[op.1 := op.2]> d) ops database.

(** [scanLeaves]: the store after the batch and whether any leaf was ours. *)
Definition scanLeaves (w : Wallet) (database : gmap (list nat) string)
    (leaves : sparse Commitment) (treeNumber chain : nat)
    : outcome (gmap (list nat) string * bool) :=
  writeBatch ← scanLoop w treeNumber chain leaves 0 [];
  Returned (dbBatch database writeBatch, 0 <? length writeBatch).

(** The aggregation of [balances(chainID)] over the list that
    [this.TXOs(chainID)] returned. The keys of the [Balances] object are
    64-digit hex strings. *)
Definition tokenKey (txOutput : TXO) : string :=
  formatToByteLength (token (note txOutput)) 32 false.

Definition addToBalance (txOutput : TXO) (b : TreeBalance) : TreeBalance :=
  {| balance := (balance b + value (note txOutput))%Z;
     utxos := utxos b ++ [txOutput] |}.

Definition balancesStep (balances : gmap string TreeBalance) (txOutput : TXO)
    : gmap string TreeBalance :=
  let tok := tokenKey txOutput in
  let balances :=
    match balances !! tok with
    | Some _ => balances
    | None => <[tok := {| balance := 0; utxos := [] |}]> balances
    end in
  if notTruthy (spendtxid txOutput)
  then alter (addToBalance txOutput) tok balances
  else balances.

Definition balances (TXOs : list TXO) : gmap string TreeBalance :=
  fold_left balancesStep TXOs ∅.

(** The spent check [TXOs(chainID)] makes on a stored record before it
    builds the TXO:
    [if (!UTXO.spendtxid) { nullifierTX = await getNullified(UTXO.nullifier);
       if (nullifierTX) UTXO.spendtxid = nullifierTX; }]. *)
Definition markSpent (getNullified : string → option string)
    (stored : StoredCommitment) : spend_status :=
  if notTruthy (storedSpendtxid stored) then
    match getNullified (nullifier stored) with
    | Some (String c rest) => SpentIn (String c rest)
    | _ => storedSpendtxid stored
    end
  else storedSpendtxid stored.

(** The unspent TXOs of a token, and the sum of their values. *)
Definition unspentOf (tok : string) (TXOs : list TXO) : list TXO :=
  filter (fun t => tokenKey t = tok ∧ spendtxid t = NotSpent) TXOs.

Definition sumValues (l : list TXO) : Z :=
  foldr (fun t acc => (value (note t) + acc)%Z) 0%Z l.

(** The value the last put on [k] in a batch writes, if any. *)
Fixpoint lastPut (ops : list (list nat * string)) (k : list nat) : option string :=
  match ops with
  | [] => None
  | op :: rest =>
      match lastPut rest k with
      | Some v => Some v
      | None => if decide (op.1 = k) then Some op.2 else None
      end
  end.

(** *** The store after a batch *)

Lemma dbBatch_lookup ops : ∀ (database : gmap (list nat) string) k,
  dbBatch database ops !! k
  = match lastPut ops k with
    | Some v => Some v
    | None => database !! k
    end.
Proof.
  induction ops as [|op rest IH]; intros database k; [reflexivity|].
  cbn [dbBatch fold_left lastPut]. fold (dbBatch (<[op.1 := op.2]> database) rest).
  rewrite IH. destruct (lastPut rest k); [reflexivity|].
  rewrite lookup_insert. destruct (decide (op.1 = k)); reflexivity.
Qed.

Lemma lastPut_elem_of ops k v : lastPut ops k = Some v → (k, v) ∈ ops.
Proof.
  induction ops as [|[k0 v0] rest IH]; [discriminate|].
  cbn [lastPut fst snd]. destruct (lastPut rest k) as [v1|].
  - intros [= ->]. right. by apply IH.
  - destruct (decide (k0 = k)) as [->|]; [|discriminate].
    intros [= ->]. left.
Qed.

Lemma lastPut_is_Some ops k v : (k, v) ∈ ops → is_Some (lastPut ops k).
Proof.
  induction ops as [|[k0 v0] rest IH]; intros Hin.
  - by apply elem_of_nil in Hin.
  - cbn [lastPut fst snd]. destruct (lastPut rest k) as [v1|] eqn:Hrest; [eauto|].
    apply elem_of_cons in Hin as [[= -> ->]|Hin].
    + rewrite decide_True by done. eauto.
    + apply IH in Hin as [? [=]].
Qed.

Lemma lastPut_unique ops k v :
  (k, v) ∈ ops → (∀ v', (k, v') ∈ ops → v' = v) → lastPut ops k = Some v.
Proof.
  intros Hin Hfun. destruct (lastPut_is_Some ops k v Hin) as [v1 Hv1].
  rewrite Hv1. f_equal. apply Hfun. by apply lastPut_elem_of.
Qed.

(** *** The batch of a scan *)

(** Every put of the batch comes from a leaf that decrypted, at the key of
    its position, and every such leaf has its put. *)
Lemma scanLoop_batch w treeNumber chain leaves :
  ∀ pos writeBatch result,
    scanLoop w treeNumber chain leaves pos writeBatch = Returned result →
    ∃ puts,
      result = writeBatch ++ puts
      ∧ (∀ k v, (k, v) ∈ puts →
           ∃ i leaf n serialized,
             leaves !! i = Some (Some leaf)
             ∧ decryptLeaf w leaf = Some n
             ∧ Note_serialize n (nToHex (viewingPrivateKey w)) false
               = Returned serialized
             ∧ k = getWalletDBPrefix chain treeNumber (pos + i)
             ∧ v = msgpack_encode (storedCommitment w leaf (pos + i) serialized))
      ∧ (∀ i leaf n,
           leaves !! i = Some (Some leaf) →
           decryptLeaf w leaf = Some n →
           ∃ serialized,
             Note_serialize n (nToHex (viewingPrivateKey w)) false
             = Returned serialized
             ∧ (getWalletDBPrefix chain treeNumber (pos + i),
                msgpack_encode (storedCommitment w leaf (pos + i) serialized))
               ∈ puts).
Proof.
  induction leaves as [|[leaf|] rest IH]; intros pos writeBatch result Hrun.
  - injection Hrun as <-. exists []. rewrite app_nil_r.
    split; [done|]. split.
    + intros k v Hin. by apply elem_of_nil in Hin.
    + intros i leaf n Hi. by destruct i.
  - cbn [scanLoop] in Hrun.
    destruct (decryptLeaf w leaf) as [n|] eqn:Hdec.
    + destruct (Note_serialize n (nToHex (viewingPrivateKey w)) false)
        as [serialized| |] eqn:Hser; cbn [mbind outcome_bind] in Hrun;
        try discriminate.
      apply IH in Hrun as (puts & -> & Hfrom & Hall).
      eexists (_ :: puts). split; [by rewrite <- app_assoc|]. split.
      * intros k v Hin. apply elem_of_cons in Hin as [Heq|Hin].
        -- injection Heq as -> ->. exists 0, leaf, n, serialized.
           rewrite Nat.add_0_r. done.
        -- apply Hfrom in Hin as (i & leaf' & n' & ser' & Hi & ? & ? & -> & ->).
           exists (S i), leaf', n', ser'.
           rewrite Nat.add_succ_r. done.
      * intros [|i] leaf' n' Hi Hdec'.
        -- injection Hi as <-. rewrite Hdec in Hdec'. injection Hdec' as <-.
           exists serialized. split; [done|]. rewrite Nat.add_0_r. left.
        -- destruct (Hall i leaf' n' Hi Hdec') as (ser' & Hser' & Hin).
           exists ser'. split; [done|]. rewrite Nat.add_succ_r. by right.
    + apply IH in Hrun as (puts & -> & Hfrom & Hall).
      exists puts. split; [done|]. split.
      * intros k v Hin.
        apply Hfrom in Hin as (i & leaf' & n' & ser' & Hi & ? & ? & -> & ->).
        exists (S i), leaf', n', ser'. rewrite Nat.add_succ_r. done.
      * intros [|i] leaf' n' Hi Hdec'.
        -- injection Hi as <-. rewrite Hdec in Hdec'. discriminate.
        -- destruct (Hall i leaf' n' Hi Hdec') as (ser' & Hser' & Hin).
           exists ser'. split; [done|]. by rewrite Nat.add_succ_r.
  - discriminate.
Qed.

(** C3. For a leaf at position [p] that [scanLeaves] decrypts, the record
    persisted at the key of [p] has the nullifier field
    [nToHex(Poseidon(viewingPrivateKey, p))]: [Note.getNullifier] is called
    with the viewing private key itself, not with the nullifying key
    [Poseidon(viewingPrivateKey)] that [getNullifyingKey] computes. *)
Theorem scanLeaves_nullifier w database leaves treeNumber chain database' found
    p leaf n :
  scanLeaves w database leaves treeNumber chain = Returned (database', found) →
  leaves !! p = Some (Some leaf) →
  decryptLeaf w leaf = Some n →
  ∃ serialized,
    Note_serialize n (nToHex (viewingPrivateKey w)) false = Returned serialized
    ∧ database' !! getWalletDBPrefix chain treeNumber p
      = Some (msgpack_encode (storedCommitment w leaf p serialized))
    ∧ nullifier (storedCommitment w leaf p serialized)
      = nToHex (poseidon [viewingPrivateKey w; Z.of_nat p]).
Proof.
  unfold scanLeaves. intros Hscan Hleaf Hdec.
  destruct (scanLoop w treeNumber chain leaves 0 []) as [result| |] eqn:Hrun;
    cbn [mbind outcome_bind] in Hscan; try discriminate.
  injection Hscan as <- _.
  apply scanLoop_batch in Hrun as (puts & -> & Hfrom & Hall).
  destruct (Hall p leaf n Hleaf Hdec) as (serialized & Hser & Hin).
  cbn [Nat.add app] in Hin, Hfrom |- *.
  exists serialized. split; [done|]. split; [|reflexivity].
  rewrite dbBatch_lookup, (lastPut_unique _ _ _ Hin); [reflexivity|].
  intros v' Hv'.
  apply Hfrom in Hv' as (i & leaf' & n' & ser' & Hi & Hdec' & Hser' & Hk & ->).
  injection Hk as <-.
  rewrite Hleaf in Hi. injection Hi as <-.
  rewrite Hdec in Hdec'. injection Hdec' as <-.
  rewrite Hser in Hser'. by injection Hser' as <-.
Qed.

(** *** Balances *)

Lemma balances_snoc TXOs txOutput :
  balances (TXOs ++ [txOutput]) = balancesStep (balances TXOs) txOutput.
Proof. unfold balances. by rewrite fold_left_app. Qed.

Lemma sumValues_snoc l t :
  sumValues (l ++ [t]) = (sumValues l + value (note t))%Z.
Proof.
  induction l as [|x xs IH]; cbn [sumValues foldr app] in *; [lia|].
  fold (sumValues (xs ++ [t])). fold (sumValues xs). rewrite IH. lia.
Qed.

Lemma unspentOf_snoc tok l t :
  unspentOf tok (l ++ [t])
  = unspentOf tok l
    ++ (if decide (tokenKey t = tok ∧ spendtxid t = NotSpent) then [t] else []).
Proof.
  unfold unspentOf. rewrite filter_app, filter_cons, filter_nil. reflexivity.
Qed.

Lemma unspentOf_no_token tok l :
  existsb (fun t => String.eqb (tokenKey t) tok) l = false →
  unspentOf tok l = [].
Proof.
  induction l as [|x xs IH]; [reflexivity|]. cbn [existsb].
  intros [Hx Hxs]%orb_false_iff. apply String.eqb_neq in Hx.
  unfold unspentOf. rewrite filter_cons, decide_False by (by intros [? _]).
  by apply IH.
Qed.

Lemma notTruthy_NotSpent s :
  s ≠ SpentIn "" → notTruthy s = true ↔ s = NotSpent.
Proof.
  intros Hne. destruct s as [|[|c rest]]; cbn [notTruthy]; split;
    try done; by intros.
Qed.

(** [scanLeaves] stores [spendtxid: false] and the spent check only ever
    replaces it by a non-empty transaction id, so no TXO carries the empty
    string. *)
Lemma markSpent_not_empty getNullified stored :
  storedSpendtxid stored ≠ SpentIn "" →
  markSpent getNullified stored ≠ SpentIn "".
Proof.
  intros Hstored. unfold markSpent.
  destruct (notTruthy (storedSpendtxid stored)); [|done].
  destruct (getNullified (nullifier stored)) as [[|c rest]|]; done.
Qed.

(** C8. Let [TXOs] be the list [this.TXOs(chainID)] returns, in which a spent
    TXO carries the (non-empty) id of the spending transaction. For every
    token key, the [Balances] object has an entry exactly when some TXO has
    that token; its [utxos] are the TXOs of the token whose [spendtxid] is
    [false], in order, and its [balance] is the sum of their note values.
    Spent TXOs add to neither. *)
Theorem balances_unspent (TXOs : list TXO) (tok : string) :
  Forall (fun t => spendtxid t ≠ SpentIn "") TXOs →
  balances TXOs !! tok
  = if existsb (fun t => String.eqb (tokenKey t) tok) TXOs
    then Some {| balance := sumValues (unspentOf tok TXOs);
                 utxos := unspentOf tok TXOs |}
    else None.
Proof.
  induction TXOs as [|t l IH] using rev_ind; intros Hwf; [reflexivity|].
  apply Forall_app in Hwf as [Hl Ht]. apply Forall_inv in Ht.
  specialize (IH Hl).
  rewrite balances_snoc, existsb_app, unspentOf_snoc. cbn [existsb].
  rewrite orb_false_r. unfold balancesStep.
  destruct (String.eqb_spec (tokenKey t) tok) as [Heq|Hne].
  - rewrite orb_true_r, Heq.
    set (entry := {| balance := sumValues (unspentOf tok l);
                     utxos := unspentOf tok l |}).
    assert (Hentry :
      match balances l !! tok with
      | Some _ => balances l
      | None => <[tok := {| balance := 0; utxos := [] |}]> (balances l)
      end !! tok = Some entry).
    { rewrite IH.
      destruct (existsb _ l) eqn:Hex.
      - exact IH.
      - rewrite lookup_insert_eq. unfold entry.
        by rewrite (unspentOf_no_token _ _ Hex). }
    destruct (notTruthy (spendtxid t)) eqn:Hfalsy.
    + apply (notTruthy_NotSpent _ Ht) in Hfalsy.
      rewrite lookup_alter_eq, Hentry, decide_True by done.
      cbn [fmap option_fmap option_map]. unfold addToBalance, entry.
      cbn [balance utxos]. by rewrite sumValues_snoc.
    + rewrite Hentry, decide_False, app_nil_r; [done|].
      intros [_ Hns]. apply (notTruthy_NotSpent _ Ht) in Hns. congruence.
  - rewrite orb_false_r, decide_False, app_nil_r by (by intros [? _]).
    assert (Hother :
      match balances l !! tokenKey t with
      | Some _ => balances l
      | None => <[tokenKey t := {| balance := 0; utxos := [] |}]> (balances l)
      end !! tok = balances l !! tok).
    { destruct (balances l !! tokenKey t); [done|].
      by rewrite lookup_insert_ne. }
    destruct (notTruthy (spendtxid t)).
    + by rewrite lookup_alter_ne, Hother, IH.
    + by rewrite Hother, IH.
Qed.

(** ** Further properties of the scanner *)

Lemma lastPut_None ops k : (∀ v, (k, v) ∉ ops) → lastPut ops k = None.
Proof.
  intros Hnot. destruct (lastPut ops k) as [v|] eqn:Hlast; [|done].
  by apply lastPut_elem_of, Hnot in Hlast.
Qed.

(** If a scan returns, it reports a find exactly when some leaf decrypted,
    and it changed the store at no key other than those of the positions
    whose leaf decrypted: a leaf that is not ours leaves no record. *)
Theorem scanLeaves_only_own w database leaves treeNumber chain database' found :
  scanLeaves w database leaves treeNumber chain = Returned (database', found) →
  (found = true ↔
   ∃ p leaf n, leaves !! p = Some (Some leaf) ∧ decryptLeaf w leaf = Some n)
  ∧ ∀ k,
      (∀ p leaf n,
          leaves !! p = Some (Some leaf) → decryptLeaf w leaf = Some n →
          k ≠ getWalletDBPrefix chain treeNumber p) →
      database' !! k = database !! k.
Proof.
  unfold scanLeaves. intros Hscan.
  destruct (scanLoop w treeNumber chain leaves 0 []) as [result| |] eqn:Hrun;
    cbn [mbind outcome_bind] in Hscan; try discriminate.
  injection Hscan as <- <-.
  apply scanLoop_batch in Hrun as (puts & -> & Hfrom & Hall).
  cbn [app Nat.add] in *. split; [split|].
  - intros Hfound. destruct puts as [|[k v] puts]; [discriminate|].
    destruct (Hfrom k v) as (i & leaf & n & _ & Hi & Hdec & _); [left|].
    by exists i, leaf, n.
  - intros (p & leaf & n & Hp & Hdec).
    destruct (Hall p leaf n Hp Hdec) as (serialized & _ & Hin).
    by destruct puts; [apply elem_of_nil in Hin|].
  - intros k Hk. rewrite dbBatch_lookup, lastPut_None; [done|].
    intros v Hv.
    apply Hfrom in Hv as (i & leaf & n & _ & Hi & Hdec & _ & -> & _).
    by apply (Hk i leaf n).
Qed.

(** A hole in [leaves] makes the scan throw, whatever the other leaves are;
    nothing is written, the batch being put only after the loop. *)
Lemma scanLoop_hole w treeNumber chain leaves :
  None ∈ leaves →
  ∀ pos writeBatch,
    ∃ message, scanLoop w treeNumber chain leaves pos writeBatch = Thrown message.
Proof.
  induction leaves as [|[leaf|] rest IH]; intros Hin pos writeBatch.
  - by apply elem_of_nil in Hin.
  - apply elem_of_cons in Hin as [?|Hin]; [discriminate|].
    cbn [scanLoop]. destruct (decryptLeaf w leaf) as [n|]; [|by apply IH].
    destruct (Note_serialize n (nToHex (viewingPrivateKey w)) false)
      as [serialized|e|] eqn:Hser; cbn [mbind outcome_bind];
      [by apply IH|by eexists|].
    unfold Note_serialize in Hser.
    by destruct (data (aes_gcm_encrypt _ _) !! 0).
  - by eexists.
Qed.

Theorem scanLeaves_hole_throws w database leaves treeNumber chain :
  None ∈ leaves →
  ∃ message, scanLeaves w database leaves treeNumber chain = Thrown message.
Proof.
  intros Hin. unfold scanLeaves.
  destruct (scanLoop_hole w treeNumber chain leaves Hin 0 []) as [message ->].
  by exists message.
Qed.

(** When every entry of [leaves] is a commitment and the encryption of a
    one-chunk plaintext gives a ciphertext with a data chunk, the scan
    returns: a leaf that fails to decrypt is skipped, it does not end the
    scan. *)
Theorem scanLeaves_returns w database leaves treeNumber chain :
  Forall is_Some leaves →
  (∀ plaintext key, data (aes_gcm_encrypt [plaintext] key) ≠ []) →
  ∃ database' found,
    scanLeaves w database leaves treeNumber chain = Returned (database', found).
Proof.
  intros Hdense Hchunk. unfold scanLeaves.
  assert (Hloop : ∀ pos writeBatch,
             ∃ result,
               scanLoop w treeNumber chain leaves pos writeBatch = Returned result).
  { induction Hdense as [|leaf rest [c ->] _ IH]; intros pos writeBatch;
      [by eexists|].
    cbn [scanLoop]. destruct (decryptLeaf w c) as [n|]; [|apply IH].
    unfold Note_serialize.
    destruct (data (aes_gcm_encrypt _ _)) as [|chunk chunks] eqn:Hdata;
      [by apply Hchunk in Hdata|].
    cbn [lookup list_lookup mbind outcome_bind]. apply IH. }
  destruct (Hloop 0 []) as [result ->]. cbn [mbind outcome_bind]. by eexists _, _.
Qed.

(** ** [balancesByTree] *)

(** The body of [balances[token].utxos.forEach] in [balancesByTree]: the
    token's array, indexed by tree, gets a new entry or the entry of the
    UTXO's tree grows. *)
Definition addToTree (byTree : sparse TreeBalance) (utxo : TXO)
    : sparse TreeBalance :=
  match sget byTree (tree utxo) with
  | None =>
      sset byTree (tree utxo)
        {| balance := value (note utxo); utxos := [utxo] |}
  | Some b =>
      sset byTree (tree utxo)
        {| balance := (balance b + value (note utxo))%Z;
           utxos := utxos b ++ [utxo] |}
  end.

(** [balancesByTree(chainID)], from the list [this.TXOs(chainID)] returned. *)
Definition balancesByTree (TXOs : list TXO) : gmap string (sparse TreeBalance) :=
  (fun b => fold_left addToTree (utxos b) []) <$> balances TXOs.

Lemma addToTree_fold (l : list TXO) (tr : nat) :
  sget (fold_left addToTree l []) tr
  = match filter (fun u => tree u = tr) l with
    | [] => None
    | u :: us =>
        Some {| balance := sumValues (u :: us); utxos := u :: us |}
    end.
Proof.
  induction l as [|x l IH] using rev_ind; [by destruct tr|].
  rewrite fold_left_app, filter_app, filter_cons, filter_nil.
  cbn [fold_left]. unfold addToTree at 1.
  destruct (decide (tree x = tr)) as [<-|Hne].
  - rewrite IH.
    destruct (filter (fun u => tree u = tree x) l) as [|u us] eqn:Hf.
    + rewrite sget_sset_eq. cbn [app sumValues foldr]. do 3 f_equal. lia.
    + rewrite sget_sset_eq. cbn [balance utxos app].
      pose proof (sumValues_snoc (u :: us) x) as Hsum.
      cbn [app] in Hsum. by rewrite Hsum.
  - rewrite app_nil_r.
    destruct (sget (fold_left addToTree l []) (tree x));
      by rewrite sget_sset_ne.
Qed.

(** For a token with an entry in [balances], the entry of tree [tr] in
    [balancesByTree] holds the token's unspent UTXOs whose tree is [tr], in
    their order, and the sum of their values; where there is none the array
    has a hole. A token without an entry in [balances] has none here. *)
Theorem balancesByTree_partition (TXOs : list TXO) (tok : string) (tr : nat) :
  match balances TXOs !! tok with
  | Some b =>
      ∃ byTree,
        balancesByTree TXOs !! tok = Some byTree
        ∧ sget byTree tr
          = match filter (fun u => tree u = tr) (utxos b) with
            | [] => None
            | u :: us =>
                Some {| balance := sumValues (u :: us); utxos := u :: us |}
            end
  | None => balancesByTree TXOs !! tok = None
  end.
Proof.
  unfold balancesByTree. rewrite lookup_fmap.
  destruct (balances TXOs !! tok) as [b|]; [|done].
  eexists. split; [done|]. apply addToTree_fold.
Qed.

(** ** [scan] *)

(** The wallet's mutable state: the scan locks, the store, and the wallet
    details ([treeScannedHeights]) persisted per chain. *)
Record WalletState : Type := mkWalletState {
  scanLockPerChain : sparse bool;
  walletStore : gmap (list nat) string;
  walletDetails : gmap nat (list nat)
}.

(** The leaves [scan] hands to [scanLeaves] for a tree of length [len]:
    [fetcher = new Array(len)] is filled from [scannedHeight] on, awaited,
    and every [undefined] entry is deleted. *)
Definition fetchLeaves (getCommitment : nat → nat → option Commitment)
    (treeNumber scannedHeight len : nat) : sparse Commitment :=
  map (fun index =>
         if scannedHeight <=? index then getCommitment treeNumber index
         else None)
      (seq 0 len).

(** The loop of [scan] over the trees in [trees]; [Some message] is the
    error of a [scanLeaves] that threw. *)
Fixpoint scanTrees (w : Wallet) (getTreeLength : nat → nat)
    (getCommitment : nat → nat → option Commitment) (chain : nat)
    (trees : list nat) (database : gmap (list nat) string) (heights : list nat)
    : gmap (list nat) string * list nat * option string :=
  match trees with
  | [] => (database, heights, None)
  | treeNumber :: rest =>
      let scannedHeight := default 0 (heights !! treeNumber) in
      let leaves :=
        fetchLeaves getCommitment treeNumber scannedHeight
          (getTreeLength treeNumber) in
      match scanLeaves w database leaves treeNumber chain with
      | Returned (database', _) =>
          scanTrees w getTreeLength getCommitment chain rest database'
            (<[treeNumber := length leaves - 1]> heights)
      | Thrown e => (database, heights, Some e)
      | OutOfFuel => (database, heights, Some "")
      end
  end.

(** [scan(chainID)] against a merkletree whose [latestTree()],
    [getTreeLength(tree)] and [getCommitment(tree, index)] are given. It
    returns the state it leaves and the error it threw, if any. *)
Definition scan (w : Wallet) (latestTree : nat) (getTreeLength : nat → nat)
    (getCommitment : nat → nat → option Commitment) (chain : nat)
    (st : WalletState) : WalletState * option string :=
  match sget (scanLockPerChain st) chain with
  | Some true => (st, None)
  | _ =>
      let locked := sset (scanLockPerChain st) chain true in
      let stored := default [] (walletDetails st !! chain) in
      let heights :=
        stored ++ replicate (latestTree + 1 - length stored) 0 in
      match scanTrees w getTreeLength getCommitment chain
              (seq 0 (length heights)) (walletStore st) heights with
      | (database, heights', None) =>
          ({| scanLockPerChain := sset locked chain false;
              walletStore := database;
              walletDetails := <[chain := heights']> (walletDetails st) |},
           None)
      | (database, _, Some e) =>
          ({| scanLockPerChain := locked;
              walletStore := database;
              walletDetails := walletDetails st |}, Some e)
      end
  end.

Lemma length_fetchLeaves getCommitment treeNumber scannedHeight len :
  length (fetchLeaves getCommitment treeNumber scannedHeight len) = len.
Proof. unfold fetchLeaves. by rewrite length_map, length_seq. Qed.

Lemma fetchLeaves_hole getCommitment treeNumber scannedHeight len :
  1 ≤ scannedHeight → 1 ≤ len →
  None ∈ fetchLeaves getCommitment treeNumber scannedHeight len.
Proof.
  intros Hh Hlen. unfold fetchLeaves.
  destruct len as [|len]; [lia|]. cbn [seq map].
  destruct (Nat.leb_spec scannedHeight 0) as [Hle|_]; [lia|]. constructor.
Qed.

(** After the loop ran through, every tree of [trees] has its scanned height
    set from the tree's length, and no other entry changed. *)
Lemma scanTrees_heights w getTreeLength getCommitment chain trees :
  ∀ database heights database' heights',
    NoDup trees →
    scanTrees w getTreeLength getCommitment chain trees database heights
    = (database', heights', None) →
    length heights' = length heights
    ∧ (∀ t, t ∈ trees → t < length heights →
            heights' !! t = Some (getTreeLength t - 1))
    ∧ (∀ t, t ∉ trees → heights' !! t = heights !! t).
Proof.
  induction trees as [|a rest IH]; intros database heights database' heights'
    Hnodup Hrun; cbn [scanTrees] in Hrun.
  - injection Hrun as <- <-. split; [done|]. split; [|done].
    intros t Ht. by apply elem_of_nil in Ht.
  - apply NoDup_cons in Hnodup as [Hnotin Hnodup].
    destruct (scanLeaves w database _ a chain) as [[database1 found]| |];
      [|discriminate|discriminate].
    apply IH in Hrun as (Hlen & Hin & Hout); [|done].
    rewrite length_insert in Hlen, Hin. rewrite length_fetchLeaves in Hout.
    split; [done|]. split.
    + intros t Ht Hlt. apply elem_of_cons in Ht as [->|Ht]; [|by apply Hin].
      rewrite Hout by done. by apply list_lookup_insert_eq.
    + intros t Ht. apply not_elem_of_cons in Ht as [Hne Ht].
      rewrite Hout by done. by apply list_lookup_insert_ne.
Qed.

(** A tree of [trees] with a scanned height of one or more and at least one
    leaf makes the loop throw, at that tree or before. *)
Lemma scanTrees_hole w getTreeLength getCommitment chain trees :
  ∀ database heights t h,
    t ∈ trees → heights !! t = Some h → 1 ≤ h → 1 ≤ getTreeLength t →
    ∃ database' heights' message,
      scanTrees w getTreeLength getCommitment chain trees database heights
      = (database', heights', Some message).
Proof.
  induction trees as [|a rest IH]; intros database heights t h Hin Hh Hpos Hlen;
    [by apply elem_of_nil in Hin|].
  cbn [scanTrees]. destruct (decide (a = t)) as [->|Hne].
  - rewrite Hh. unfold default, from_option, Datatypes.id. unfold scanLeaves.
    destruct (scanLoop_hole w t chain _
                (fetchLeaves_hole getCommitment t h _ Hpos Hlen) 0 [])
      as [message ->].
    cbn [mbind outcome_bind]. by eexists _, _, _.
  - apply elem_of_cons in Hin as [->|Hin]; [done|].
    destruct (scanLeaves w database _ a chain) as [[database1 found]| |];
      [|by eexists _, _, _|by eexists _, _, _].
    apply (IH _ _ t h); [done| |done|done]. by rewrite list_lookup_insert_ne.
Qed.

(** A [scan] of an unlocked chain that returns leaves the chain unlocked and
    persists one scanned height per tree, as many as were stored or as the
    merkletree has trees, whichever is more; the height of every tree is its
    length less one, and zero for an empty tree. The details of other chains
    are as before. *)
Theorem scan_heights w latestTree getTreeLength getCommitment chain st st' :
  sget (scanLockPerChain st) chain ≠ Some true →
  scan w latestTree getTreeLength getCommitment chain st = (st', None) →
  ∃ heights',
    walletDetails st' !! chain = Some heights'
    ∧ length heights'
      = length (default [] (walletDetails st !! chain)) `max` (latestTree + 1)
    ∧ (∀ t, t < length heights' → heights' !! t = Some (getTreeLength t - 1))
    ∧ sget (scanLockPerChain st') chain = Some false
    ∧ ∀ c, c ≠ chain → walletDetails st' !! c = walletDetails st !! c.
Proof.
  intros Hfree Hscan. unfold scan in Hscan.
  set (stored := default [] (walletDetails st !! chain)) in *.
  set (heights := stored ++ replicate (latestTree + 1 - length stored) 0) in *.
  assert (Hrest :
    match scanTrees w getTreeLength getCommitment chain
            (seq 0 (length heights)) (walletStore st) heights with
    | (database, heights', None) =>
        ({| scanLockPerChain :=
              sset (sset (scanLockPerChain st) chain true) chain false;
            walletStore := database;
            walletDetails := <[chain := heights']> (walletDetails st) |},
         None)
    | (database, _, Some e) =>
        ({| scanLockPerChain := sset (scanLockPerChain st) chain true;
            walletStore := database;
            walletDetails := walletDetails st |}, Some e)
    end = (st', None)).
  { destruct (sget (scanLockPerChain st) chain) as [[|]|]; done. }
  clear Hscan.
  destruct (scanTrees w getTreeLength getCommitment chain
              (seq 0 (length heights)) (walletStore st) heights)
    as [[database heights'] [e|]] eqn:Hrun; [discriminate|].
  injection Hrest as <-. cbn [walletDetails scanLockPerChain].
  apply scanTrees_heights in Hrun as (Hlen & Hin & _); [|apply NoDup_seq].
  exists heights'. rewrite lookup_insert_eq, sget_sset_eq.
  assert (Hheights : length heights = length stored `max` (latestTree + 1)).
  { unfold heights. rewrite length_app, length_replicate. lia. }
  split; [done|]. split; [by rewrite Hlen|]. split.
  - intros t Ht. apply Hin; [apply elem_of_seq|]; lia.
  - split; [done|]. intros c Hc. by rewrite lookup_insert_ne.
Qed.

(** A [scan] of an unlocked chain for which a scanned height of one or more
    is stored for a tree that has a leaf throws: the leaves below the scanned
    height are holes when they reach [scanLeaves]. The chain is left locked
    and the stored details as they were, so every later [scan] of the chain
    returns at once and changes nothing. *)
Theorem scan_stale_height_throws w latestTree getTreeLength getCommitment chain
    st heights t h :
  sget (scanLockPerChain st) chain ≠ Some true →
  walletDetails st !! chain = Some heights →
  heights !! t = Some h → 1 ≤ h → 1 ≤ getTreeLength t →
  ∃ st' message,
    scan w latestTree getTreeLength getCommitment chain st = (st', Some message)
    ∧ sget (scanLockPerChain st') chain = Some true
    ∧ walletDetails st' = walletDetails st
    ∧ ∀ latestTree' getTreeLength' getCommitment',
        scan w latestTree' getTreeLength' getCommitment' chain st' = (st', None).
Proof.
  intros Hfree Hstored Hh Hpos Hlen. unfold scan at 1. rewrite Hstored.
  unfold default, from_option, Datatypes.id.
  set (heights0 := heights ++ replicate (latestTree + 1 - length heights) 0).
  destruct (scanTrees_hole w getTreeLength getCommitment chain
              (seq 0 (length heights0)) (walletStore st) heights0 t h)
    as (database' & heights' & message & Hrun); [| |done|done|].
  { apply elem_of_seq. apply lookup_lt_Some in Hh. unfold heights0.
    rewrite length_app. lia. }
  { unfold heights0. by apply lookup_app_l_Some. }
  rewrite Hrun.
  eexists _, message. split.
  { destruct (sget (scanLockPerChain st) chain) as [[|]|]; done. }
  cbn [scanLockPerChain walletDetails]. rewrite sget_sset_eq.
  split; [done|]. split; [done|].
  intros latestTree' getTreeLength' getCommitment'. unfold scan.
  cbn [scanLockPerChain]. by rewrite sget_sset_eq.
Qed.

(** Scanning twice: after a [scan] of an unlocked chain returned, with two or
    more leaves in the first tree, the next [scan] of the chain throws as
    soon as that tree has a leaf, and leaves the chain locked. *)
Theorem scan_twice_throws w latestTree getTreeLength getCommitment
    latestTree' getTreeLength' getCommitment' chain st st1 :
  sget (scanLockPerChain st) chain ≠ Some true →
  scan w latestTree getTreeLength getCommitment chain st = (st1, None) →
  2 ≤ getTreeLength 0 → 1 ≤ getTreeLength' 0 →
  ∃ st2 message,
    scan w latestTree' getTreeLength' getCommitment' chain st1
    = (st2, Some message)
    ∧ sget (scanLockPerChain st2) chain = Some true.
Proof.
  intros Hfree Hscan Htwo Hone. unfold scan in Hscan.
  set (stored := default [] (walletDetails st !! chain)) in *.
  set (heights := stored ++ replicate (latestTree + 1 - length stored) 0) in *.
  assert (Hheights : 1 ≤ length heights).
  { unfold heights. rewrite length_app, length_replicate. lia. }
  destruct (sget (scanLockPerChain st) chain) as [[|]|] eqn:Hlock; [done| |];
    ( destruct (scanTrees w getTreeLength getCommitment chain
                  (seq 0 (length heights)) (walletStore st) heights)
        as [[database heights1] [e|]] eqn:Hrun; [discriminate|];
      injection Hscan as <-;
      apply scanTrees_heights in Hrun as (Hlen & Hin & _); [|apply NoDup_seq];
      unfold scan; cbn [scanLockPerChain walletDetails walletStore];
      rewrite sget_sset_eq, lookup_insert_eq; unfold default, from_option, Datatypes.id;
      set (heights2 :=
             heights1 ++ replicate (latestTree' + 1 - length heights1) 0);
      destruct (scanTrees_hole w getTreeLength' getCommitment' chain
                  (seq 0 (length heights2)) database heights2 0
                  (getTreeLength 0 - 1))
        as (database2 & heights3 & message & Hrun2);
      [ apply elem_of_seq; unfold heights2; rewrite length_app; lia
      | unfold heights2; apply lookup_app_l_Some, Hin;
          [apply elem_of_seq|]; lia
      | lia | done | ];
      rewrite Hrun2; eexists _, message; split; [done|];
      cbn [scanLockPerChain]; by rewrite sget_sset_eq ).
Qed.

(** ** What a scan stores *)

(** If a scan returns: it reports a find exactly when some leaf decrypted;
    for every leaf that decrypted, the store holds at the key of its
    position the encoded record made of the leaf, the position and the
    serialized note; and no other key changed. *)
Lemma scanLeaves_store w database leaves treeNumber chain database' found :
  scanLeaves w database leaves treeNumber chain = Returned (database', found) →
  (found = true ↔
   ∃ p leaf n, leaves !! p = Some (Some leaf) ∧ decryptLeaf w leaf = Some n)
  ∧ (∀ p leaf n,
       leaves !! p = Some (Some leaf) → decryptLeaf w leaf = Some n →
       ∃ serialized,
         Note_serialize n (nToHex (viewingPrivateKey w)) false
         = Returned serialized
         ∧ database' !! getWalletDBPrefix chain treeNumber p
           = Some (msgpack_encode (storedCommitment w leaf p serialized)))
  ∧ ∀ k,
      (∀ p leaf n,
          leaves !! p = Some (Some leaf) → decryptLeaf w leaf = Some n →
          k ≠ getWalletDBPrefix chain treeNumber p) →
      database' !! k = database !! k.
Proof.
  unfold scanLeaves. intros Hscan.
  destruct (scanLoop w treeNumber chain leaves 0 []) as [result| |] eqn:Hrun;
    cbn [mbind outcome_bind] in Hscan; try discriminate.
  injection Hscan as <- <-.
  apply scanLoop_batch in Hrun as (puts & -> & Hfrom & Hall).
  cbn [app Nat.add] in *. split; [split|split].
  - intros Hfound. destruct puts as [|[k v] puts]; [discriminate|].
    destruct (Hfrom k v) as (i & leaf & n & _ & Hi & Hdec & _); [left|].
    by exists i, leaf, n.
  - intros (p & leaf & n & Hp & Hdec).
    destruct (Hall p leaf n Hp Hdec) as (serialized & _ & Hin).
    by destruct puts; [apply elem_of_nil in Hin|].
  - intros p leaf n Hleaf Hdec.
    destruct (Hall p leaf n Hleaf Hdec) as (serialized & Hser & Hin).
    exists serialized. split; [done|].
    rewrite dbBatch_lookup, (lastPut_unique _ _ _ Hin); [reflexivity|].
    intros v' Hv'.
    apply Hfrom in Hv' as (i & leaf' & n' & ser' & Hi & Hdec' & Hser' & Hk & ->).
    injection Hk as <-.
    rewrite Hleaf in Hi. injection Hi as <-.
    rewrite Hdec in Hdec'. injection Hdec' as <-.
    rewrite Hser in Hser'. by injection Hser' as <-.
  - intros k Hk. rewrite dbBatch_lookup, lastPut_None; [done|].
    intros v Hv.
    apply Hfrom in Hv as (i & leaf & n & _ & Hi & Hdec & _ & -> & _).
    by apply (Hk i leaf n).
Qed.

(** The fields of a serialized note other than [encryptedRandom] do not come
    from the ciphertext. *)
Lemma Note_serialize_fields n vpkHex prefix serialized :
  Note_serialize n vpkHex prefix = Returned serialized →
  npk serialized = formatToByteLength (nToHex (notePublicKey n)) 32 prefix
  ∧ serializedToken serialized = formatToByteLength (token n) 20 prefix
  ∧ serializedValue serialized = formatToByteLength (valueHex n) 16 prefix.
Proof.
  unfold Note_serialize.
  destruct (data (aes_gcm_encrypt _ _) !! 0); [|discriminate].
  by intros [= <-].
Qed.

End Wallet.

(** ** Scanning again

    [Note.serialize] takes the IV and the tag it stores in [encryptedRandom]
    from the result of [encrypt] (note.ts:129-131): the caller passes the
    random and the key, and does not choose the IV. What [encrypt] returned
    during the first scan and what it returns during the second are
    therefore two functions of the chunks and the key, [firstEncrypt] and
    [secondEncrypt]; for an [encrypt] that draws no IV they are the same. *)
Section Rescan.

Variable poseidon : list Z → Z.
Variable nToHex : Z → string.
Variable hexToBigInt : string → Z.
Variable hexlify : string → bool → string.
Variable formatToByteLength : string → nat → bool → string.
Variable hexToBytes : string → string.
Variable getSharedKey : string → string → string.
Variable msgpack_encode : StoredCommitment → string.
Variable aes_gcm_decrypt : Ciphertext → string → option (list string).
Variable firstEncrypt : list string → string → Ciphertext.
Variable secondEncrypt : list string → string → Ciphertext.

#[local] Abbreviation scanWith encrypt :=
  (scanLeaves poseidon nToHex hexToBigInt hexlify formatToByteLength
     hexToBytes getSharedKey msgpack_encode encrypt aes_gcm_decrypt).
#[local] Abbreviation serializeWith encrypt :=
  (Note_serialize poseidon nToHex hexToBigInt hexlify formatToByteLength
     encrypt).
#[local] Abbreviation decrypts :=
  (decryptLeaf nToHex hexToBigInt hexlify formatToByteLength hexToBytes
     getSharedKey aes_gcm_decrypt).
#[local] Abbreviation stored := (storedCommitment poseidon nToHex hexlify).

(** C6. When a scan of [leaves] for [(chain, tree)] and then a second scan of
    the same leaves on the resulting store both return: the second scan
    reports what the first reported; both leave every key alone that is not
    the key of a position whose leaf decrypted; and at the key of such a
    position each scan stores the record of the leaf, the position and the
    note as serialized in that scan. The two records have the same spend
    mark, txid and nullifier and the same [npk], [token] and [value]; the
    stored value is the same in both when [encrypt] returned the same
    ciphertext for the note's random in both scans. *)
Theorem scanLeaves_rescan w database leaves treeNumber chain
    database1 found1 database2 found2 :
  scanWith firstEncrypt w database leaves treeNumber chain
  = Returned (database1, found1) →
  scanWith secondEncrypt w database1 leaves treeNumber chain
  = Returned (database2, found2) →
  found2 = found1
  ∧ (∀ k,
       (∀ p leaf n,
          leaves !! p = Some (Some leaf) → decrypts w leaf = Some n →
          k ≠ getWalletDBPrefix chain treeNumber p) →
       database1 !! k = database !! k ∧ database2 !! k = database !! k)
  ∧ ∀ p leaf n,
      leaves !! p = Some (Some leaf) → decrypts w leaf = Some n →
      ∃ serialized1 serialized2,
        serializeWith firstEncrypt n (nToHex (viewingPrivateKey w)) false
        = Returned serialized1
        ∧ serializeWith secondEncrypt n (nToHex (viewingPrivateKey w)) false
          = Returned serialized2
        ∧ database1 !! getWalletDBPrefix chain treeNumber p
          = Some (msgpack_encode (stored w leaf p serialized1))
        ∧ database2 !! getWalletDBPrefix chain treeNumber p
          = Some (msgpack_encode (stored w leaf p serialized2))
        ∧ npk serialized2 = npk serialized1
        ∧ serializedToken serialized2 = serializedToken serialized1
        ∧ serializedValue serialized2 = serializedValue serialized1
        ∧ (secondEncrypt [formatToByteLength (random n) 16 false]
             (nToHex (viewingPrivateKey w))
           = firstEncrypt [formatToByteLength (random n) 16 false]
               (nToHex (viewingPrivateKey w)) →
           database2 !! getWalletDBPrefix chain treeNumber p
           = database1 !! getWalletDBPrefix chain treeNumber p).
Proof.
  intros Hfirst Hsecond.
  apply scanLeaves_store in Hfirst as (Hfound1 & Hkeys1 & Hrest1).
  apply scanLeaves_store in Hsecond as (Hfound2 & Hkeys2 & Hrest2).
  split; [|split].
  - destruct found1, found2; try done.
    + by apply Hfound2, Hfound1.
    + symmetry. by apply Hfound1, Hfound2.
  - intros k Hk. split; [by apply Hrest1|].
    rewrite Hrest2 by done. by apply Hrest1.
  - intros p leaf n Hleaf Hdec.
    destruct (Hkeys1 p leaf n Hleaf Hdec) as (serialized1 & Hser1 & Hdb1).
    destruct (Hkeys2 p leaf n Hleaf Hdec) as (serialized2 & Hser2 & Hdb2).
    exists serialized1, serialized2.
    destruct (Note_serialize_fields _ _ _ _ _ _ _ _ _ _ Hser1)
      as (Hnpk1 & Htoken1 & Hvalue1).
    destruct (Note_serialize_fields _ _ _ _ _ _ _ _ _ _ Hser2)
      as (Hnpk2 & Htoken2 & Hvalue2).
    do 4 (split; [done|]).
    split; [by rewrite Hnpk1, Hnpk2|]. split; [by rewrite Htoken1, Htoken2|].
    split; [by rewrite Hvalue1, Hvalue2|].
    intros Hsame. rewrite Hdb1, Hdb2. do 3 f_equal.
    unfold Note_serialize in Hser1, Hser2. rewrite Hsame in Hser2.
    rewrite Hser1 in Hser2. by injection Hser2.
Qed.

End Rescan.

(** *** A concrete run

    The scanner with stand-ins for the external functions: numbers are
    printed in hexadecimal, byte-string helpers keep their argument, and the
    stand-in cipher opens only under the key it was made with. *)
Definition demoScan :=
  scanLeaves sumPoseidon HexString.of_Z HexString.to_Z
    (fun s _ => s) (fun s _ _ => s) (fun s => s) (fun a _ => a)
    plainRecord echoEncrypt echoDecrypt.

Definition demoDecrypt :=
  decryptLeaf HexString.of_Z HexString.to_Z
    (fun s _ => s) (fun s _ _ => s) (fun s => s) (fun a _ => a) echoDecrypt.

Definition demoWallet : Wallet := mkWallet "w" 5 [] 9.

(** A generated commitment whose random is encrypted for [demoWallet], and an
    encrypted commitment for somebody else. *)
Definition ownLeaf : Commitment :=
  GeneratedCommitment "c0" "tx0" "npk0" "70" "0x2a" ["0x5"; "0xabcd"].

Definition foreignLeaf : Commitment :=
  EncryptedCommitment "c1" "tx1" (mkCiphertext "0x7" "" ["1"; "2"; "3"])
    ("e0", "e1").

Definition ownNote : Note := mkNote [] 9 "70" "0xabcd" 42.

Definition demoStore : gmap (list nat) string :=
  match demoScan demoWallet ∅ [Some foreignLeaf; Some ownLeaf] 0 1 with
  | Returned (d, _) => d
  | _ => ∅
  end.

Example demoScan_result :
  demoScan demoWallet ∅ [Some foreignLeaf; Some ownLeaf] 0 1
  = Returned (demoStore, true)
  ∧ demoDecrypt demoWallet foreignLeaf = None
  ∧ demoDecrypt demoWallet ownLeaf = Some ownNote.
Proof. repeat split; vm_compute; reflexivity. Qed.

Definition demoStored :=
  storedCommitment sumPoseidon HexString.of_Z (fun s _ => s).

Definition demoSerialize :=
  Note_serialize sumPoseidon HexString.of_Z HexString.to_Z
    (fun s _ => s) (fun s _ _ => s) echoEncrypt.

Lemma scanLeaves_nullifier_witness :
  ∃ serialized,
    demoSerialize ownNote (HexString.of_Z 5) false = Returned serialized
    ∧ demoStore !! getWalletDBPrefix 1 0 1
      = Some (plainRecord (demoStored demoWallet ownLeaf 1 serialized))
    ∧ nullifier (demoStored demoWallet ownLeaf 1 serialized)
      = HexString.of_Z (sumPoseidon [5%Z; Z.of_nat 1]).
Proof.
  apply (scanLeaves_nullifier sumPoseidon HexString.of_Z HexString.to_Z
           (fun s _ => s) (fun s _ _ => s) (fun s => s) (fun a _ => a)
           plainRecord echoEncrypt echoDecrypt
           demoWallet ∅ [Some foreignLeaf; Some ownLeaf] 0 1 demoStore true
           1 ownLeaf ownNote);
    vm_compute; reflexivity.
Defined.

(** In this run the stored nullifier is not the one computed from the
    nullifying key. *)
Example demo_nullifier_differs :
  HexString.of_Z (Note_getNullifier sumPoseidon (viewingPrivateKey demoWallet) 1)
  ≠ HexString.of_Z
      (Note_getNullifier sumPoseidon (getNullifyingKey sumPoseidon demoWallet) 1).
Proof. vm_compute. discriminate. Qed.

(** A stand-in cipher that returns another IV than [echoEncrypt]; the
    stand-in decryption does not open it, which no scan needs. *)
Definition otherIvEncrypt (plaintext : list string) (key : string) : Ciphertext :=
  mkCiphertext "0x9" "" plaintext.

Definition demoRescan :=
  scanLeaves sumPoseidon HexString.of_Z HexString.to_Z
    (fun s _ => s) (fun s _ _ => s) (fun s => s) (fun a _ => a)
    plainRecord otherIvEncrypt echoDecrypt.

Definition demoSerializeAgain :=
  Note_serialize sumPoseidon HexString.of_Z HexString.to_Z
    (fun s _ => s) (fun s _ _ => s) otherIvEncrypt.

Definition demoRestore : gmap (list nat) string :=
  match demoRescan demoWallet demoStore [Some foreignLeaf; Some ownLeaf] 0 1 with
  | Returned (d, _) => d
  | _ => ∅
  end.

(** A scan, and a second scan in which [encrypt] returns another IV: both
    store a record at the key of position 1, and the two values differ. *)
Lemma scanLeaves_rescan_counterexample :
  demoScan demoWallet ∅ [Some foreignLeaf; Some ownLeaf] 0 1
  = Returned (demoStore, true)
  ∧ demoRescan demoWallet demoStore [Some foreignLeaf; Some ownLeaf] 0 1
    = Returned (demoRestore, true)
  ∧ demoStore !! getWalletDBPrefix 1 0 1 = Some "0x65dd35fdc53:tx0:0x65dd39d912b:0x5,0xabcd"
  ∧ demoRestore !! getWalletDBPrefix 1 0 1 = Some "0x65dd35fdc53:tx0:0x65dd39d912b:0x9,0xabcd".
Proof. repeat split; vm_compute; reflexivity. Qed.

Lemma scanLeaves_rescan_witness :
  true = true
  ∧ (∀ k,
       (∀ p leaf n,
          [Some foreignLeaf; Some ownLeaf] !! p = Some (Some leaf) →
          demoDecrypt demoWallet leaf = Some n →
          k ≠ getWalletDBPrefix 1 0 p) →
       demoStore !! k = (∅ : gmap (list nat) string) !! k
       ∧ demoRestore !! k = (∅ : gmap (list nat) string) !! k)
  ∧ ∀ p leaf n,
      [Some foreignLeaf; Some ownLeaf] !! p = Some (Some leaf) →
      demoDecrypt demoWallet leaf = Some n →
      ∃ serialized1 serialized2,
        demoSerialize n (HexString.of_Z (viewingPrivateKey demoWallet)) false
        = Returned serialized1
        ∧ demoSerializeAgain n (HexString.of_Z (viewingPrivateKey demoWallet))
            false
          = Returned serialized2
        ∧ demoStore !! getWalletDBPrefix 1 0 p
          = Some (plainRecord (demoStored demoWallet leaf p serialized1))
        ∧ demoRestore !! getWalletDBPrefix 1 0 p
          = Some (plainRecord (demoStored demoWallet leaf p serialized2))
        ∧ npk serialized2 = npk serialized1
        ∧ serializedToken serialized2 = serializedToken serialized1
        ∧ serializedValue serialized2 = serializedValue serialized1
        ∧ (otherIvEncrypt [random n]
             (HexString.of_Z (viewingPrivateKey demoWallet))
           = echoEncrypt [random n]
               (HexString.of_Z (viewingPrivateKey demoWallet)) →
           demoRestore !! getWalletDBPrefix 1 0 p
           = demoStore !! getWalletDBPrefix 1 0 p).
Proof.
  apply (scanLeaves_rescan sumPoseidon HexString.of_Z HexString.to_Z
           (fun s _ => s) (fun s _ _ => s) (fun s => s) (fun a _ => a)
           plainRecord echoDecrypt echoEncrypt otherIvEncrypt
           demoWallet ∅ [Some foreignLeaf; Some ownLeaf] 0 1
           demoStore true demoRestore true);
    vm_compute; reflexivity.
Defined.

Lemma scanLeaves_only_own_witness :

  (true = true
   ↔ ∃ p leaf n,
       [Some foreignLeaf; Some ownLeaf] !! p = Some (Some leaf)
       ∧ demoDecrypt demoWallet leaf = Some n)
  ∧ ∀ k,
      (∀ p leaf n,
         [Some foreignLeaf; Some ownLeaf] !! p = Some (Some leaf) →
         demoDecrypt demoWallet leaf = Some n →
         k ≠ getWalletDBPrefix 1 0 p) →
      demoStore !! k = (∅ : gmap (list nat) string) !! k.
Proof.
  apply (scanLeaves_only_own sumPoseidon HexString.of_Z HexString.to_Z
           (fun s _ => s) (fun s _ _ => s) (fun s => s) (fun a _ => a)
           plainRecord echoEncrypt echoDecrypt
           demoWallet ∅ [Some foreignLeaf; Some ownLeaf] 0 1 demoStore true).
  vm_compute. reflexivity.
Defined.

Lemma scanLeaves_hole_throws_witness :
  ∃ message, demoScan demoWallet ∅ [None; Some ownLeaf] 0 1 = Thrown message.
Proof.
  apply (scanLeaves_hole_throws sumPoseidon HexString.of_Z HexString.to_Z
           (fun s _ => s) (fun s _ _ => s) (fun s => s) (fun a _ => a)
           plainRecord echoEncrypt echoDecrypt
           demoWallet ∅ [None; Some ownLeaf] 0 1).
  apply elem_of_cons. by left.
Defined.

Lemma scanLeaves_returns_witness :
  ∃ database' found,
    demoScan demoWallet ∅ [Some foreignLeaf; Some ownLeaf] 0 1
    = Returned (database', found).
Proof.
  apply (scanLeaves_returns sumPoseidon HexString.of_Z HexString.to_Z
           (fun s _ => s) (fun s _ _ => s) (fun s => s) (fun a _ => a)
           plainRecord echoEncrypt echoDecrypt
           demoWallet ∅ [Some foreignLeaf; Some ownLeaf] 0 1).
  - do 2 (constructor; [by eexists|]). constructor.
  - intros plaintext key. vm_compute. discriminate.
Defined.

(** A merkletree of one tree with two leaves, and a wallet that has not
    scanned yet. *)
Definition demoCommitment (treeNumber index : nat) : option Commitment :=
  match treeNumber, index with
  | 0, 0 => Some foreignLeaf
  | 0, 1 => Some ownLeaf
  | _, _ => None
  end.

Definition demoTreeLength (treeNumber : nat) : nat :=
  match treeNumber with 0 => 2 | _ => 0 end.

Definition demoState : WalletState := mkWalletState [] ∅ ∅.

Definition demoScanChain :=
  scan sumPoseidon HexString.of_Z HexString.to_Z
    (fun s _ => s) (fun s _ _ => s) (fun s => s) (fun a _ => a)
    plainRecord echoEncrypt echoDecrypt
    demoWallet 0 demoTreeLength demoCommitment 1.

Definition demoScanned : WalletState :=
  mkWalletState [None; Some false] demoStore {[ 1 := [1] ]}.

Example demoScanChain_result :
  demoScanChain demoState = (demoScanned, None)
  ∧ ∃ message,
      demoScanChain demoScanned
      = (mkWalletState [None; Some true] demoStore {[ 1 := [1] ]},
         Some message).
Proof. split; [|eexists]; vm_compute; reflexivity. Qed.

Lemma scan_heights_witness :
  ∃ heights',
    walletDetails demoScanned !! 1 = Some heights'
    ∧ length heights'
      = length (default [] (walletDetails demoState !! 1)) `max` (0 + 1)
    ∧ (∀ t, t < length heights' → heights' !! t = Some (demoTreeLength t - 1))
    ∧ sget (scanLockPerChain demoScanned) 1 = Some false
    ∧ ∀ c, c ≠ 1 → walletDetails demoScanned !! c = walletDetails demoState !! c.
Proof.
  apply (scan_heights sumPoseidon HexString.of_Z HexString.to_Z
           (fun s _ => s) (fun s _ _ => s) (fun s => s) (fun a _ => a)
           plainRecord echoEncrypt echoDecrypt
           demoWallet 0 demoTreeLength demoCommitment 1 demoState demoScanned).
  - vm_compute. discriminate.
  - vm_compute. reflexivity.
Defined.

Lemma scan_stale_height_throws_witness :
  ∃ st' message,
    demoScanChain demoScanned = (st', Some message)
    ∧ sget (scanLockPerChain st') 1 = Some true
    ∧ walletDetails st' = walletDetails demoScanned
    ∧ ∀ latestTree' getTreeLength' getCommitment',
        scan sumPoseidon HexString.of_Z HexString.to_Z
          (fun s _ => s) (fun s _ _ => s) (fun s => s) (fun a _ => a)
          plainRecord echoEncrypt echoDecrypt
          demoWallet latestTree' getTreeLength' getCommitment' 1 st'
        = (st', None).
Proof.
  apply (scan_stale_height_throws sumPoseidon HexString.of_Z HexString.to_Z
           (fun s _ => s) (fun s _ _ => s) (fun s => s) (fun a _ => a)
           plainRecord echoEncrypt echoDecrypt
           demoWallet 0 demoTreeLength demoCommitment 1 demoScanned [1] 0 1).
  - vm_compute. discriminate.
  - vm_compute. reflexivity.
  - reflexivity.
  - lia.
  - vm_compute. lia.
Defined.

Lemma scan_twice_throws_witness :
  ∃ st2 message,
    demoScanChain demoScanned = (st2, Some message)
    ∧ sget (scanLockPerChain st2) 1 = Some true.
Proof.
  apply (scan_twice_throws sumPoseidon HexString.of_Z HexString.to_Z
           (fun s _ => s) (fun s _ _ => s) (fun s => s) (fun a _ => a)
           plainRecord echoEncrypt echoDecrypt
           demoWallet 0 demoTreeLength demoCommitment
           0 demoTreeLength demoCommitment 1 demoState demoScanned).
  - vm_compute. discriminate.
  - vm_compute. reflexivity.
  - vm_compute. lia.
  - vm_compute. lia.
Defined.

Definition demoTXOs : list TXO :=
  [ mkTXO 0 0 0 "t0" NotSpent (mkNote [] 9 "abc" "r0" 30);
    mkTXO 0 1 0 "t1" (SpentIn "0xfe") (mkNote [] 9 "abc" "r1" 40);
    mkTXO 0 2 0 "t2" NotSpent (mkNote [] 9 "def" "r2" 5);
    mkTXO 0 3 0 "t3" NotSpent (mkNote [] 9 "abc" "r3" 12) ].

Lemma balances_unspent_witness :
  balances (fun s _ _ => s) demoTXOs !! "abc"
  = Some {| balance := 42;
            utxos := [ mkTXO 0 0 0 "t0" NotSpent (mkNote [] 9 "abc" "r0" 30);
                       mkTXO 0 3 0 "t3" NotSpent (mkNote [] 9 "abc" "r3" 12) ] |}.
Proof.
  rewrite (balances_unspent (fun s _ _ => s) demoTXOs "abc").
  - reflexivity.
  - repeat constructor; discriminate.
Defined.

(** The unspent UTXOs of the run above, by token and tree. *)
Example demo_balancesByTree :
  let more :=
    demoTXOs ++ [mkTXO 2 0 0 "t4" NotSpent (mkNote [] 9 "abc" "r4" 8)] in
  (balancesByTree (fun s _ _ => s) more !! "abc"
   = Some [ Some {| balance := 42;
                    utxos := [ mkTXO 0 0 0 "t0" NotSpent (mkNote [] 9 "abc" "r0" 30);
                               mkTXO 0 3 0 "t3" NotSpent (mkNote [] 9 "abc" "r3" 12) ] |};
            None;
            Some {| balance := 8;
                    utxos := [ mkTXO 2 0 0 "t4" NotSpent (mkNote [] 9 "abc" "r4" 8) ] |} ])
  ∧ balancesByTree (fun s _ _ => s) more !! "0xfe" = None.
Proof. split; vm_compute; reflexivity. Qed.

End Scanner.

(** * The wallet of [src/wallet] *)

Module HDWallet.

(** [WalletDetails]. *)
Record WalletDetails : Type := mkWalletDetails {
  treeScannedHeights : list nat;
  primaryHeight : nat;
  changeHeight : nat
}.

(** The wallet object's state that [scan] reads and writes: the scan lock and
    the details stored per chain. *)
Record WalletState : Type := mkWalletState {
  scanLock : bool;
  storedDetails : gmap nat WalletDetails
}.

Section Wallet.

(** Key derivation, [babyjubjub.ecdh] and [Note.ERC20.decrypt] are not among
    the sources. [addressedTo index change commitment] stands for the body of
    the callback of [scanIndex] on a commitment: whether the note decrypted
    under the shared key has the public key of the keypair at
    [(index, change)]; it may throw. *)
Context {Commitment : Type}.
Variable addressedTo : nat → bool → Commitment → outcome bool.

(** [scanIndex(index, change, commitments)]: the callback reads
    [commitment.senderPublicKey], which throws on [undefined]. *)
Fixpoint scanIndex (index : nat) (change : bool)
    (commitments : list (option Commitment)) : outcome (list bool) :=
  match commitments with
  | [] => Returned []
  | None :: _ => TypeError
  | Some commitment :: rest =>
      own ← addressedTo index change commitment;
      others ← scanIndex index change rest;
      Returned (own :: others)
  end.

(** [hasAsset] in [findWalletHighestIndex]: the change keypair is scanned
    first, then the primary one. *)
Definition hasAsset (index : nat) (commitments : list (option Commitment))
    : outcome bool :=
  ofChange ← scanIndex index true commitments;
  ofPrimary ← scanIndex index false commitments;
  Returned (existsb (fun own => own) (ofChange ++ ofPrimary)).

(** The loop of [findWalletHighestIndex]; its bound moves with
    [updatedWalletDetails.primaryHeight], the test compares with
    [walletDetails.primaryHeight]. *)
Fixpoint highestIndexLoop (fuel : nat) (walletDetails updated : WalletDetails)
    (commitments : list (option Commitment)) (index : nat)
    : outcome WalletDetails :=
  match fuel with
  | O => OutOfFuel
  | S fuel' =>
      if index <? primaryHeight updated + 20 then
        asset ← hasAsset index commitments;
        let updated' :=
          if asset && (primaryHeight walletDetails <? index)
          then {| treeScannedHeights := treeScannedHeights updated;
                  primaryHeight := index;
                  changeHeight := changeHeight updated |}
          else updated in
        highestIndexLoop fuel' walletDetails updated' commitments (S index)
      else Returned updated
  end.

Definition findWalletHighestIndex (fuel : nat) (walletDetails : WalletDetails)
    (commitments : list (option Commitment)) : outcome WalletDetails :=
  highestIndexLoop fuel walletDetails walletDetails commitments 0.

(** [getWalletDetails(chainID)]: the stored details, or the defaults. *)
Definition getWalletDetails (st : WalletState) (chain : nat) : WalletDetails :=
  default {| treeScannedHeights := []; primaryHeight := 0; changeHeight := 0 |}
          (storedDetails st !! chain).

(** [while (await merkletree.getTreeLength(heights.length) !== 0)
       heights[heights.length] = 0]. *)
Fixpoint growHeights (fuel : nat) (getTreeLength : nat → nat)
    (heights : list nat) : outcome (list nat) :=
  match fuel with
  | O => OutOfFuel
  | S fuel' =>
      if getTreeLength (length heights) =? 0 then Returned heights
      else growHeights fuel' getTreeLength (heights ++ [0])
  end.

(** The callback of [treeScannedHeights.map] in [scan]. [new Array(n)] throws
    for a negative [n]; [map] skips the holes of the new array, so
    [getCommitment] is not called and [Promise.all] gives [n] times
    [undefined]. *)
Definition scanTree (fuel : nat) (getTreeLength : nat → nat)
    (walletDetails : WalletDetails) (scannedHeight tree : nat)
    : outcome (WalletDetails * nat) :=
  let treeLength := getTreeLength tree in
  if treeLength <? scannedHeight then Thrown "RangeError"
  else
    let leaves : list (option Commitment) :=
      replicate (treeLength - scannedHeight) None in
    walletDetails' ← findWalletHighestIndex fuel walletDetails leaves;
    Returned (walletDetails', scannedHeight + length leaves).

(** The callbacks share [walletDetails] only; they are run by ascending
    tree. *)
Fixpoint scanTreesFrom (fuel : nat) (getTreeLength : nat → nat)
    (walletDetails : WalletDetails) (heights : list nat) (tree : nat)
    : outcome (WalletDetails * list nat) :=
  match heights with
  | [] => Returned (walletDetails, [])
  | scannedHeight :: rest =>
      '(walletDetails1, height) ←
        scanTree fuel getTreeLength walletDetails scannedHeight tree;
      '(walletDetails2, heights') ←
        scanTreesFrom fuel getTreeLength walletDetails1 rest (S tree);
      Returned (walletDetails2, height :: heights')
  end.

(** [scan(merkletree)], for a merkletree of chain [chain] whose
    [getTreeLength] is given. It returns the state it leaves and how the
    call ended. *)
Definition scan (fuel : nat) (chain : nat) (getTreeLength : nat → nat)
    (st : WalletState) : WalletState * outcome unit :=
  if scanLock st then (st, Returned ())
  else
    let locked := {| scanLock := true; storedDetails := storedDetails st |} in
    let walletDetails := getWalletDetails st chain in
    match
      heights ← growHeights fuel getTreeLength
                  (treeScannedHeights walletDetails);
      scanTreesFrom fuel getTreeLength
        {| treeScannedHeights := heights;
           primaryHeight := primaryHeight walletDetails;
           changeHeight := changeHeight walletDetails |} heights 0
    with
    | Returned (walletDetails', heights') =>
        ({| scanLock := false;
            storedDetails :=
              <[chain := {| treeScannedHeights := heights';
                            primaryHeight := primaryHeight walletDetails';
                            changeHeight := changeHeight walletDetails' |}]>
                (storedDetails st) |}, Returned ())
    | Thrown e => (locked, Thrown e)
    | OutOfFuel => (locked, OutOfFuel)
    end.

(** ** [findWalletHighestIndex] *)

Lemma highestIndexLoop_invariant walletDetails commitments fuel :
  ∀ updated index result,
    primaryHeight walletDetails ≤ primaryHeight updated →
    (primaryHeight updated = primaryHeight walletDetails
     ∨ hasAsset (primaryHeight updated) commitments = Returned true) →
    (∀ j, primaryHeight updated < j < index →
          hasAsset j commitments = Returned false) →
    highestIndexLoop fuel walletDetails updated commitments index
    = Returned result →
    treeScannedHeights result = treeScannedHeights updated
    ∧ changeHeight result = changeHeight updated
    ∧ primaryHeight walletDetails ≤ primaryHeight result
    ∧ (primaryHeight result = primaryHeight walletDetails
       ∨ hasAsset (primaryHeight result) commitments = Returned true)
    ∧ ∀ j, primaryHeight result < j < primaryHeight result + 20 →
           hasAsset j commitments = Returned false.
Proof.
  induction fuel as [|fuel IH]; intros updated index result Hle Hown Hgap Hrun;
    [discriminate|].
  cbn [highestIndexLoop] in Hrun.
  destruct (Nat.ltb_spec index (primaryHeight updated + 20)) as [Hlt|Hge].
  - destruct (hasAsset index commitments) as [asset| |] eqn:Hasset;
      cbn [mbind outcome_bind] in Hrun; [|discriminate..].
    destruct asset; cbn [andb] in Hrun.
    + destruct (Nat.ltb_spec (primaryHeight walletDetails) index) as [Hnew|Hold].
      * apply IH in Hrun; cbn [primaryHeight treeScannedHeights changeHeight]
          in *; [done|lia|by right|].
        intros j Hj. lia.
      * apply IH in Hrun; [done..|]. intros j Hj.
        apply Hgap. lia.
    + apply IH in Hrun; [done..|]. intros j Hj.
      destruct (decide (j = index)) as [->|Hne]; [done|]. apply Hgap. lia.
  - injection Hrun as <-. repeat split; try done. intros j Hj. apply Hgap. lia.
Qed.

(** If [findWalletHighestIndex] returns, it changed nothing but
    [primaryHeight]; the new primary height is the old one, or an index above
    it at which a commitment is addressed to the wallet; and none is at the
    19 indices that follow it. *)
Theorem findWalletHighestIndex_gap fuel walletDetails commitments result :
  findWalletHighestIndex fuel walletDetails commitments = Returned result →
  treeScannedHeights result = treeScannedHeights walletDetails
  ∧ changeHeight result = changeHeight walletDetails
  ∧ primaryHeight walletDetails ≤ primaryHeight result
  ∧ (primaryHeight result = primaryHeight walletDetails
     ∨ hasAsset (primaryHeight result) commitments = Returned true)
  ∧ ∀ j, primaryHeight result < j < primaryHeight result + 20 →
         hasAsset j commitments = Returned false.
Proof.
  intros Hrun. unfold findWalletHighestIndex in Hrun.
  apply highestIndexLoop_invariant in Hrun; [done|lia|by left|].
  intros j Hj. lia.
Qed.

Lemma highestIndexLoop_returns walletDetails commitments limit fuel :
  (∀ index, ∃ asset, hasAsset index commitments = Returned asset) →
  (∀ index, limit ≤ index → hasAsset index commitments = Returned false) →
  ∀ updated index,
    primaryHeight updated ≤ primaryHeight walletDetails `max` limit →
    primaryHeight walletDetails `max` limit + 20 - index < fuel →
    ∃ result,
      highestIndexLoop fuel walletDetails updated commitments index
      = Returned result.
Proof.
  intros Hruns Hlimit.
  induction fuel as [|fuel IH]; intros updated index Hle Hfuel; [lia|].
  cbn [highestIndexLoop].
  destruct (Nat.ltb_spec index (primaryHeight updated + 20)) as [Hlt|Hge];
    [|by eexists].
  destruct (Hruns index) as [asset Hasset]. rewrite Hasset.
  cbn [mbind outcome_bind]. apply IH; [|lia].
  destruct asset; cbn [andb]; [|done].
  destruct (Nat.ltb_spec (primaryHeight walletDetails) index); [|done].
  cbn [primaryHeight].
  destruct (decide (limit ≤ index)) as [Hbeyond|Hwithin]; [|lia].
  rewrite (Hlimit index Hbeyond) in Hasset. discriminate.
Qed.

(** [findWalletHighestIndex] returns when no scan of an index throws and no
    commitment is addressed to the wallet from some index on (the fuel covers
    that index, the stored primary height and the gap of 20). *)
Theorem findWalletHighestIndex_returns fuel walletDetails commitments limit :
  (∀ index, ∃ asset, hasAsset index commitments = Returned asset) →
  (∀ index, limit ≤ index → hasAsset index commitments = Returned false) →
  primaryHeight walletDetails `max` limit + 20 < fuel →
  ∃ result,
    findWalletHighestIndex fuel walletDetails commitments = Returned result.
Proof.
  intros Hruns Hlimit Hfuel. unfold findWalletHighestIndex.
  eapply highestIndexLoop_returns; [done|done|lia|lia].
Qed.

(** ** [scan] *)

(** Without commitments the search returns the details it was given. *)
Lemma highestIndexLoop_nil walletDetails fuel :
  ∀ updated index,
    primaryHeight updated + 20 - index < fuel →
    highestIndexLoop fuel walletDetails updated [] index = Returned updated.
Proof.
  induction fuel as [|fuel IH]; intros updated index Hfuel; [lia|].
  cbn [highestIndexLoop].
  destruct (Nat.ltb_spec index (primaryHeight updated + 20)) as [Hlt|Hge];
    [|done].
  cbn [hasAsset scanIndex mbind outcome_bind app existsb andb].
  apply IH. lia.
Qed.

(** With an [undefined] commitment the search throws at index 0. *)
Lemma findWalletHighestIndex_hole fuel walletDetails rest :
  0 < fuel →
  findWalletHighestIndex fuel walletDetails (None :: rest) = TypeError.
Proof.
  intros Hfuel. destruct fuel as [|fuel]; [lia|].
  unfold findWalletHighestIndex. cbn [highestIndexLoop].
  by destruct (Nat.ltb_spec 0 (primaryHeight walletDetails + 20)); [|lia].
Qed.

Lemma growHeights_returns getTreeLength added :
  ∀ fuel heights,
    (∀ j, j < added → getTreeLength (length heights + j) ≠ 0) →
    getTreeLength (length heights + added) = 0 →
    added < fuel →
    growHeights fuel getTreeLength heights
    = Returned (heights ++ replicate added 0).
Proof.
  induction added as [|added IH]; intros fuel heights Hmore Hend Hfuel;
    (destruct fuel as [|fuel]; [lia|]); cbn [growHeights].
  - rewrite Nat.add_0_r in Hend. rewrite Hend. cbn [Nat.eqb replicate].
    by rewrite app_nil_r.
  - destruct (Nat.eqb_spec (getTreeLength (length heights)) 0) as [Hzero|_].
    { specialize (Hmore 0 ltac:(lia)). by rewrite Nat.add_0_r in Hmore. }
    rewrite IH; [|..|lia].
    + by rewrite <- app_assoc.
    + intros j Hj. rewrite length_app. cbn [length].
      replace (length heights + 1 + j) with (length heights + S j) by lia.
      apply Hmore. lia.
    + rewrite length_app. cbn [length].
      by replace (length heights + 1 + added)
        with (length heights + S added) by lia.
Qed.

Lemma scanTree_current fuel getTreeLength walletDetails scannedHeight tree :
  primaryHeight walletDetails + 20 < fuel →
  getTreeLength tree = scannedHeight →
  scanTree fuel getTreeLength walletDetails scannedHeight tree
  = Returned (walletDetails, scannedHeight).
Proof.
  intros Hfuel Hlen. unfold scanTree. rewrite Hlen, Nat.ltb_irrefl, Nat.sub_diag.
  cbn [replicate length]. unfold findWalletHighestIndex.
  rewrite highestIndexLoop_nil by lia. cbn [mbind outcome_bind].
  by rewrite Nat.add_0_r.
Qed.

Lemma scanTree_behind fuel getTreeLength walletDetails scannedHeight tree :
  0 < fuel →
  getTreeLength tree ≠ scannedHeight →
  ∃ message,
    scanTree fuel getTreeLength walletDetails scannedHeight tree
    = Thrown message.
Proof.
  intros Hfuel Hlen. unfold scanTree.
  destruct (Nat.ltb_spec (getTreeLength tree) scannedHeight) as [Hlt|Hge];
    [by eexists|].
  destruct (getTreeLength tree - scannedHeight) as [|n] eqn:Hn; [lia|].
  cbn [replicate]. rewrite findWalletHighestIndex_hole by done. by eexists.
Qed.

Lemma scanTreesFrom_current fuel getTreeLength walletDetails heights :
  primaryHeight walletDetails + 20 < fuel →
  ∀ tree,
    (∀ i h, heights !! i = Some h → getTreeLength (tree + i) = h) →
    scanTreesFrom fuel getTreeLength walletDetails heights tree
    = Returned (walletDetails, heights).
Proof.
  intros Hfuel.
  induction heights as [|h heights IH]; intros tree Hall; [done|].
  cbn [scanTreesFrom]. rewrite scanTree_current; [|done|].
  - cbn [mbind outcome_bind]. rewrite IH; [done|].
    intros i h' Hi. replace (S tree + i) with (tree + S i) by lia.
    by apply Hall.
  - specialize (Hall 0 h eq_refl). by rewrite Nat.add_0_r in Hall.
Qed.

Lemma scanTreesFrom_behind fuel getTreeLength walletDetails heights :
  primaryHeight walletDetails + 20 < fuel →
  ∀ tree i h,
    heights !! i = Some h → getTreeLength (tree + i) ≠ h →
    ∃ message,
      scanTreesFrom fuel getTreeLength walletDetails heights tree
      = Thrown message.
Proof.
  intros Hfuel.
  induction heights as [|h0 heights IH]; intros tree i h Hi Hne; [done|].
  cbn [scanTreesFrom].
  destruct (decide (getTreeLength tree = h0)) as [Hcur|Hbehind].
  - rewrite scanTree_current by done. cbn [mbind outcome_bind].
    destruct i as [|i].
    { injection Hi as <-. by rewrite Nat.add_0_r in Hne. }
    destruct (IH (S tree) i h Hi) as [message ->]; [|by eexists].
    by replace (S tree + i) with (tree + S i) by lia.
  - destruct (scanTree_behind fuel getTreeLength walletDetails h0 tree)
      as [message ->]; [lia|done|by eexists].
Qed.

(** [scan] never takes in a leaf: when the scan lock is free and some tree
    has a length other than its scanned height (a tree added by this call
    has scanned height 0 and leaves), the call throws, and the lock stays
    set and the stored details as they were. *)
Theorem scan_unscanned_throws fuel chain getTreeLength st added tree height :
  let heights := treeScannedHeights (getWalletDetails st chain) in
  scanLock st = false →
  (∀ j, j < added → getTreeLength (length heights + j) ≠ 0) →
  getTreeLength (length heights + added) = 0 →
  added < fuel →
  primaryHeight (getWalletDetails st chain) + 20 < fuel →
  (heights ++ replicate added 0) !! tree = Some height →
  getTreeLength tree ≠ height →
  ∃ message,
    scan fuel chain getTreeLength st
    = ({| scanLock := true; storedDetails := storedDetails st |},
       Thrown message).
Proof.
  intros heights Hfree Hmore Hend Hadded Hfuel Htree Hne. unfold scan.
  rewrite Hfree. fold heights.
  rewrite (growHeights_returns getTreeLength added) by done.
  cbn [mbind outcome_bind].
  destruct (scanTreesFrom_behind fuel getTreeLength
              {| treeScannedHeights := heights ++ replicate added 0;
                 primaryHeight := primaryHeight (getWalletDetails st chain);
                 changeHeight := changeHeight (getWalletDetails st chain) |}
              (heights ++ replicate added 0) Hfuel 0 tree height Htree Hne)
    as [message ->].
  by exists message.
Qed.

(** [scan] returns when the lock is free and every tree's length is its
    scanned height, with no further tree: it releases the lock and stores
    the details it loaded, unchanged. *)
Theorem scan_nothing_new fuel chain getTreeLength st :
  let walletDetails := getWalletDetails st chain in
  scanLock st = false →
  getTreeLength (length (treeScannedHeights walletDetails)) = 0 →
  (∀ tree height,
     treeScannedHeights walletDetails !! tree = Some height →
     getTreeLength tree = height) →
  primaryHeight walletDetails + 20 < fuel →
  scan fuel chain getTreeLength st
  = ({| scanLock := false;
        storedDetails := <[chain := walletDetails]> (storedDetails st) |},
     Returned ()).
Proof.
  intros walletDetails Hfree Hend Hall Hfuel. unfold scan.
  rewrite Hfree. fold walletDetails.
  rewrite (growHeights_returns getTreeLength 0);
    [|intros j Hj; lia|by rewrite Nat.add_0_r|lia].
  cbn [replicate mbind outcome_bind]. rewrite app_nil_r.
  rewrite scanTreesFrom_current; [|done|done].
  cbn [primaryHeight changeHeight]. by destruct walletDetails.
Qed.

End Wallet.

(** *** A concrete run

    Commitments are numbers; one is addressed to the primary keypair of the
    index it names. *)
Definition primaryOnly (index : nat) (change : bool) (commitment : nat)
    : outcome bool :=
  Returned (negb change && (commitment =? index)).

Definition freshDetails : WalletDetails := mkWalletDetails [] 0 0.

Example findWalletHighestIndex_runs :
  findWalletHighestIndex primaryOnly 100 freshDetails [Some 3; Some 25]
  = Returned (mkWalletDetails [] 3 0)
  ∧ findWalletHighestIndex primaryOnly 100 freshDetails [Some 3; Some 22]
    = Returned (mkWalletDetails [] 22 0).
Proof. split; vm_compute; reflexivity. Qed.

Lemma findWalletHighestIndex_gap_witness :
  treeScannedHeights (mkWalletDetails [] 3 0) = treeScannedHeights freshDetails
  ∧ changeHeight (mkWalletDetails [] 3 0) = changeHeight freshDetails
  ∧ primaryHeight freshDetails ≤ primaryHeight (mkWalletDetails [] 3 0)
  ∧ (primaryHeight (mkWalletDetails [] 3 0) = primaryHeight freshDetails
     ∨ hasAsset primaryOnly (primaryHeight (mkWalletDetails [] 3 0))
         [Some 3; Some 25] = Returned true)
  ∧ ∀ j, primaryHeight (mkWalletDetails [] 3 0) < j
         < primaryHeight (mkWalletDetails [] 3 0) + 20 →
         hasAsset primaryOnly j [Some 3; Some 25] = Returned false.
Proof.
  apply (findWalletHighestIndex_gap primaryOnly 100 freshDetails
           [Some 3; Some 25] (mkWalletDetails [] 3 0)).
  vm_compute. reflexivity.
Defined.

Lemma findWalletHighestIndex_returns_witness :
  ∃ result,
    findWalletHighestIndex primaryOnly 100 freshDetails [Some 3; Some 25]
    = Returned result.
Proof.
  apply (findWalletHighestIndex_returns primaryOnly 100 freshDetails
           [Some 3; Some 25] 26).
  - intros index. by eexists.
  - intros index Hle. unfold hasAsset, primaryOnly.
    cbn [scanIndex mbind outcome_bind app existsb negb andb orb].
    destruct (Nat.eqb_spec 3 index); [lia|].
    destruct (Nat.eqb_spec 25 index); [lia|done].
  - vm_compute. lia.
Defined.

(** One tree with two leaves, and a wallet that has not scanned. *)
Definition oneTreeLength (tree : nat) : nat :=
  match tree with 0 => 2 | _ => 0 end.

Definition freshState : WalletState := mkWalletState false ∅.

Lemma scan_unscanned_throws_witness :
  ∃ message,
    scan primaryOnly 100 1 oneTreeLength freshState
    = ({| scanLock := true; storedDetails := storedDetails freshState |},
       Thrown message).
Proof.
  apply (scan_unscanned_throws primaryOnly 100 1 oneTreeLength freshState
           1 0 0).
  - reflexivity.
  - intros j Hj. replace j with 0 by lia. vm_compute. discriminate.
  - reflexivity.
  - lia.
  - vm_compute. lia.
  - reflexivity.
  - vm_compute. discriminate.
Defined.

Lemma scan_nothing_new_witness :
  scan primaryOnly 100 1 (fun _ => 0) freshState
  = ({| scanLock := false;
        storedDetails :=
          <[1 := getWalletDetails freshState 1]> (storedDetails freshState) |},
     Returned ()).
Proof.
  apply (scan_nothing_new primaryOnly 100 1 (fun _ => 0) freshState).
  - reflexivity.
  - reflexivity.
  - intros tree height Hlookup. vm_compute in Hlookup. discriminate.
  - vm_compute. lia.
Defined.

End HDWallet.
